(** * Island generator: noise, masks, colour mapping and rendering

    A shallow embedding of [src/island-generator] ([utils.js], [perlin.js],
    [renderer.js], [exports.js]) and the properties of its rendering
    pipeline, followed by the settings object, its presets and the
    buttons that edit it ([config.js], [gui.js]) and the animation loop
    ([app.js]).

    JavaScript numbers are modelled as real numbers: every numeric input is
    taken to be finite and arithmetic is exact, so the statements below are
    about the algorithm and not about IEEE rounding.  Where the source
    divides, the theorems that depend on the quotient carry the hypothesis
    that the divisor is not zero, or prove that it is not. *)

From Stdlib Require Import Reals Lra Lia ZArith List String Ascii Bool.
From Stdlib Require Import Zfloor.
Import ListNotations.

Open Scope R_scope.

(** ** utils.js *)

(** [Math.floor] and [Math.round] (nearest integer, ties towards +infinity). *)
Definition Math_floor (x : R) : R := IZR (Zfloor x).

Definition Math_round (x : R) : R := IZR (Zfloor (x + 0.5)).

Definition fract (x : R) : R := x - Math_floor x.

Definition pseudoRandom (x y seed : R) : R :=
  let dot := x * 127.1 + y * 311.7 + seed * 9999 in
  fract (sin dot * 43758.5453123).

Definition fade (t : R) : R := t * t * t * (t * (t * 6 - 15) + 10).

Definition lerp (a b t : R) : R := a + t * (b - a).

Record RGB : Type := mkRGB { r : R; g : R; b : R }.

(** One hexadecimal digit, upper or lower case (the pattern has the [i] flag). *)
Definition hexDigit (c : ascii) : option Z :=
  let n := Z.of_nat (nat_of_ascii c) in
  if ((48 <=? n) && (n <=? 57))%Z then Some (n - 48)%Z
  else if ((97 <=? n) && (n <=? 102))%Z then Some (n - 87)%Z
  else if ((65 <=? n) && (n <=? 70))%Z then Some (n - 55)%Z
  else None.

(** [parseInt(s, 16)] on a two-digit group of the pattern. *)
Definition parseHexPair (hi lo : ascii) : option Z :=
  match hexDigit hi, hexDigit lo with
  | Some h, Some l => Some (16 * h + l)%Z
  | _, _ => None
  end.

(** The optional leading [#] of the pattern of [hexToRgb]. *)
Definition stripHash (hex : string) : string :=
  match hex with
  | String "#"%char rest => rest
  | _ => hex
  end.

(** [/^#?([a-f\d]{2})([a-f\d]{2})([a-f\d]{2})$/i]: an optional [#], then
    exactly six hexadecimal digits; anything else yields black. *)
Definition hexToRgb (hex : string) : RGB :=
  match stripHash hex with
  | String r1 (String r2 (String g1 (String g2 (String b1 (String b2 EmptyString))))) =>
      match parseHexPair r1 r2, parseHexPair g1 g2, parseHexPair b1 b2 with
      | Some vr, Some vg, Some vb => mkRGB (IZR vr) (IZR vg) (IZR vb)
      | _, _, _ => mkRGB 0 0 0
      end
  | _ => mkRGB 0 0 0
  end.

Definition interpolateColors (c1 c2 : string) (t : R) : RGB :=
  let a := hexToRgb c1 in
  let b' := hexToRgb c2 in
  mkRGB (Math_round (lerp (r a) (r b') t))
        (Math_round (lerp (g a) (g b') t))
        (Math_round (lerp (b a) (b b') t)).

(** ** config.js: the shared settings object read by the pipeline *)

Record ColorStop : Type := mkStop { threshold : R; color : string }.

Record Config : Type := mkConfig {
  scale : R;
  seed : R;
  time : R;
  grayscale : bool;
  octaves : bool;
  smoothing : bool;
  shading : bool;
  mask : bool;
  maskShape : string;
  maskContrast : R;
  thresholds : list ColorStop;
  width : Z;
  height : Z
}.

(** ** perlin.js *)

Record Vec2 : Type := mkVec { vx : R; vy : R }.

Definition randomGradient (ix iy seed : R) : Vec2 :=
  let angle := pseudoRandom ix iy seed * 2 * PI in
  mkVec (cos angle) (sin angle).

Definition dotGridGradient (ix iy x y seed : R) : R :=
  let grad := randomGradient ix iy seed in
  let dx := x - ix in
  let dy := y - iy in
  dx * vx grad + dy * vy grad.

Definition rawPerlin (x y seed : R) : R :=
  let x0 := Math_floor x in
  let x1 := x0 + 1 in
  let y0 := Math_floor y in
  let y1 := y0 + 1 in
  let sx := x - x0 in
  let sy := y - y0 in
  let u := fade sx in
  let v := fade sy in
  let n00 := dotGridGradient x0 y0 x y seed in
  let n10 := dotGridGradient x1 y0 x y seed in
  let n01 := dotGridGradient x0 y1 x y seed in
  let n11 := dotGridGradient x1 y1 x y seed in
  lerp (lerp n00 n10 u) (lerp n01 n11 u) v.

(** The four accumulators of the octave loop. *)
Record Octave : Type := mkOctave {
  total : R;
  frequency : R;
  amplitude : R;
  maxValue : R
}.

Definition octaveStart : Octave := mkOctave 0 1 1 0.

(** One pass through the body of the [for] loop of [perlin]. *)
Definition octaveStep (x y seed : R) (st : Octave) : Octave :=
  mkOctave (total st + rawPerlin (x * frequency st) (y * frequency st) seed * amplitude st)
           (frequency st * 2)
           (amplitude st * 0.5)
           (maxValue st + amplitude st).

Fixpoint octaveLoop (n : nat) (x y seed : R) (st : Octave) : Octave :=
  match n with
  | O => st
  | S n' => octaveLoop n' x y seed (octaveStep x y seed st)
  end.

(** The normalised sum after [n] octaves. *)
Definition fractalNoise (n : nat) (x y seed : R) : R :=
  let st := octaveLoop n x y seed octaveStart in
  total st / maxValue st.

Definition octaveCount (cfg : Config) : nat := if octaves cfg then 4%nat else 1%nat.

Definition perlin (cfg : Config) (x y seed : R) : R :=
  fractalNoise (octaveCount cfg) x y seed.

(** ** renderer.js *)

Definition white : string := "#ffffff".

(** The [for] loop of [getColorForValue], entered at index [i] with [fuel]
    iterations left.  The two [None] branches are never taken when
    [i + fuel] is the length of the list. *)
Fixpoint scanThresholds (cfg : Config) (value : R) (i fuel : nat) : RGB :=
  match fuel with
  | O => hexToRgb white
  | S fuel' =>
      match nth_error (thresholds cfg) i with
      | None => hexToRgb white
      | Some t =>
          if Rle_dec value (threshold t) then
            if smoothing cfg && (0 <? i)%nat then
              match nth_error (thresholds cfg) (i - 1) with
              | Some prev =>
                  let ratio :=
                    (value - threshold prev) / (threshold t - threshold prev) in
                  interpolateColors (color prev) (color t) ratio
              | None => hexToRgb (color t)
              end
            else hexToRgb (color t)
          else scanThresholds cfg value (S i) fuel'
      end
  end.

Definition getColorForValue (cfg : Config) (value : R) : RGB :=
  scanThresholds cfg value 0 (List.length (thresholds cfg)).

(** [Math.max(0, Math.min(1, v))]. *)
Definition clamp01 (v : R) : R := Rmax 0 (Rmin 1 v).

(** Distance of a pixel from the centre and the largest such distance, as
    the circle branch of [applyMask] computes them. *)
Definition circleDist (cfg : Config) (x y : R) : R :=
  let cx := IZR (width cfg) / 2 in
  let cy := IZR (height cfg) / 2 in
  let distx := Rabs (x - cx) in
  let disty := Rabs (y - cy) in
  sqrt (distx * distx + disty * disty).

Definition maxGrad (cfg : Config) : R :=
  let cx := IZR (width cfg) / 2 in
  let cy := IZR (height cfg) / 2 in
  sqrt (cx * cx + cy * cy).

Definition circleGrad (cfg : Config) (x y : R) : R :=
  let circleGrad := circleDist cfg x y / maxGrad cfg in
  let circleGrad := circleGrad - 0.5 in
  let circleGrad := circleGrad * 2.0 in
  - circleGrad.

Definition squareGrad (cfg : Config) (x y : R) : R :=
  let cx := IZR (width cfg) / 2 in
  let cy := IZR (height cfg) / 2 in
  let dx := Rabs (x - cx) / cx in
  let dy := Rabs (y - cy) / cy in
  let squareDist := Rmax dx dy in
  let squareGrad := 1 - squareDist in
  Rmax 0 squareGrad.

Definition hexGrad (cfg : Config) (x y : R) : R :=
  let cx := IZR (width cfg) / 2 in
  let cy := IZR (height cfg) / 2 in
  let dx := Rabs (x - cx) / cx in
  let dy := Rabs (y - cy) / cy in
  let qx := Rabs dx in
  let qy := Rabs dy in
  let hexDist := Rmax qx (qy * 0.866 + qx * 0.5) in
  let hexGrad := 1 - hexDist in
  Rmax 0 hexGrad.

Definition applyMask (cfg : Config) (x y value : R) : R :=
  if negb (mask cfg) then value
  else if String.eqb (maskShape cfg) "circle" then
    let grad := circleGrad cfg x y in
    if Rlt_dec 0 grad then
      let maskedValue := value * grad in
      let maskedValue :=
        if Rlt_dec 0 maskedValue then maskedValue * maskContrast cfg
        else maskedValue in
      clamp01 maskedValue
    else 0
  else if String.eqb (maskShape cfg) "square" then
    let grad := squareGrad cfg x y in
    if Rlt_dec 0 grad then
      let maskedValue := value * grad in
      let maskedValue :=
        if Rlt_dec 0 maskedValue then maskedValue * (maskContrast cfg * 0.75)
        else maskedValue in
      clamp01 maskedValue
    else 0
  else if String.eqb (maskShape cfg) "hexagon" then
    let grad := hexGrad cfg x y in
    if Rlt_dec 0 grad then
      let maskedValue := value * grad in
      let maskedValue :=
        if Rlt_dec 0 maskedValue then maskedValue * (maskContrast cfg * 0.75)
        else maskedValue in
      clamp01 maskedValue
    else 0
  else value.

(** The body of the pixel loop of [draw], in its four stages. *)

(** Noise sample, remap and mask. *)
Definition drawValue (cfg : Config) (x y : Z) : R :=
  let nx := IZR x / scale cfg in
  let ny := IZR y / scale cfg in
  let value := (perlin cfg nx (ny + time cfg) (seed cfg) + 1) / 2 in
  applyMask cfg (IZR x) (IZR y) value.

(** Colour selection. *)
Definition baseColor (cfg : Config) (value : R) : RGB :=
  if grayscale cfg then mkRGB (value * 255) (value * 255) (value * 255)
  else getColorForValue cfg value.

(** Pseudo-3D shading of the colour [rgb] chosen for the value [value]. *)
Definition applyShading (cfg : Config) (x y : Z) (value : R) (rgb : RGB) : RGB :=
  let nx := IZR x / scale cfg in
  let ny := IZR y / scale cfg in
  if shading cfg then
    let next := (perlin cfg (nx + 0.01) (ny + 0.01) (seed cfg) + 1) / 2 in
    let shade := value - next in
    mkRGB (Rmin 255 (Rmax 0 (r rgb + shade * 100)))
          (Rmin 255 (Rmax 0 (g rgb + shade * 100)))
          (Rmin 255 (Rmax 0 (b rgb + shade * 100)))
  else rgb.

(** A store into the [Uint8ClampedArray] of the image: clamp to 0..255 and
    round to the nearest integer, ties to even. *)
Definition toUint8Clamp (v : R) : Z :=
  if Rle_dec v 0 then 0%Z
  else if Rle_dec 255 v then 255%Z
  else
    let f := Zfloor v in
    if Rlt_dec (v - IZR f) 0.5 then f
    else if Rlt_dec 0.5 (v - IZR f) then (f + 1)%Z
    else if Z.even f then f else (f + 1)%Z.

Definition storePixel (rgb : RGB) : list Z :=
  [toUint8Clamp (r rgb); toUint8Clamp (g rgb); toUint8Clamp (b rgb); 255%Z].

Definition drawColor (cfg : Config) (x y : Z) (value : R) : RGB :=
  applyShading cfg x y value (baseColor cfg value).

Definition drawPixel (cfg : Config) (x y : Z) : list Z :=
  storePixel (drawColor cfg x y (drawValue cfg x y)).

(** The values [0, 1, ..., n-1] taken by a loop counter below [n]. *)
Definition loopRange (n : Z) : list Z := map Z.of_nat (seq 0 (Z.to_nat n)).

(** A call either throws or completes, leaving [data] on the canvas. *)
Inductive Outcome : Type :=
| Rejected (reason : string)
| Rendered (data : list Z).

(** [draw]: the canvas takes the configured size, and the pixels are written
    at consecutive indices [(y * width + x) * 4], row by row.  The function
    has no check and no [throw] of its own: it runs to [putImageData].  What
    the canvas does with a size that is not positive is not part of the
    model, and the statements about whole images assume a positive size. *)
Definition draw (cfg : Config) : Outcome :=
  Rendered
    (flat_map (fun y => flat_map (fun x => drawPixel cfg x y) (loopRange (width cfg)))
              (loopRange (height cfg))).

(** ** exports.js *)

(** The value [exportMap] formats for the pixel [(x, y)]. *)
Definition mapValue (cfg : Config) (x y : Z) : R :=
  let nx := IZR x / scale cfg in
  let ny := IZR y / scale cfg in
  let value := (perlin cfg nx (ny + time cfg) (seed cfg) + 1) / 2 in
  let value := applyMask cfg (IZR x) (IZR y) value in
  value.

(** The grid of values of [exportMap], one list per line of the file; the
    formatting of each value with [toFixed(3)] belongs to the export
    encoding and is left out. *)
Definition exportMap (cfg : Config) : list (list R) :=
  map (fun y => map (fun x => mapValue cfg x y) (loopRange (width cfg)))
      (loopRange (height cfg)).

(** ** gui.js of the island generator: colours of the random terrain *)

(** Rounding towards zero. *)
Definition truncZ (v : R) : Z := if Rle_dec 0 v then Zfloor v else Zceil v.

(** [a % b] on numbers: the remainder takes the sign of the dividend. *)
Definition jsRem (a d : R) : R := a - d * IZR (truncZ (a / d)).

(** [ToInt32] on an integer, and [a << n] with its count taken modulo 32. *)
Definition wrap32 (z : Z) : Z := ((z + 2 ^ 31) mod 2 ^ 32 - 2 ^ 31)%Z.

Definition shl32 (a n : Z) : Z := wrap32 (Z.shiftl (wrap32 a) (n mod 32)).

(** The digit [d] of [0-9a-f], as [toString(16)] writes it. *)
Definition digitChar (d : Z) : ascii :=
  if (d <? 10)%Z then ascii_of_nat (Z.to_nat (48 + d))
  else ascii_of_nat (Z.to_nat (87 + d)).

(** The digits of [z >= 0] in base 16, most significant first, put in
    front of [acc]. *)
Fixpoint hexDigitsOf (fuel : nat) (z : Z) (acc : string) : string :=
  match fuel with
  | O => acc
  | S fuel' =>
      let acc' := String (digitChar (z mod 16)) acc in
      if (z / 16 =? 0)%Z then acc' else hexDigitsOf fuel' (z / 16) acc'
  end.

(** [z.toString(16)] on an integer. *)
Definition toString16 (z : Z) : string :=
  if (z <? 0)%Z then
    String "-"%char (hexDigitsOf (S (Z.to_nat (Z.log2 (- z)))) (- z) EmptyString)
  else hexDigitsOf (S (Z.to_nat (Z.log2 z))) z EmptyString.

(** [s.slice(1)]. *)
Definition slice1 (s : string) : string :=
  match s with
  | EmptyString => EmptyString
  | String _ rest => rest
  end.

(** [lo <= h && h < hi]. *)
Definition inSector (lo h hi : R) : bool :=
  if Rle_dec lo h then (if Rlt_dec h hi then true else false) else false.

(** The three channels [hslToHex] computes, after rounding. *)
Definition hslRgb (h s l : R) : Z * Z * Z :=
  let s := s / 100 in
  let l := l / 100 in
  let c := (1 - Rabs (2 * l - 1)) * s in
  let x := c * (1 - Rabs (jsRem (h / 60) 2 - 1)) in
  let m := l - c / 2 in
  let '(r, g, b) :=
    if inSector 0 h 60 then (c, x, 0)
    else if inSector 60 h 120 then (x, c, 0)
    else if inSector 120 h 180 then (0, c, x)
    else if inSector 180 h 240 then (0, x, c)
    else if inSector 240 h 300 then (x, 0, c)
    else if inSector 300 h 360 then (c, 0, x)
    else (0, 0, 0) in
  (Zfloor ((r + m) * 255 + 0.5),
   Zfloor ((g + m) * 255 + 0.5),
   Zfloor ((b + m) * 255 + 0.5)).

Definition hslToHex (h s l : R) : string :=
  let '(r, g, b) := hslRgb h s l in
  String "#"%char
    (slice1 (toString16 (shl32 1 24 + shl32 r 16 + shl32 g 8 + b)%Z)).

(** ** Vocabulary of the statements *)

(** What the loop maintains: a positive amplitude, and a running total
    bounded by the running sum of amplitudes. *)
Definition octaveInv (st : Octave) : Prop :=
  0 < amplitude st /\ 0 <= maxValue st /\ - maxValue st <= total st <= maxValue st.

(** The stop at index [k] is the one the scan of [getColorForValue] stops
    at: its threshold is the first that is not below the value. *)
Definition firstMatch (cfg : Config) (value : R) (k : nat) (t : ColorStop) : Prop :=
  nth_error (thresholds cfg) k = Some t /\
  value <= threshold t /\
  forall j tj, (j < k)%nat -> nth_error (thresholds cfg) j = Some tj ->
               threshold tj < value.

(** What the scan returns when it stops at index [k] on the stop [t]. *)
Definition colorAt (cfg : Config) (value : R) (k : nat) (t : ColorStop) : RGB :=
  if smoothing cfg && (0 <? k)%nat then
    match nth_error (thresholds cfg) (k - 1) with
    | Some prev =>
        interpolateColors (color prev) (color t)
          ((value - threshold prev) / (threshold t - threshold prev))
    | None => hexToRgb (color t)
    end
  else hexToRgb (color t).

(** A colour whose channels are numbers of the byte range. *)
Definition inGamut (c : RGB) : Prop :=
  0 <= r c <= 255 /\ 0 <= g c <= 255 /\ 0 <= b c <= 255.

(** The tail shared by the three shapes of [applyMask]: the product of
    the value and the gradient [grad], boosted by [k] when positive and
    clamped; zero outside the shape. *)
Definition shaped (value grad k : R) : R :=
  if Rlt_dec 0 grad then
    clamp01 (if Rlt_dec 0 (value * grad) then value * grad * k else value * grad)
  else 0.

(** The settings object as [config.js] initialises it (Island preset). *)
Definition islandThresholds : list ColorStop :=
  [ mkStop 0.0 "#4169E1"; mkStop 0.02 "#EED6AF"; mkStop 0.04 "#D2B48C";
    mkStop 0.15 "#228B22"; mkStop 0.30 "#006400"; mkStop 0.45 "#8B8989";
    mkStop 1.0 "#FFFAFA" ].

Definition defaultConfig : Config :=
  mkConfig 50 0 0 false true true true true "circle" 4.0 islandThresholds 400 400.

Definition setThresholds (cfg : Config) (stops : list ColorStop) : Config :=
  mkConfig (scale cfg) (seed cfg) (time cfg) (grayscale cfg) (octaves cfg)
           (smoothing cfg) (shading cfg) (mask cfg) (maskShape cfg)
           (maskContrast cfg) stops (width cfg) (height cfg).

Definition setTime (cfg : Config) (t : R) : Config :=
  mkConfig (scale cfg) (seed cfg) t (grayscale cfg) (octaves cfg)
           (smoothing cfg) (shading cfg) (mask cfg) (maskShape cfg)
           (maskContrast cfg) (thresholds cfg) (width cfg) (height cfg).

Definition setShading (cfg : Config) (on : bool) : Config :=
  mkConfig (scale cfg) (seed cfg) (time cfg) (grayscale cfg) (octaves cfg)
           (smoothing cfg) on (mask cfg) (maskShape cfg)
           (maskContrast cfg) (thresholds cfg) (width cfg) (height cfg).

Definition setMaskShape (cfg : Config) (shape : string) : Config :=
  mkConfig (scale cfg) (seed cfg) (time cfg) (grayscale cfg) (octaves cfg)
           (smoothing cfg) (shading cfg) (mask cfg) shape
           (maskContrast cfg) (thresholds cfg) (width cfg) (height cfg).

(** The two-stop black-to-white ramp. *)
Definition rampConfig : Config :=
  setThresholds defaultConfig [mkStop 0.0 "#000000"; mkStop 1.0 "#ffffff"].

(** A single red stop at 0.5. *)
Definition redConfig : Config :=
  setThresholds defaultConfig [mkStop 0.5 "#ff0000"].

(** Two adjacent stops with the same threshold. *)
Definition twinConfig : Config :=
  setThresholds defaultConfig [mkStop 0.5 "#ff0000"; mkStop 0.5 "#00ff00"].

(** The default image under the square and the hexagon masks. *)
Definition squareConfig : Config := setMaskShape defaultConfig "square".

Definition hexagonConfig : Config := setMaskShape defaultConfig "hexagon".

(** A one-pixel image, unmasked, in colour mode without shading, whose
    list of colour stops is empty. *)
Definition noStopsConfig : Config :=
  mkConfig 50 0 0 false true true false false "circle" 4.0 [] 1 1.

(** The configurations a caller must not pass (a seed that is not finite
    has no counterpart among the reals). *)
Definition invalidConfig (cfg : Config) : Prop :=
  scale cfg <= 0 \/ thresholds cfg = [] \/
  (width cfg <= 0)%Z \/ (height cfg <= 0)%Z.

(** The colour and shading stages of [draw] applied to a grid of values,
    pixel [(x, y)] being the [x]-th entry of the [y]-th row. *)
Definition paintRow (cfg : Config) (y : Z) (row : list R) : list Z :=
  flat_map (fun p => storePixel (drawColor cfg (fst p) y (snd p)))
           (combine (loopRange (Z.of_nat (List.length row))) row).

Definition paintGrid (cfg : Config) (grid : list (list R)) : list Z :=
  flat_map (fun q => paintRow cfg (fst q) (snd q))
           (combine (loopRange (Z.of_nat (List.length grid))) grid).

(** The sample [draw] subtracts when it shades the pixel [(x, y)]. *)
Definition shadeSample (cfg : Config) (x y : Z) : R :=
  (perlin cfg (IZR x / scale cfg + 0.01) (IZR y / scale cfg + 0.01) (seed cfg) + 1) / 2.

(** The sample one step of 0.01 away from the main sample of the pixel,
    which is taken at [(x / scale, y / scale + time)]. *)
Definition nearbySample (cfg : Config) (x y : Z) : R :=
  (perlin cfg (IZR x / scale cfg + 0.01) (IZR y / scale cfg + time cfg + 0.01)
          (seed cfg) + 1) / 2.

(** ** config.js: the settings object and its presets *)

(** The settings object: the fields the pipeline reads, the animation
    speed and the name of the preset in use. *)
Record Settings : Type := mkSettings {
  pipeline : Config;
  speed : R;
  currentPreset : string
}.

(** A preset; the mask fields may be missing. *)
Record Preset : Type := mkPreset {
  presetScale : R;
  presetSeed : R;
  presetMask : option bool;
  presetMaskShape : option string;
  presetMaskContrast : option R;
  presetThresholds : list ColorStop
}.

Definition presets : list (string * Preset) :=
  [ ("Island"%string,
     mkPreset 50 0 (Some true) (Some "circle"%string) None
       [ mkStop 0.0 "#4169E1"; mkStop 0.02 "#EED6AF"; mkStop 0.04 "#D2B48C";
         mkStop 0.15 "#228B22"; mkStop 0.30 "#006400"; mkStop 0.45 "#8B8989";
         mkStop 1.0 "#FFFAFA" ]);
    ("Archipelago"%string,
     mkPreset 120 8 (Some true) (Some "circle"%string) None
       [ mkStop 0.0 "#4169E1"; mkStop 0.01 "#EED6AF"; mkStop 0.03 "#D2B48C";
         mkStop 0.12 "#228B22"; mkStop 0.25 "#006400"; mkStop 0.35 "#8B8989";
         mkStop 1.0 "#FFFAFA" ]);
    ("Desert"%string,
     mkPreset 80 3 (Some false) None None
       [ mkStop 0.3 "#000000"; mkStop 0.5 "#e0c080"; mkStop 0.7 "#d9b26f";
         mkStop 0.85 "#aa9966"; mkStop 1.0 "#888888" ]);
    ("Rainforest"%string,
     mkPreset 45 10 (Some false) None None
       [ mkStop 0.25 "#000000"; mkStop 0.35 "#ffe39f"; mkStop 0.45 "#65b84f";
         mkStop 0.6 "#3e9f3e"; mkStop 0.75 "#2c662c"; mkStop 1.0 "#1f4d1f" ]);
    ("Mountains"%string,
     mkPreset 40 1 (Some false) None None
       [ mkStop 0.4 "#333333"; mkStop 0.5 "#777777"; mkStop 0.7 "#aaaaaa";
         mkStop 0.85 "#dddddd"; mkStop 1.0 "#ffffff" ]) ].

(** [presets[name]] for a name that is a key of the table or of no object
    at all. *)
Definition lookupPreset (name : string) : option Preset :=
  option_map snd (find (fun entry => String.eqb (fst entry) name) presets).

(** [v ?? d]. *)
Definition orDefault {A : Type} (v : option A) (d : A) : A :=
  match v with
  | Some a => a
  | None => d
  end.

(** [config.applyPreset(name)]: the new settings and, unless the name is
    unknown, the image of the [draw()] that ends the call. *)
Definition applyPreset (name : string) (st : Settings) : Settings * option Outcome :=
  match lookupPreset name with
  | None => (st, None)
  | Some preset =>
      let cfg := pipeline st in
      let cfg' :=
        mkConfig (presetScale preset) (presetSeed preset) (time cfg)
                 (grayscale cfg) (octaves cfg) (smoothing cfg) (shading cfg)
                 (orDefault (presetMask preset) true)
                 (orDefault (presetMaskShape preset) "circle"%string)
                 (orDefault (presetMaskContrast preset) 4.0)
                 (presetThresholds preset) (width cfg) (height cfg) in
      (mkSettings cfg' (speed st) name, Some (draw cfg'))
  end.

(** ** gui.js: editing the list of stops *)

Definition markAsCustom (st : Settings) : Settings :=
  if negb (String.eqb (currentPreset st) "Custom") then
    mkSettings (pipeline st) (speed st) "Custom"
  else st.

(** The [addLayer] and [removeLayer] buttons; the redraw they schedule
    comes later, from a timer. *)
Definition addLayer (st : Settings) : Settings :=
  markAsCustom
    (mkSettings
       (setThresholds (pipeline st)
          (thresholds (pipeline st) ++ [mkStop 1.0 "#ffffff"]))
       (speed st) (currentPreset st)).


(** ** gui.js: the random terrain *)

(** [list[k]] on an array of strings; ["undefined"] stands for the value
    an index outside the array gives, which is none of the shapes. *)
Definition arrayAt (items : list string) (k : Z) : string :=
  if (k <? 0)%Z then "undefined"%string
  else nth (Z.to_nat k) items "undefined"%string.

(** The loop that pushes the layers: [i] is its counter, [k] the number of
    calls of [Math.random] made so far, [rnd] the values they return. *)
Fixpoint layerLoop (rnd : nat -> R) (layerCount : R) (fuel i k : nat)
                   (stops : list ColorStop) : list ColorStop :=
  match fuel with
  | O => stops
  | S fuel' =>
      if Rlt_dec (INR i) layerCount then
        let hue := Math_floor (rnd k * 360) in
        let saturation := Math_floor (rnd (k + 1)%nat * 60) + 40 in
        let lightness := Math_floor (rnd (k + 2)%nat * 50) + 25 in
        let color := hslToHex hue saturation lightness in
        layerLoop rnd layerCount fuel' (S i) (k + 3)
                  (stops ++ [mkStop ((INR i + 1) / layerCount) color])
      else stops
  end.

(** [thresholds.sort((a, b) => a.threshold - b.threshold)], as a stable
    insertion sort. *)
Fixpoint insertStop (t : ColorStop) (sorted : list ColorStop) : list ColorStop :=
  match sorted with
  | [] => [t]
  | u :: rest =>
      if Rlt_dec (threshold t - threshold u) 0 then t :: u :: rest
      else u :: insertStop t rest
  end.

Definition sortStops (stops : list ColorStop) : list ColorStop :=
  fold_left (fun sorted t => insertStop t sorted) stops [].

Definition randomizeTerrain (rnd : nat -> R) (st : Settings) : Settings :=
  let scale' := Math_floor (rnd 0%nat * 150) + 20 in
  let seed' := Math_floor (rnd 1%nat * 100) in
  let speed' := rnd 2%nat * 0.02 in
  let smoothing' := if Rlt_dec (rnd 3%nat) 0.6 then true else false in
  let mask' := if Rlt_dec (rnd 4%nat) 0.7 then true else false in
  let maskShape' :=
    arrayAt ["circle"; "square"; "hexagon"]%string (Zfloor (rnd 5%nat * 3)) in
  let maskContrast' := rnd 6%nat * 2 + 1.5 in
  let layerCount := Math_floor (rnd 7%nat * 3) + 4 in
  let stops :=
    layerLoop rnd layerCount (Z.to_nat (Zceil layerCount)) 0 8 [] in
  let stops := sortStops stops in
  markAsCustom
    (mkSettings
       (mkConfig scale' seed' (time (pipeline st)) false true smoothing' true
                 mask' maskShape' maskContrast' stops
                 (width (pipeline st)) (height (pipeline st)))
       speed' (currentPreset st)).

(** ** app.js: the animation loop *)

(** One run of [loop]: the time advances, and the image is redrawn when
    the speed is positive. *)
Definition loopFrame (st : Settings) : Settings * option Outcome :=
  let st' := mkSettings (setTime (pipeline st) (time (pipeline st) + speed st))
                        (speed st) (currentPreset st) in
  (st', if Rlt_dec 0 (speed st') then Some (draw (pipeline st')) else None).

(** [n] runs in a row, with what each one drew. *)
Fixpoint loopFrames (n : nat) (st : Settings) : Settings * list (option Outcome) :=
  match n with
  | O => (st, [])
  | S n' =>
      let (st', drawn) := loopFrame st in
      let (st'', rest) := loopFrames n' st' in
      (st'', drawn :: rest)
  end.

(** ** exports.js: the text of the map file *)









(** ** More vocabulary *)

(** The thresholds grow strictly along the list. *)
Definition ascending (stops : list ColorStop) : Prop :=
  forall i j ti tj, (i < j)%nat ->
    nth_error stops i = Some ti -> nth_error stops j = Some tj ->
    threshold ti < threshold tj.

(** Every threshold of the list exceeds the one before it, the first one
    exceeding [lo]. *)
Fixpoint chained (lo : R) (stops : list ColorStop) : Prop :=
  match stops with
  | [] => True
  | t :: rest => lo < threshold t /\ chained (threshold t) rest
  end.

(** The layer number [j] of a random terrain of [n] layers, for the
    values [rnd] that [Math.random] returns. *)
Definition randomLayer (rnd : nat -> R) (n j : nat) : ColorStop :=
  mkStop ((INR j + 1) / INR n)
         (hslToHex (Math_floor (rnd (8 + 3 * j)%nat * 360))
                   (Math_floor (rnd (8 + 3 * j + 1)%nat * 60) + 40)
                   (Math_floor (rnd (8 + 3 * j + 2)%nat * 50) + 25)).





(** * Properties *)

(** ** Arithmetic of the helpers *)

(** Adds [0 <= e * e] to the context, for [lra] to use. *)
Ltac square_nonneg e :=
  let H := fresh "Hsq" in
  pose proof (Rle_0_sqr e) as H; unfold Rsqr in H.

Lemma Math_floor_IZR (z : Z) : Math_floor (IZR z) = IZR z.
Proof. unfold Math_floor. now rewrite ZfloorZ. Qed.

Lemma Math_floor_offset (x : R) : 0 <= x - Math_floor x < 1.
Proof. unfold Math_floor. pose proof (Zfloor_bound x). lra. Qed.

Lemma Math_round_half (z : Z) : Math_round (IZR z + 0.5) = IZR z + 1.
Proof.
  unfold Math_round.
  replace (IZR z + 0.5 + 0.5) with (IZR (z + 1)) by (rewrite plus_IZR; lra).
  now rewrite ZfloorZ, plus_IZR.
Qed.

Lemma fade_0 : fade 0 = 0.
Proof. unfold fade. ring. Qed.

Lemma fade_nonneg (s : R) : 0 <= s -> 0 <= fade s.
Proof.
  intros Hs. unfold fade.
  assert (H3 : 0 <= s * s * s) by (repeat apply Rmult_le_pos; assumption).
  square_nonneg (s - 5 / 4).
  assert (Hq : 0 <= s * (s * 6 - 15) + 10) by lra.
  now apply Rmult_le_pos.
Qed.

Lemma fade_mirror (s : R) : fade (1 - s) = 1 - fade s.
Proof. unfold fade. ring. Qed.

Lemma fade_range (s : R) : 0 <= s <= 1 -> 0 <= fade s <= 1.
Proof.
  intros [H0 H1]. split.
  - now apply fade_nonneg.
  - assert (H : 0 <= fade (1 - s)) by (apply fade_nonneg; lra).
    rewrite fade_mirror in H. lra.
Qed.

(** The faded weight never puts much mass on the far corner: the weighted
    squared offset along one axis is at most [s (1 - s)]. *)
Lemma fade_spread (s : R) :
  0 <= s <= 1 ->
  (1 - fade s) * (s * s) + fade s * ((s - 1) * (s - 1)) <= 1 / 4.
Proof.
  intros [H0 H1].
  assert (Hid : s * (1 - s)
                - ((1 - fade s) * (s * s) + fade s * ((s - 1) * (s - 1)))
                = (s * (1 - s)) * ((1 - 2 * s) * (1 - 2 * s)) * (1 + 3 * (s * (1 - s))))
    by (unfold fade; ring).
  assert (Hp : 0 <= s * (1 - s)) by (apply Rmult_le_pos; lra).
  square_nonneg (1 - 2 * s).
  assert (Hprod : 0 <= (s * (1 - s)) * ((1 - 2 * s) * (1 - 2 * s)) * (1 + 3 * (s * (1 - s)))).
  { apply Rmult_le_pos; [apply Rmult_le_pos; assumption | lra]. }
  lra.
Qed.

(** Convexity of the square along a [lerp]. *)
Lemma lerp_sqr (p q t : R) :
  0 <= t <= 1 ->
  lerp p q t * lerp p q t <= (1 - t) * (p * p) + t * (q * q).
Proof.
  intros [H0 H1].
  assert (Hid : (1 - t) * (p * p) + t * (q * q) - lerp p q t * lerp p q t
                = (t * (1 - t)) * ((p - q) * (p - q)))
    by (unfold lerp; ring).
  assert (Ht : 0 <= t * (1 - t)) by (apply Rmult_le_pos; lra).
  square_nonneg (p - q).
  assert (Hm : 0 <= (t * (1 - t)) * ((p - q) * (p - q))) by (now apply Rmult_le_pos).
  lra.
Qed.

(** ** perlin.js: gradients and the single octave *)

Lemma randomGradient_unit (ix iy s : R) :
  vx (randomGradient ix iy s) * vx (randomGradient ix iy s)
  + vy (randomGradient ix iy s) * vy (randomGradient ix iy s) = 1.
Proof.
  unfold randomGradient; simpl.
  pose proof (sin2_cos2 (pseudoRandom ix iy s * 2 * PI)) as H.
  unfold Rsqr in H. lra.
Qed.

(** Cauchy-Schwarz against a unit gradient. *)
Lemma dotGridGradient_sqr (ix iy x y s : R) :
  dotGridGradient ix iy x y s * dotGridGradient ix iy x y s
  <= (x - ix) * (x - ix) + (y - iy) * (y - iy).
Proof.
  unfold dotGridGradient.
  pose proof (randomGradient_unit ix iy s) as Hu.
  set (gx := vx (randomGradient ix iy s)) in *.
  set (gy := vy (randomGradient ix iy s)) in *.
  set (dx := x - ix). set (dy := y - iy).
  assert (Hid : (dx * dx + dy * dy) * (gx * gx + gy * gy)
                - (dx * gx + dy * gy) * (dx * gx + dy * gy)
                = (dx * gy - dy * gx) * (dx * gy - dy * gx)) by ring.
  square_nonneg (dx * gy - dy * gx).
  rewrite Hu in Hid. lra.
Qed.

Lemma dotGridGradient_origin (ix iy s : R) : dotGridGradient ix iy ix iy s = 0.
Proof. unfold dotGridGradient. simpl. ring. Qed.

Lemma rawPerlin_sqr (x y s : R) : rawPerlin x y s * rawPerlin x y s <= 1 / 2.
Proof.
  unfold rawPerlin.
  pose proof (Math_floor_offset x) as Hx.
  pose proof (Math_floor_offset y) as Hy.
  set (x0 := Math_floor x) in *. set (y0 := Math_floor y) in *.
  set (sx := x - x0) in *. set (sy := y - y0) in *.
  assert (Hu : 0 <= fade sx <= 1) by (apply fade_range; lra).
  assert (Hv : 0 <= fade sy <= 1) by (apply fade_range; lra).
  pose proof (fade_spread sx ltac:(lra)) as Fx.
  pose proof (fade_spread sy ltac:(lra)) as Fy.
  set (u := fade sx) in *. set (v := fade sy) in *.
  pose proof (dotGridGradient_sqr x0 y0 x y s) as D00.
  pose proof (dotGridGradient_sqr (x0 + 1) y0 x y s) as D10.
  pose proof (dotGridGradient_sqr x0 (y0 + 1) x y s) as D01.
  pose proof (dotGridGradient_sqr (x0 + 1) (y0 + 1) x y s) as D11.
  set (n00 := dotGridGradient x0 y0 x y s) in *.
  set (n10 := dotGridGradient (x0 + 1) y0 x y s) in *.
  set (n01 := dotGridGradient x0 (y0 + 1) x y s) in *.
  set (n11 := dotGridGradient (x0 + 1) (y0 + 1) x y s) in *.
  replace (x - x0) with sx in * by reflexivity.
  replace (y - y0) with sy in * by reflexivity.
  replace (x - (x0 + 1)) with (sx - 1) in * by (unfold sx; ring).
  replace (y - (y0 + 1)) with (sy - 1) in * by (unfold sy; ring).
  pose proof (lerp_sqr (lerp n00 n10 u) (lerp n01 n11 u) v Hv) as L.
  pose proof (lerp_sqr n00 n10 u Hu) as La.
  pose proof (lerp_sqr n01 n11 u Hu) as Lb.
  set (A := lerp n00 n10 u) in *. set (B := lerp n01 n11 u) in *.
  assert (HA : A * A <= (1 - u) * (sx * sx) + u * ((sx - 1) * (sx - 1)) + sy * sy).
  { assert (0 <= (1 - u) * (sx * sx + sy * sy - n00 * n00)) by (apply Rmult_le_pos; lra).
    assert (0 <= u * ((sx - 1) * (sx - 1) + sy * sy - n10 * n10)) by (apply Rmult_le_pos; lra).
    lra. }
  assert (HB : B * B <= (1 - u) * (sx * sx) + u * ((sx - 1) * (sx - 1))
                        + (sy - 1) * (sy - 1)).
  { assert (0 <= (1 - u) * (sx * sx + (sy - 1) * (sy - 1) - n01 * n01))
      by (apply Rmult_le_pos; lra).
    assert (0 <= u * ((sx - 1) * (sx - 1) + (sy - 1) * (sy - 1) - n11 * n11))
      by (apply Rmult_le_pos; lra).
    lra. }
  set (W := (1 - u) * (sx * sx) + u * ((sx - 1) * (sx - 1))) in *.
  assert (H1 : 0 <= (1 - v) * (W + sy * sy - A * A)) by (apply Rmult_le_pos; lra).
  assert (H2 : 0 <= v * (W + (sy - 1) * (sy - 1) - B * B)) by (apply Rmult_le_pos; lra).
  lra.
Qed.

Lemma rawPerlin_range (x y s : R) : -1 <= rawPerlin x y s <= 1.
Proof.
  pose proof (rawPerlin_sqr x y s).
  square_nonneg (rawPerlin x y s - 1). square_nonneg (rawPerlin x y s + 1).
  lra.
Qed.

(** C10.  At a lattice point the single octave vanishes: both offsets are
    zero, so are the faded weights, and the corner that the interpolation
    selects is the one whose displacement vector is zero. *)
Theorem rawPerlin_lattice_zero (ix iy : Z) (s : R) :
  let x := IZR ix in
  let y := IZR iy in
  x - Math_floor x = 0 /\ y - Math_floor y = 0 /\
  fade (x - Math_floor x) = 0 /\ fade (y - Math_floor y) = 0 /\
  dotGridGradient (Math_floor x) (Math_floor y) x y s = 0 /\
  rawPerlin x y s = 0.
Proof.
  intros x y. subst x y.
  unfold rawPerlin. rewrite !Math_floor_IZR.
  replace (IZR ix - IZR ix) with 0 by ring.
  replace (IZR iy - IZR iy) with 0 by ring.
  rewrite fade_0, dotGridGradient_origin.
  repeat split; try reflexivity.
  unfold lerp. ring.
Qed.

(** ** perlin.js: the octave loop *)

Lemma octaveInv_start : octaveInv octaveStart.
Proof. unfold octaveInv, octaveStart; simpl. lra. Qed.

Lemma octaveStep_inv (x y s : R) (st : Octave) :
  octaveInv st ->
  octaveInv (octaveStep x y s st) /\
  maxValue st + amplitude st = maxValue (octaveStep x y s st).
Proof.
  intros (Ha & Hm & Ht). unfold octaveInv, octaveStep; simpl.
  pose proof (rawPerlin_range (x * frequency st) (y * frequency st) s) as Hr.
  set (n := rawPerlin (x * frequency st) (y * frequency st) s) in *.
  assert (H1 : 0 <= (1 - n) * amplitude st) by (apply Rmult_le_pos; lra).
  assert (H2 : 0 <= (n + 1) * amplitude st) by (apply Rmult_le_pos; lra).
  repeat split; lra.
Qed.

Lemma octaveLoop_inv (n : nat) (x y s : R) :
  forall st, octaveInv st ->
  octaveInv (octaveLoop n x y s st) /\ maxValue st <= maxValue (octaveLoop n x y s st).
Proof.
  induction n as [|n IH]; intros st Hst; simpl.
  - split; [assumption | lra].
  - destruct (octaveStep_inv x y s st Hst) as [Hstep Hmax].
    destruct (IH _ Hstep) as [Hinv Hle].
    split; [assumption |].
    destruct Hst as (Ha & _). lra.
Qed.

Lemma octaveLoop_maxValue_pos (n : nat) (x y s : R) :
  (1 <= n)%nat -> 0 < maxValue (octaveLoop n x y s octaveStart).
Proof.
  destruct n as [|n]; [lia | intros _; cbn [octaveLoop]].
  destruct (octaveStep_inv x y s octaveStart octaveInv_start) as [Hstep Hmax].
  destruct (octaveLoop_inv n x y s _ Hstep) as [_ Hle].
  change (maxValue octaveStart) with 0 in Hmax.
  change (amplitude octaveStart) with 1 in Hmax.
  lra.
Qed.

Lemma fractalNoise_range (n : nat) (x y s : R) :
  (1 <= n)%nat -> -1 <= fractalNoise n x y s <= 1.
Proof.
  intros Hn. unfold fractalNoise.
  pose proof (octaveLoop_maxValue_pos n x y s Hn) as Hpos.
  destruct (octaveLoop_inv n x y s _ octaveInv_start) as [(_ & _ & Ht) _].
  set (st := octaveLoop n x y s octaveStart) in *.
  split.
  - apply Rmult_le_reg_r with (maxValue st); [assumption |].
    unfold Rdiv. rewrite Rmult_assoc, Rinv_l by lra. lra.
  - apply Rmult_le_reg_r with (maxValue st); [assumption |].
    unfold Rdiv. rewrite Rmult_assoc, Rinv_l by lra. lra.
Qed.

Lemma octaveCount_pos (cfg : Config) : (1 <= octaveCount cfg)%nat.
Proof. unfold octaveCount. destruct (octaves cfg); lia. Qed.

(** C1.  With at least one octave the normalised sum [total / maxValue]
    lies in [-1, 1] and its remap [(v + 1) / 2] in [0, 1], at every point
    and for every seed; so does [perlin], whose toggle selects 1 or 4
    octaves. *)
Theorem perlin_remap_range (cfg : Config) (n : nat) (x y s : R) :
  (1 <= n)%nat ->
  (-1 <= fractalNoise n x y s <= 1) /\
  (0 <= (fractalNoise n x y s + 1) / 2 <= 1) /\
  (octaveCount cfg = 1%nat \/ octaveCount cfg = 4%nat) /\
  (-1 <= perlin cfg x y s <= 1) /\
  (0 <= (perlin cfg x y s + 1) / 2 <= 1).
Proof.
  intros Hn.
  pose proof (fractalNoise_range n x y s Hn) as H1.
  pose proof (fractalNoise_range _ x y s (octaveCount_pos cfg)) as H2.
  unfold perlin.
  repeat split; try lra.
  unfold octaveCount. destruct (octaves cfg); auto.
Qed.

(** ** renderer.js: the colour mapper *)

Lemma hexToRgb_white : hexToRgb white = mkRGB 255 255 255.
Proof. reflexivity. Qed.

(** The loop entered at [i] runs on to the first index [k >= i] whose
    threshold admits the value, and returns there. *)
Lemma scanThresholds_stops (cfg : Config) (value : R) (k : nat) (t : ColorStop) :
  nth_error (thresholds cfg) k = Some t ->
  value <= threshold t ->
  forall fuel i,
    (i <= k < i + fuel)%nat ->
    (forall j tj, (i <= j < k)%nat -> nth_error (thresholds cfg) j = Some tj ->
                  threshold tj < value) ->
    scanThresholds cfg value i fuel = colorAt cfg value k t.
Proof.
  intros Hk Hle. induction fuel as [|fuel IH]; intros i Hi Hbelow.
  - lia.
  - cbn [scanThresholds].
    destruct (Nat.eq_dec i k) as [->|Hne].
    + rewrite Hk. destruct (Rle_dec value (threshold t)) as [_|Hn]; [|contradiction].
      reflexivity.
    + destruct (nth_error (thresholds cfg) i) as [ti|] eqn:Hti.
      * destruct (Rle_dec value (threshold ti)) as [Hv|_].
        -- pose proof (Hbelow i ti ltac:(lia) Hti). lra.
        -- apply IH; [lia |].
           intros j tj Hj. apply Hbelow. lia.
      * exfalso. apply nth_error_None in Hti.
        assert (Hlt : (k < List.length (thresholds cfg))%nat)
          by (apply nth_error_Some; rewrite Hk; discriminate).
        lia.
Qed.

(** With every threshold from [i] on below the value the loop falls
    through to the fallback. *)
Lemma scanThresholds_falls_through (cfg : Config) (value : R) :
  forall fuel i,
    (forall j tj, (i <= j)%nat -> nth_error (thresholds cfg) j = Some tj ->
                  threshold tj < value) ->
    scanThresholds cfg value i fuel = hexToRgb white.
Proof.
  induction fuel as [|fuel IH]; intros i Hbelow; cbn [scanThresholds].
  - reflexivity.
  - destruct (nth_error (thresholds cfg) i) as [ti|] eqn:Hti; [|reflexivity].
    destruct (Rle_dec value (threshold ti)) as [Hv|_].
    + pose proof (Hbelow i ti (Nat.le_refl i) Hti). lra.
    + apply IH. intros j tj Hj. apply Hbelow. lia.
Qed.

Lemma getColorForValue_firstMatch (cfg : Config) (value : R) (k : nat) (t : ColorStop) :
  firstMatch cfg value k t -> getColorForValue cfg value = colorAt cfg value k t.
Proof.
  intros (Hk & Hle & Hbelow). unfold getColorForValue.
  apply scanThresholds_stops; try assumption.
  - assert (Hlt : (k < List.length (thresholds cfg))%nat)
      by (apply nth_error_Some; rewrite Hk; discriminate).
    lia.
  - intros j tj Hj. apply Hbelow. lia.
Qed.

Lemma getColorForValue_no_match (cfg : Config) (value : R) :
  (forall j tj, nth_error (thresholds cfg) j = Some tj -> threshold tj < value) ->
  getColorForValue cfg value = mkRGB 255 255 255.
Proof.
  intros Hbelow. unfold getColorForValue.
  rewrite scanThresholds_falls_through; [apply hexToRgb_white |].
  intros j tj _. apply Hbelow.
Qed.

(** C3.  The scan returns the colour of the first stop whose threshold is
    not below the value: the stop's own colour when it is the first of the
    list or smoothing is off, the interpolation with the previous stop
    otherwise; with no such stop it returns white, as for the list
    [[{0.5, #ff0000}]] at 0.9. *)
Theorem getColorForValue_scan (cfg : Config) (value : R) :
  (forall k t, firstMatch cfg value k t ->
     (smoothing cfg = false \/ k = 0%nat ->
        getColorForValue cfg value = hexToRgb (color t)) /\
     (forall k' prev, smoothing cfg = true -> k = S k' ->
        nth_error (thresholds cfg) k' = Some prev ->
        getColorForValue cfg value =
          interpolateColors (color prev) (color t)
            ((value - threshold prev) / (threshold t - threshold prev)))) /\
  ((forall j tj, nth_error (thresholds cfg) j = Some tj -> threshold tj < value) ->
     getColorForValue cfg value = mkRGB 255 255 255) /\
  (thresholds cfg = [mkStop 0.5 "#ff0000"] ->
     getColorForValue cfg 0.9 = mkRGB 255 255 255).
Proof.
  split; [| split].
  - intros k t Hm. rewrite (getColorForValue_firstMatch cfg value k t Hm).
    unfold colorAt. split.
    + intros [Hs | ->].
      * now rewrite Hs.
      * now rewrite andb_false_r.
    + intros k' prev Hs -> Hprev. rewrite Hs. cbn [andb Nat.ltb Nat.leb].
      replace (S k' - 1)%nat with k' by lia. now rewrite Hprev.
  - apply getColorForValue_no_match.
  - intros Hst. apply getColorForValue_no_match. rewrite Hst.
    intros [|[|j]] tj Hj; cbn in Hj; try discriminate.
    injection Hj as <-. cbn. lra.
Qed.

(** *** Colours stay in the byte range *)

Lemma hexDigit_range (c : ascii) (d : Z) : hexDigit c = Some d -> (0 <= d <= 15)%Z.
Proof.
  unfold hexDigit.
  set (n := Z.of_nat (nat_of_ascii c)).
  destruct ((48 <=? n) && (n <=? 57))%Z eqn:E1.
  { intros [= <-]. apply andb_prop in E1 as [? ?]. lia. }
  destruct ((97 <=? n) && (n <=? 102))%Z eqn:E2.
  { intros [= <-]. apply andb_prop in E2 as [? ?]. lia. }
  destruct ((65 <=? n) && (n <=? 70))%Z eqn:E3.
  { intros [= <-]. apply andb_prop in E3 as [? ?]. lia. }
  discriminate.
Qed.

Lemma parseHexPair_range (hi lo : ascii) (v : Z) :
  parseHexPair hi lo = Some v -> 0 <= IZR v <= 255.
Proof.
  unfold parseHexPair.
  destruct (hexDigit hi) as [h|] eqn:Hh; [|discriminate].
  destruct (hexDigit lo) as [l|] eqn:Hl; [|discriminate].
  intros Hv.
  assert (Ev : v = (16 * h + l)%Z) by congruence.
  apply hexDigit_range in Hh, Hl.
  split; [apply (IZR_le 0) | apply (IZR_le _ 255)]; lia.
Qed.

Lemma black_inGamut : inGamut (mkRGB 0 0 0).
Proof. unfold inGamut; simpl. lra. Qed.

Lemma hexToRgb_inGamut (hex : string) : inGamut (hexToRgb hex).
Proof.
  unfold hexToRgb.
  destruct (stripHash hex) as [|r1 [|r2 [|g1 [|g2 [|b1 [|b2 [|? ?]]]]]]];
    try apply black_inGamut.
  destruct (parseHexPair r1 r2) as [vr|] eqn:Hr; [|apply black_inGamut].
  destruct (parseHexPair g1 g2) as [vg|] eqn:Hg; [|apply black_inGamut].
  destruct (parseHexPair b1 b2) as [vb|] eqn:Hb; [|apply black_inGamut].
  apply parseHexPair_range in Hr, Hg, Hb.
  unfold inGamut; simpl. tauto.
Qed.

Lemma lerp_between (p q t : R) :
  0 <= t <= 1 -> 0 <= p <= 255 -> 0 <= q <= 255 -> 0 <= lerp p q t <= 255.
Proof.
  intros Ht Hp Hq. unfold lerp.
  assert (H1 : 0 <= t * q) by (apply Rmult_le_pos; lra).
  assert (H2 : 0 <= (1 - t) * p) by (apply Rmult_le_pos; lra).
  assert (H3 : 0 <= t * (255 - q)) by (apply Rmult_le_pos; lra).
  assert (H4 : 0 <= (1 - t) * (255 - p)) by (apply Rmult_le_pos; lra).
  lra.
Qed.

Lemma Math_round_between (x : R) : 0 <= x <= 255 -> 0 <= Math_round x <= 255.
Proof.
  intros Hx. unfold Math_round.
  pose proof (Zfloor_bound (x + 0.5)) as Hb.
  assert (H0 : (0 <= Zfloor (x + 0.5))%Z) by (apply Zfloor_lub; lra).
  assert (H1 : (Zfloor (x + 0.5) < 256)%Z) by (apply lt_IZR; lra).
  split; [apply (IZR_le 0) | apply (IZR_le _ 255)]; lia.
Qed.

Lemma interpolateColors_inGamut (c1 c2 : string) (t : R) :
  0 <= t <= 1 -> inGamut (interpolateColors c1 c2 t).
Proof.
  intros Ht.
  destruct (hexToRgb_inGamut c1) as (Hr1 & Hg1 & Hb1).
  destruct (hexToRgb_inGamut c2) as (Hr2 & Hg2 & Hb2).
  unfold interpolateColors, inGamut; cbn [r g b].
  repeat split; apply Math_round_between; apply lerp_between; assumption.
Qed.

(** The ratio of the smoothing branch, for a value strictly above the
    previous threshold and not above the matched one. *)
Lemma ratio_range (value lo hi : R) :
  lo < value <= hi -> 0 < (value - lo) / (hi - lo) <= 1.
Proof.
  intros [H1 H2].
  assert (Hd : 0 < hi - lo) by lra.
  pose proof (Rinv_0_lt_compat _ Hd) as Hi.
  unfold Rdiv. split.
  - apply Rmult_lt_0_compat; lra.
  - replace 1 with ((hi - lo) * / (hi - lo)) by (apply Rinv_r; lra).
    apply Rmult_le_compat_r; lra.
Qed.

Lemma colorAt_inGamut (cfg : Config) (value : R) (k : nat) (t : ColorStop) :
  firstMatch cfg value k t -> inGamut (colorAt cfg value k t).
Proof.
  intros (Hk & Hle & Hbelow). unfold colorAt.
  destruct (smoothing cfg && (0 <? k)%nat) eqn:E; [|apply hexToRgb_inGamut].
  apply andb_prop in E as [_ Hpos]. apply Nat.ltb_lt in Hpos.
  destruct (nth_error (thresholds cfg) (k - 1)) as [prev|] eqn:Hp;
    [|apply hexToRgb_inGamut].
  apply interpolateColors_inGamut.
  pose proof (Hbelow (k - 1)%nat prev ltac:(lia) Hp) as Hlt.
  pose proof (ratio_range value (threshold prev) (threshold t) ltac:(lra)). lra.
Qed.

Lemma scanThresholds_inGamut (cfg : Config) (value : R) :
  forall fuel i,
    (forall j tj, (j < i)%nat -> nth_error (thresholds cfg) j = Some tj ->
                  threshold tj < value) ->
    inGamut (scanThresholds cfg value i fuel).
Proof.
  induction fuel as [|fuel IH]; intros i Hbelow; cbn [scanThresholds].
  - apply hexToRgb_inGamut.
  - destruct (nth_error (thresholds cfg) i) as [ti|] eqn:Hti; [|apply hexToRgb_inGamut].
    destruct (Rle_dec value (threshold ti)) as [Hv|Hv].
    + apply (colorAt_inGamut cfg value i ti). repeat split; assumption.
    + apply IH. intros j tj Hj Htj.
      destruct (Nat.eq_dec j i) as [->|Hne].
      * rewrite Hti in Htj. injection Htj as <-. lra.
      * apply (Hbelow j); [lia | assumption].
Qed.

(** C4.  The division of the smoothing branch is never a division by
    zero.  When the scan stops at a stop that has a predecessor, the value
    lies strictly above the predecessor's threshold, so the divisor is
    positive and the ratio lies in (0, 1]; a stop whose threshold equals
    its predecessor's is never the one the scan stops at; and every colour
    returned has its three channels in 0..255. *)
Theorem smoothing_division_defined (cfg : Config) (value : R) :
  (forall k prev t,
     nth_error (thresholds cfg) k = Some prev ->
     firstMatch cfg value (S k) t ->
     threshold prev < value <= threshold t /\
     threshold t - threshold prev <> 0 /\
     0 < (value - threshold prev) / (threshold t - threshold prev) <= 1) /\
  (forall k prev t,
     nth_error (thresholds cfg) k = Some prev ->
     nth_error (thresholds cfg) (S k) = Some t ->
     threshold prev = threshold t ->
     ~ firstMatch cfg value (S k) t) /\
  inGamut (getColorForValue cfg value).
Proof.
  split; [| split].
  - intros k prev t Hp (Hk & Hle & Hbelow).
    pose proof (Hbelow k prev (Nat.lt_succ_diag_r k) Hp) as Hlt.
    repeat split; try lra.
    + apply ratio_range; lra.
    + apply ratio_range; lra.
  - intros k prev t Hp Ht Heq (_ & Hle & Hbelow).
    pose proof (Hbelow k prev (Nat.lt_succ_diag_r k) Hp). lra.
  - unfold getColorForValue. apply scanThresholds_inGamut.
    intros j tj Hj. lia.
Qed.

(** *** The midpoint of the black-to-white ramp *)

Lemma ramp_midpoint_interpolates (cfg : Config) :
  thresholds cfg = [mkStop 0.0 "#000000"; mkStop 1.0 "#ffffff"] ->
  smoothing cfg = true ->
  getColorForValue cfg 0.5 =
    interpolateColors "#000000" "#ffffff" ((0.5 - 0.0) / (1.0 - 0.0)).
Proof.
  intros Hst Hs.
  rewrite (getColorForValue_firstMatch cfg 0.5 1 (mkStop 1.0 "#ffffff")).
  - unfold colorAt. rewrite Hs, Hst. reflexivity.
  - unfold firstMatch. rewrite Hst. repeat split.
    + cbn. lra.
    + intros [|j] tj Hj Htj; [|lia]. cbn in Htj. injection Htj as <-. cbn. lra.
Qed.

Lemma interpolate_black_white_half :
  interpolateColors "#000000" "#ffffff" ((0.5 - 0.0) / (1.0 - 0.0))
  = mkRGB 128 128 128.
Proof.
  unfold interpolateColors.
  change (hexToRgb "#000000") with (mkRGB 0 0 0).
  change (hexToRgb "#ffffff") with (mkRGB 255 255 255).
  cbn [r g b].
  replace (lerp 0 255 ((0.5 - 0.0) / (1.0 - 0.0))) with (IZR 127 + 0.5)
    by (unfold lerp; lra).
  rewrite Math_round_half.
  f_equal; lra.
Qed.

(** C5 (as the code has it).  On the ramp [[{0.0, #000000}, {1.0, #ffffff}]]
    with smoothing on, the value 0.5 interpolates to 127.5 on each channel,
    which [Math.round] takes up to 128. *)
Theorem ramp_midpoint_rounds_up (cfg : Config) :
  thresholds cfg = [mkStop 0.0 "#000000"; mkStop 1.0 "#ffffff"] ->
  smoothing cfg = true ->
  getColorForValue cfg 0.5 = mkRGB 128 128 128.
Proof.
  intros Hst Hs.
  rewrite (ramp_midpoint_interpolates cfg Hst Hs).
  apply interpolate_black_white_half.
Qed.

(** C5 (as stated) fails: the midpoint colour is not {127, 127, 127}. *)
Lemma ramp_midpoint_not_127 :
  smoothing rampConfig = true /\
  thresholds rampConfig = [mkStop 0.0 "#000000"; mkStop 1.0 "#ffffff"] /\
  getColorForValue rampConfig 0.5 <> mkRGB 127 127 127.
Proof.
  split; [reflexivity | split; [reflexivity |]].
  rewrite (ramp_midpoint_interpolates rampConfig eq_refl eq_refl).
  rewrite interpolate_black_white_half.
  intros H. injection H as H _ _. lra.
Qed.

(** ** renderer.js: the masks *)

Lemma clamp01_range (v : R) : 0 <= clamp01 v <= 1.
Proof.
  unfold clamp01, Rmax, Rmin.
  destruct (Rle_dec 1 v); destruct (Rle_dec 0 _); lra.
Qed.

Lemma clamp01_nonpos (v : R) : v <= 0 -> clamp01 v = 0.
Proof.
  intros Hv. unfold clamp01, Rmax, Rmin.
  destruct (Rle_dec 1 v); destruct (Rle_dec 0 _); lra.
Qed.

Lemma clamp01_mono (v w : R) : v <= w -> clamp01 v <= clamp01 w.
Proof.
  intros Hvw. unfold clamp01, Rmax, Rmin.
  destruct (Rle_dec 1 v); destruct (Rle_dec 1 w);
    repeat match goal with |- context [Rle_dec ?p ?q] => destruct (Rle_dec p q) end;
    lra.
Qed.

Lemma applyMask_disabled (cfg : Config) (x y value : R) :
  mask cfg = false -> applyMask cfg x y value = value.
Proof. intros H. unfold applyMask. now rewrite H. Qed.

Lemma applyMask_circle (cfg : Config) (x y value : R) :
  mask cfg = true -> maskShape cfg = "circle"%string ->
  applyMask cfg x y value = shaped value (circleGrad cfg x y) (maskContrast cfg).
Proof. intros Hm Hs. unfold applyMask, shaped. rewrite Hm, Hs. reflexivity. Qed.

Lemma applyMask_square (cfg : Config) (x y value : R) :
  mask cfg = true -> maskShape cfg = "square"%string ->
  applyMask cfg x y value
  = shaped value (squareGrad cfg x y) (maskContrast cfg * 0.75).
Proof. intros Hm Hs. unfold applyMask, shaped. rewrite Hm, Hs. reflexivity. Qed.

Lemma applyMask_hexagon (cfg : Config) (x y value : R) :
  mask cfg = true -> maskShape cfg = "hexagon"%string ->
  applyMask cfg x y value
  = shaped value (hexGrad cfg x y) (maskContrast cfg * 0.75).
Proof. intros Hm Hs. unfold applyMask, shaped. rewrite Hm, Hs. reflexivity. Qed.

Lemma shaped_boosted (value grad k : R) :
  0 < grad -> 0 < value * grad -> shaped value grad k = clamp01 (value * grad * k).
Proof.
  intros Hg Hp. unfold shaped.
  destruct (Rlt_dec 0 grad); [|contradiction].
  destruct (Rlt_dec 0 (value * grad)); [reflexivity | contradiction].
Qed.

Lemma shaped_outside (value grad k : R) : grad <= 0 -> shaped value grad k = 0.
Proof.
  intros Hg. unfold shaped. destruct (Rlt_dec 0 grad); [lra | reflexivity].
Qed.

Lemma shaped_nonneg (value grad k : R) : 0 <= shaped value grad k.
Proof.
  unfold shaped. destruct (Rlt_dec 0 grad); [apply clamp01_range | lra].
Qed.

(** A value that is not positive, or a contrast that is negative, leaves
    nothing after the clamp. *)
Lemma shaped_dark (value grad k : R) :
  value <= 0 \/ k <= 0 -> shaped value grad k = 0.
Proof.
  intros Hd. unfold shaped.
  destruct (Rlt_dec 0 grad) as [Hg|]; [|reflexivity].
  apply clamp01_nonpos.
  destruct (Rlt_dec 0 (value * grad)) as [Hp|Hp]; [|lra].
  destruct Hd as [Hv|Hk].
  - assert (0 <= (- value) * grad) by (apply Rmult_le_pos; lra). lra.
  - assert (0 <= (value * grad) * (- k)) by (apply Rmult_le_pos; lra). lra.
Qed.

(** The masked value grows with the gradient. *)
Lemma shaped_mono (value g1 g2 k : R) :
  g2 <= g1 -> shaped value g2 k <= shaped value g1 k.
Proof.
  intros Hg.
  destruct (Rle_dec value 0) as [Hv|Hv].
  { rewrite !shaped_dark by (left; assumption). lra. }
  destruct (Rle_dec k 0) as [Hk|Hk].
  { rewrite !shaped_dark by (right; assumption). lra. }
  destruct (Rle_dec g2 0) as [H2|H2].
  { rewrite (shaped_outside value g2) by assumption. apply shaped_nonneg. }
  assert (P2 : 0 < value * g2) by (apply Rmult_lt_0_compat; lra).
  assert (P1 : 0 < value * g1) by (apply Rmult_lt_0_compat; lra).
  rewrite !shaped_boosted by lra.
  apply clamp01_mono.
  assert (0 <= (value * k) * (g1 - g2)).
  { apply Rmult_le_pos; [|lra]. apply Rmult_le_pos; lra. }
  lra.
Qed.

Lemma maxGrad_pos (cfg : Config) :
  (0 < width cfg)%Z -> (0 < height cfg)%Z -> 0 < maxGrad cfg.
Proof.
  intros Hw Hh. unfold maxGrad. apply sqrt_lt_R0.
  apply IZR_lt in Hw, Hh.
  assert (0 < IZR (width cfg) / 2) by lra.
  assert (0 < IZR (height cfg) / 2) by lra.
  assert (0 < IZR (width cfg) / 2 * (IZR (width cfg) / 2)) by (now apply Rmult_lt_0_compat).
  assert (0 < IZR (height cfg) / 2 * (IZR (height cfg) / 2)) by (now apply Rmult_lt_0_compat).
  lra.
Qed.

(** The circle gradient falls as the distance grows, and is at most -1
    from the largest distance on. *)
Lemma circleGrad_antitone (cfg : Config) (x1 y1 x2 y2 : R) :
  0 < maxGrad cfg ->
  circleDist cfg x1 y1 <= circleDist cfg x2 y2 ->
  circleGrad cfg x2 y2 <= circleGrad cfg x1 y1.
Proof.
  intros Hm Hd. unfold circleGrad.
  assert (circleDist cfg x1 y1 / maxGrad cfg <= circleDist cfg x2 y2 / maxGrad cfg).
  { unfold Rdiv. apply Rmult_le_compat_r; [|assumption].
    left. now apply Rinv_0_lt_compat. }
  lra.
Qed.

Lemma circleGrad_far (cfg : Config) (x y : R) :
  0 < maxGrad cfg ->
  maxGrad cfg <= circleDist cfg x y ->
  circleGrad cfg x y <= -1.
Proof.
  intros Hm Hd. unfold circleGrad.
  assert (1 <= circleDist cfg x y / maxGrad cfg).
  { replace 1 with (maxGrad cfg / maxGrad cfg) by (unfold Rdiv; apply Rinv_r; lra).
    unfold Rdiv. apply Rmult_le_compat_r; [|assumption].
    left. now apply Rinv_0_lt_compat. }
  lra.
Qed.

(** C6.  Under the circle mask, with the value and the contrast fixed, a
    pixel farther from the centre never gets a larger result, and a pixel
    at the largest distance [maxGrad] or beyond gets 0 whatever the noise
    value is.  (The value need not lie in [0, 1] for either part.) *)
Theorem circle_mask_monotone (cfg : Config) (value x1 y1 x2 y2 : R) :
  mask cfg = true -> maskShape cfg = "circle"%string ->
  (0 < width cfg)%Z -> (0 < height cfg)%Z ->
  (circleDist cfg x1 y1 <= circleDist cfg x2 y2 ->
   applyMask cfg x2 y2 value <= applyMask cfg x1 y1 value) /\
  (maxGrad cfg <= circleDist cfg x1 y1 -> applyMask cfg x1 y1 value = 0).
Proof.
  intros Hm Hs Hw Hh.
  pose proof (maxGrad_pos cfg Hw Hh) as Hpos.
  rewrite !(applyMask_circle cfg _ _ value Hm Hs).
  split; intros Hd.
  - apply shaped_mono. now apply circleGrad_antitone.
  - apply shaped_outside.
    pose proof (circleGrad_far cfg x1 y1 Hpos Hd). lra.
Qed.

Lemma squareGrad_nonneg (cfg : Config) (x y : R) : 0 <= squareGrad cfg x y.
Proof. unfold squareGrad. apply Rmax_l. Qed.

Lemma hexGrad_nonneg (cfg : Config) (x y : R) : 0 <= hexGrad cfg x y.
Proof. unfold hexGrad. apply Rmax_l. Qed.

Lemma positive_product_factor (value grad : R) :
  0 <= grad -> 0 < value * grad -> 0 < grad.
Proof.
  intros Hg Hp. destruct Hg as [Hg | <-]; [assumption |].
  rewrite Rmult_0_r in Hp. lra.
Qed.

(** C7.  Disabled, the mask is the identity.  Enabled on an image of
    positive size, inside the shape and with a positive product of value
    and gradient, the circle multiplies the product by the contrast and the
    square and the hexagon by 0.75 times the contrast, before the clamp to
    [0, 1]. *)
Theorem applyMask_contrast (cfg : Config) (x y value : R) :
  (mask cfg = false -> applyMask cfg x y value = value) /\
  (mask cfg = true -> (0 < width cfg)%Z -> (0 < height cfg)%Z ->
   (maskShape cfg = "circle"%string ->
    0 < circleGrad cfg x y -> 0 < value * circleGrad cfg x y ->
    applyMask cfg x y value
    = clamp01 (value * circleGrad cfg x y * maskContrast cfg)) /\
   (maskShape cfg = "square"%string ->
    0 < value * squareGrad cfg x y ->
    applyMask cfg x y value
    = clamp01 (value * squareGrad cfg x y * (maskContrast cfg * 0.75))) /\
   (maskShape cfg = "hexagon"%string ->
    0 < value * hexGrad cfg x y ->
    applyMask cfg x y value
    = clamp01 (value * hexGrad cfg x y * (maskContrast cfg * 0.75)))).
Proof.
  split; [apply applyMask_disabled |].
  intros Hm _ _. repeat split.
  - intros Hs Hg Hp. rewrite (applyMask_circle cfg x y value Hm Hs).
    now apply shaped_boosted.
  - intros Hs Hp. rewrite (applyMask_square cfg x y value Hm Hs).
    apply shaped_boosted; [|assumption].
    apply (positive_product_factor value); [apply squareGrad_nonneg | assumption].
  - intros Hs Hp. rewrite (applyMask_hexagon cfg x y value Hm Hs).
    apply shaped_boosted; [|assumption].
    apply (positive_product_factor value); [apply hexGrad_nonneg | assumption].
Qed.

(** ** renderer.js and exports.js: the pixel loop *)

Lemma loopRange_length (n : Z) : List.length (loopRange n) = Z.to_nat n.
Proof. unfold loopRange. now rewrite length_map, length_seq. Qed.

Lemma loopRange_of_length (n : Z) : loopRange (Z.of_nat (Z.to_nat n)) = loopRange n.
Proof. unfold loopRange. now rewrite Nat2Z.id. Qed.

Lemma flat_map_combine_map {A B C : Type} (f : A * B -> list C) (h : A -> B) :
  forall l, flat_map f (combine l (map h l)) = flat_map (fun a => f (a, h a)) l.
Proof.
  induction l as [|a l IH]; [reflexivity |].
  cbn [map combine flat_map]. now rewrite IH.
Qed.

Lemma flat_map_pointwise {A C : Type} (f f' : A -> list C) :
  (forall a, f a = f' a) -> forall l, flat_map f l = flat_map f' l.
Proof.
  intros Hf. induction l as [|a l IH]; [reflexivity |].
  cbn [flat_map]. now rewrite Hf, IH.
Qed.

Lemma paintRow_exportMap (cfg : Config) (y : Z) :
  paintRow cfg y (map (fun x => mapValue cfg x y) (loopRange (width cfg)))
  = flat_map (fun x => drawPixel cfg x y) (loopRange (width cfg)).
Proof.
  unfold paintRow.
  rewrite length_map, loopRange_length, loopRange_of_length.
  rewrite flat_map_combine_map. reflexivity.
Qed.

(** C8.  The value [exportMap] writes for a pixel is the noise sample at
    [(x / scale, y / scale + time)], remapped and masked; it is the value
    [draw] has for that pixel before it selects a colour; and on an image
    of positive size, colouring and shading the exported grid pixel by
    pixel gives the image [draw] produces. *)
Theorem exportMap_matches_draw (cfg : Config) :
  (forall x y,
     mapValue cfg x y
     = applyMask cfg (IZR x) (IZR y)
         ((perlin cfg (IZR x / scale cfg) (IZR y / scale cfg + time cfg) (seed cfg) + 1) / 2)) /\
  (forall x y, mapValue cfg x y = drawValue cfg x y) /\
  (forall x y, drawPixel cfg x y = storePixel (drawColor cfg x y (mapValue cfg x y))) /\
  exportMap cfg
  = map (fun y => map (fun x => drawValue cfg x y) (loopRange (width cfg)))
        (loopRange (height cfg)) /\
  ((0 < width cfg)%Z -> (0 < height cfg)%Z ->
   draw cfg = Rendered (paintGrid cfg (exportMap cfg))).
Proof.
  repeat split. intros _ _.
  unfold draw, paintGrid, exportMap. f_equal.
  rewrite length_map, loopRange_length, loopRange_of_length.
  rewrite flat_map_combine_map.
  apply flat_map_pointwise. intros y. cbn [fst snd].
  symmetry. apply paintRow_exportMap.
Qed.

(** C2 (what the code does).  With shading on, [draw] adds 100 times the
    difference between the masked value and [shadeSample] to each channel
    and clamps to [0, 255]; the sample is a remapped, unmasked noise value,
    but it is taken at [(x / scale + 0.01, y / scale + 0.01)] whatever the
    time offset is, so it is the sample next to the main one only at time
    offset 0.  At time offset 1 the pixel (0, 0) of the default image is
    shaded against the noise at (0.01, 0.01), not at (0.01, 1.01). *)
Theorem shading_sample_ignores_time (cfg : Config) (x y : Z) (value t : R) (rgb : RGB) :
  applyShading (setShading cfg true) x y value rgb
  = mkRGB (Rmin 255 (Rmax 0 (r rgb + (value - shadeSample cfg x y) * 100)))
          (Rmin 255 (Rmax 0 (g rgb + (value - shadeSample cfg x y) * 100)))
          (Rmin 255 (Rmax 0 (b rgb + (value - shadeSample cfg x y) * 100))) /\
  shadeSample (setTime cfg t) x y = shadeSample cfg x y /\
  nearbySample (setTime cfg t) x y
  = (perlin cfg (IZR x / scale cfg + 0.01) (IZR y / scale cfg + t + 0.01) (seed cfg) + 1) / 2 /\
  shadeSample (setTime cfg 0) x y = nearbySample (setTime cfg 0) x y /\
  shadeSample (setTime defaultConfig 1) 0 0 = (perlin defaultConfig 0.01 0.01 0 + 1) / 2 /\
  nearbySample (setTime defaultConfig 1) 0 0 = (perlin defaultConfig 0.01 1.01 0 + 1) / 2.
Proof.
  split; [reflexivity |].
  split; [reflexivity |].
  split; [reflexivity |].
  split; [| split].
  - unfold shadeSample, nearbySample. cbn [scale seed time setTime].
    replace (IZR y / scale cfg + 0 + 0.01) with (IZR y / scale cfg + 0.01) by ring.
    reflexivity.
  - unfold shadeSample. cbn [scale seed time setTime defaultConfig].
    replace (0 / 50 + 0.01) with 0.01 by lra. reflexivity.
  - unfold nearbySample. cbn [scale seed time setTime defaultConfig].
    replace (0 / 50 + 0.01) with 0.01 by lra.
    replace (0 / 50 + 1 + 0.01) with 1.01 by lra. reflexivity.
Qed.

(** ** renderer.js: configurations a caller should not pass *)

Lemma toUint8Clamp_255 : toUint8Clamp 255 = 255%Z.
Proof.
  unfold toUint8Clamp.
  destruct (Rle_dec 255 0); [lra |].
  destruct (Rle_dec 255 255); [reflexivity | lra].
Qed.

Lemma storePixel_white : storePixel (mkRGB 255 255 255) = [255; 255; 255; 255]%Z.
Proof. unfold storePixel; cbn [r g b]. now rewrite toUint8Clamp_255. Qed.

Lemma drawPixel_no_stops (cfg : Config) (x y : Z) :
  thresholds cfg = [] -> grayscale cfg = false -> shading cfg = false ->
  drawPixel cfg x y = [255; 255; 255; 255]%Z.
Proof.
  intros Ht Hg Hs.
  unfold drawPixel, drawColor, applyShading, baseColor. rewrite Hs, Hg.
  unfold getColorForValue. rewrite Ht. cbn [List.length scanThresholds].
  rewrite hexToRgb_white. apply storePixel_white.
Qed.

Lemma drawPixel_length (cfg : Config) (x y : Z) : List.length (drawPixel cfg x y) = 4%nat.
Proof. reflexivity. Qed.

Lemma flat_map_constant_length {A C : Type} (f : A -> list C) (n : nat) :
  (forall a, List.length (f a) = n) ->
  forall l, List.length (flat_map f l) = (List.length l * n)%nat.
Proof.
  intros Hf. induction l as [|a l IH]; [reflexivity |].
  cbn [flat_map List.length]. rewrite length_app, Hf, IH. lia.
Qed.

Lemma flat_map_constant {A C : Type} (f : A -> list C) (c : list C) :
  (forall a, f a = c) ->
  forall l, flat_map f l = List.concat (repeat c (List.length l)).
Proof.
  intros Hf. induction l as [|a l IH]; [reflexivity |].
  cbn [flat_map List.length repeat List.concat]. now rewrite Hf, IH.
Qed.

Lemma concat_repeat_concat {C : Type} (c : list C) (m n : nat) :
  List.concat (repeat (List.concat (repeat c m)) n) = List.concat (repeat c (n * m)).
Proof.
  induction n as [|n IH]; [reflexivity |].
  cbn [repeat List.concat Nat.mul]. rewrite IH, repeat_app, concat_app. reflexivity.
Qed.

(** C9 (as stated) fails: given an empty list of colour stops, [draw] does
    not reject but paints its one pixel opaque white. *)
Lemma draw_accepts_no_stops :
  invalidConfig noStopsConfig /\
  draw noStopsConfig = Rendered [255; 255; 255; 255]%Z /\
  (forall reason, draw noStopsConfig <> Rejected reason).
Proof.
  split; [right; left; reflexivity |].
  assert (E : draw noStopsConfig = Rendered [255; 255; 255; 255]%Z).
  { unfold draw. f_equal.
    change (loopRange (width noStopsConfig)) with [0%Z].
    change (loopRange (height noStopsConfig)) with [0%Z].
    cbn [flat_map]. rewrite !app_nil_r.
    now apply drawPixel_no_stops. }
  split; [exact E |].
  intros reason H. rewrite E in H. discriminate.
Qed.

(** C9 (as the code has it).  On an image of positive size [draw] checks
    nothing and always completes, with four bytes for each of its
    [width * height] pixels; when the list of colour stops is empty (colour
    mode, no shading) every pixel is opaque white. *)
Theorem draw_never_rejects (cfg : Config) :
  (0 < width cfg)%Z -> (0 < height cfg)%Z ->
  (exists data,
     draw cfg = Rendered data /\
     List.length data = (Z.to_nat (height cfg) * (Z.to_nat (width cfg) * 4))%nat) /\
  (thresholds cfg = [] -> grayscale cfg = false -> shading cfg = false ->
   draw cfg
   = Rendered (List.concat (repeat [255; 255; 255; 255]%Z
                              (Z.to_nat (height cfg) * Z.to_nat (width cfg))))).
Proof.
  intros _ _. split.
  - eexists. split; [reflexivity |].
    rewrite (flat_map_constant_length _ (Z.to_nat (width cfg) * 4)).
    + now rewrite loopRange_length.
    + intros y. rewrite (flat_map_constant_length _ 4%nat).
      * now rewrite loopRange_length.
      * intros x. apply drawPixel_length.
  - intros Ht Hg Hs. unfold draw. f_equal.
    rewrite (flat_map_constant _
               (List.concat (repeat [255; 255; 255; 255]%Z (Z.to_nat (width cfg))))).
    + rewrite loopRange_length. apply concat_repeat_concat.
    + intros y. rewrite (flat_map_constant _ [255; 255; 255; 255]%Z).
      * now rewrite loopRange_length.
      * intros x. now apply drawPixel_no_stops.
Qed.

(** * The statements at concrete inputs *)

Lemma perlin_remap_range_witness :
  (1 <= 4)%nat /\
  0 <= (fractalNoise 4 0.5 0.25 0 + 1) / 2 <= 1 /\
  0 <= (perlin defaultConfig 0.5 0.25 0 + 1) / 2 <= 1.
Proof.
  assert (H : (1 <= 4)%nat) by lia.
  split; [exact H |].
  destruct (perlin_remap_range defaultConfig 4 0.5 0.25 0 H) as (_ & H1 & _ & _ & H2).
  split; assumption.
Defined.

Lemma ramp_firstMatch : firstMatch rampConfig 0.5 1 (mkStop 1.0 "#ffffff").
Proof.
  unfold firstMatch. repeat split.
  - cbn. lra.
  - intros [|j] tj Hj Htj; [|lia]. cbn in Htj. injection Htj as <-. cbn. lra.
Qed.

Lemma red_stop_below : 
  forall j tj, nth_error (thresholds redConfig) j = Some tj -> threshold tj < 0.9.
Proof.
  intros [|[|j]] tj Hj; cbn in Hj; try discriminate.
  injection Hj as <-. cbn. lra.
Qed.

Lemma getColorForValue_scan_witness :
  firstMatch rampConfig 0.5 1 (mkStop 1.0 "#ffffff") /\
  getColorForValue rampConfig 0.5
  = interpolateColors "#000000" "#ffffff" ((0.5 - 0.0) / (1.0 - 0.0)) /\
  (forall j tj, nth_error (thresholds redConfig) j = Some tj -> threshold tj < 0.9) /\
  getColorForValue redConfig 0.9 = mkRGB 255 255 255.
Proof.
  split; [exact ramp_firstMatch |].
  split.
  - destruct (getColorForValue_scan rampConfig 0.5) as (Hscan & _ & _).
    destruct (Hscan 1%nat (mkStop 1.0 "#ffffff") ramp_firstMatch) as (_ & Hsmooth).
    exact (Hsmooth 0%nat (mkStop 0.0 "#000000") eq_refl eq_refl eq_refl).
  - split; [exact red_stop_below |].
    destruct (getColorForValue_scan redConfig 0.9) as (_ & Hfall & Hred).
    exact (Hred eq_refl).
Defined.

Lemma twin_first_stop_matches : firstMatch twinConfig 0.5 0 (mkStop 0.5 "#ff0000").
Proof.
  unfold firstMatch. repeat split.
  - cbn. lra.
  - intros j tj Hj. lia.
Qed.

Lemma smoothing_division_defined_witness :
  firstMatch rampConfig 0.5 1 (mkStop 1.0 "#ffffff") /\
  1.0 - 0.0 <> 0 /\
  0 < (0.5 - 0.0) / (1.0 - 0.0) <= 1 /\
  ~ firstMatch twinConfig 0.5 1 (mkStop 0.5 "#00ff00") /\
  inGamut (getColorForValue twinConfig 0.5).
Proof.
  split; [exact ramp_firstMatch |].
  destruct (smoothing_division_defined rampConfig 0.5) as (Hdiv & _ & _).
  destruct (Hdiv 0%nat (mkStop 0.0 "#000000") (mkStop 1.0 "#ffffff")
              eq_refl ramp_firstMatch) as (_ & Hne & Hratio).
  destruct (smoothing_division_defined twinConfig 0.5) as (_ & Htwin & Hgamut).
  split; [exact Hne |].
  split; [exact Hratio |].
  split; [| exact Hgamut].
  exact (Htwin 0%nat (mkStop 0.5 "#ff0000") (mkStop 0.5 "#00ff00")
               eq_refl eq_refl eq_refl).
Defined.

Lemma ramp_midpoint_rounds_up_witness :
  thresholds rampConfig = [mkStop 0.0 "#000000"; mkStop 1.0 "#ffffff"] /\
  smoothing rampConfig = true /\
  getColorForValue rampConfig 0.5 = mkRGB 128 128 128.
Proof.
  split; [reflexivity | split; [reflexivity |]].
  exact (ramp_midpoint_rounds_up rampConfig eq_refl eq_refl).
Defined.

Lemma twin_returns_first_stop : getColorForValue twinConfig 0.5 = mkRGB 255 0 0.
Proof.
  rewrite (getColorForValue_firstMatch _ _ _ _ twin_first_stop_matches).
  reflexivity.
Qed.

(** The centre of the default 400 x 400 image, and its corner. *)
Lemma centre_offset : Rabs (200 - 400 / 2) = 0.
Proof. replace (200 - 400 / 2) with 0 by lra. apply Rabs_R0. Qed.

Lemma corner_offset : Rabs (0 - 400 / 2) = 400 / 2.
Proof.
  replace (0 - 400 / 2) with (- (400 / 2)) by lra.
  rewrite Rabs_Ropp. apply Rabs_pos_eq. lra.
Qed.

Lemma circleDist_centre : circleDist defaultConfig 200 200 = 0.
Proof.
  unfold circleDist. cbn [width height defaultConfig].
  rewrite centre_offset, Rmult_0_l, Rplus_0_l. apply sqrt_0.
Qed.

Lemma circleDist_nonneg (cfg : Config) (x y : R) : 0 <= circleDist cfg x y.
Proof. unfold circleDist. apply sqrt_pos. Qed.

Lemma circleDist_corner : circleDist defaultConfig 0 0 = maxGrad defaultConfig.
Proof.
  unfold circleDist, maxGrad. cbn [width height defaultConfig].
  now rewrite corner_offset.
Qed.

Lemma circleGrad_centre : circleGrad defaultConfig 200 200 = 1.
Proof.
  unfold circleGrad. rewrite circleDist_centre.
  unfold Rdiv at 1. rewrite Rmult_0_l. lra.
Qed.

Lemma squareGrad_centre : squareGrad squareConfig 200 200 = 1.
Proof.
  unfold squareGrad. cbn [width height squareConfig setMaskShape defaultConfig].
  rewrite centre_offset.
  replace (0 / (400 / 2)) with 0 by lra.
  rewrite (Rmax_left 0 0) by lra.
  rewrite Rmax_right; lra.
Qed.

Lemma hexGrad_centre : hexGrad hexagonConfig 200 200 = 1.
Proof.
  unfold hexGrad. cbn [width height hexagonConfig setMaskShape defaultConfig].
  rewrite centre_offset.
  replace (0 / (400 / 2)) with 0 by lra.
  rewrite Rabs_R0.
  replace (0 * 0.866 + 0 * 0.5) with 0 by lra.
  rewrite (Rmax_left 0 0) by lra.
  rewrite Rmax_right; lra.
Qed.

Lemma circle_mask_monotone_witness :
  mask defaultConfig = true /\ maskShape defaultConfig = "circle"%string /\
  (0 < width defaultConfig)%Z /\ (0 < height defaultConfig)%Z /\
  circleDist defaultConfig 200 200 <= circleDist defaultConfig 200 300 /\
  applyMask defaultConfig 200 300 0.5 <= applyMask defaultConfig 200 200 0.5 /\
  maxGrad defaultConfig <= circleDist defaultConfig 0 0 /\
  applyMask defaultConfig 0 0 0.5 = 0.
Proof.
  assert (Hw : (0 < width defaultConfig)%Z) by reflexivity.
  assert (Hh : (0 < height defaultConfig)%Z) by reflexivity.
  assert (Hd : circleDist defaultConfig 200 200 <= circleDist defaultConfig 200 300).
  { rewrite circleDist_centre. apply circleDist_nonneg. }
  assert (Hc : maxGrad defaultConfig <= circleDist defaultConfig 0 0).
  { rewrite circleDist_corner. apply Rle_refl. }
  destruct (circle_mask_monotone defaultConfig 0.5 200 200 200 300
              eq_refl eq_refl Hw Hh) as (Hmono & _).
  destruct (circle_mask_monotone defaultConfig 0.5 0 0 0 0
              eq_refl eq_refl Hw Hh) as (_ & Hfar).
  repeat split; try assumption; try reflexivity.
  - exact (Hmono Hd).
  - exact (Hfar Hc).
Defined.

Lemma applyMask_contrast_witness :
  applyMask noStopsConfig 200 200 0.5 = 0.5 /\
  0 < 0.5 * circleGrad defaultConfig 200 200 /\
  applyMask defaultConfig 200 200 0.5
  = clamp01 (0.5 * circleGrad defaultConfig 200 200 * 4.0) /\
  0 < 0.5 * squareGrad squareConfig 200 200 /\
  applyMask squareConfig 200 200 0.5
  = clamp01 (0.5 * squareGrad squareConfig 200 200 * (4.0 * 0.75)) /\
  0 < 0.5 * hexGrad hexagonConfig 200 200 /\
  applyMask hexagonConfig 200 200 0.5
  = clamp01 (0.5 * hexGrad hexagonConfig 200 200 * (4.0 * 0.75)).
Proof.
  assert (Hw : (0 < 400)%Z) by reflexivity.
  assert (Pc : 0 < 0.5 * circleGrad defaultConfig 200 200)
    by (rewrite circleGrad_centre; lra).
  assert (Gc : 0 < circleGrad defaultConfig 200 200)
    by (rewrite circleGrad_centre; lra).
  assert (Ps : 0 < 0.5 * squareGrad squareConfig 200 200)
    by (rewrite squareGrad_centre; lra).
  assert (Ph : 0 < 0.5 * hexGrad hexagonConfig 200 200)
    by (rewrite hexGrad_centre; lra).
  destruct (applyMask_contrast noStopsConfig 200 200 0.5) as (Hoff & _).
  destruct (applyMask_contrast defaultConfig 200 200 0.5) as (_ & Hon).
  destruct (Hon eq_refl Hw Hw) as (Hcircle & _ & _).
  destruct (applyMask_contrast squareConfig 200 200 0.5) as (_ & Hon').
  destruct (Hon' eq_refl Hw Hw) as (_ & Hsquare & _).
  destruct (applyMask_contrast hexagonConfig 200 200 0.5) as (_ & Hon'').
  destruct (Hon'' eq_refl Hw Hw) as (_ & _ & Hhex).
  split; [exact (Hoff eq_refl) |].
  split; [exact Pc |].
  split; [exact (Hcircle eq_refl Gc Pc) |].
  split; [exact Ps |].
  split; [exact (Hsquare eq_refl Ps) |].
  split; [exact Ph |].
  exact (Hhex eq_refl Ph).
Defined.

Lemma draw_never_rejects_witness :
  (0 < width noStopsConfig)%Z /\ (0 < height noStopsConfig)%Z /\
  thresholds noStopsConfig = [] /\
  draw noStopsConfig = Rendered (List.concat (repeat [255; 255; 255; 255]%Z 1)).
Proof.
  assert (Hw : (0 < 1)%Z) by reflexivity.
  destruct (draw_never_rejects noStopsConfig Hw Hw) as (_ & Hwhite).
  split; [exact Hw |].
  split; [exact Hw |].
  split; [reflexivity |].
  exact (Hwhite eq_refl eq_refl eq_refl).
Defined.

Lemma exportMap_matches_draw_witness :
  (0 < width defaultConfig)%Z /\ (0 < height defaultConfig)%Z /\
  mapValue defaultConfig 3 7 = drawValue defaultConfig 3 7 /\
  draw defaultConfig = Rendered (paintGrid defaultConfig (exportMap defaultConfig)).
Proof.
  assert (Hw : (0 < 400)%Z) by reflexivity.
  destruct (exportMap_matches_draw defaultConfig) as (_ & Hval & _ & _ & Hgrid).
  split; [exact Hw |].
  split; [exact Hw |].
  split; [exact (Hval 3%Z 7%Z) | exact (Hgrid Hw Hw)].
Defined.

(** * Further properties of the noise *)

(** X1.  The hash is a number of [0, 1), so the angle of a lattice gradient
    lies in [0, 2 pi) and the gradient has length 1. *)
Theorem randomGradient_unit_vector (ix iy s : R) :
  0 <= pseudoRandom ix iy s < 1 /\
  0 <= pseudoRandom ix iy s * 2 * PI < 2 * PI /\
  vx (randomGradient ix iy s) * vx (randomGradient ix iy s)
  + vy (randomGradient ix iy s) * vy (randomGradient ix iy s) = 1.
Proof.
  assert (H : 0 <= pseudoRandom ix iy s < 1).
  { unfold pseudoRandom, fract. apply Math_floor_offset. }
  pose proof PI_RGT_0 as Hpi.
  split; [exact H |]. split; [| apply randomGradient_unit].
  split.
  - apply Rmult_le_pos; [|lra]. apply Rmult_le_pos; lra.
  - assert (0 < (1 - pseudoRandom ix iy s) * (2 * PI)) by (apply Rmult_lt_0_compat; lra).
    lra.
Qed.

Lemma fade_1 : fade 1 = 1.
Proof. unfold fade. ring. Qed.

(** The increment of [fade] between two points, in terms of their half
    distance [h] and of [q = (a (1 - a) + b (1 - b)) / 2]. *)
Lemma fade_increment (a c : R) :
  fade c - fade a
  = ((c - a) / 2)
    * (60 * (((a * (1 - a) + c * (1 - c)) / 2) * ((a * (1 - a) + c * (1 - c)) / 2))
       + 4 * (((c - a) / 2) * ((c - a) / 2))
           * (5 - 12 * (((c - a) / 2) * ((c - a) / 2)))).
Proof. unfold fade. field. Qed.

Lemma fade_increasing (a c : R) : 0 <= a -> a <= c -> c <= 1 -> fade a <= fade c.
Proof.
  intros H0 Hac H1.
  pose proof (fade_increment a c) as Hinc.
  set (h := (c - a) / 2) in *.
  set (q := (a * (1 - a) + c * (1 - c)) / 2) in *.
  assert (Hh : 0 <= h <= 1 / 2) by (unfold h; lra).
  assert (Hhh : 0 <= h * h) by (apply Rmult_le_pos; lra).
  assert (Hhh' : h * h <= 1 / 4).
  { assert (0 <= (1 / 2 - h) * (1 / 2 + h)) by (apply Rmult_le_pos; lra). lra. }
  square_nonneg q.
  assert (Hterm : 0 <= 4 * (h * h) * (5 - 12 * (h * h))).
  { apply Rmult_le_pos; lra. }
  assert (0 <= h * (60 * (q * q) + 4 * (h * h) * (5 - 12 * (h * h)))).
  { apply Rmult_le_pos; lra. }
  lra.
Qed.

(** X2.  [fade] is a smooth step on [0, 1]: it fixes 0, 1/2 and 1, is
    symmetric about the midpoint, does not decrease, and stays in
    [0, 1]. *)
Theorem fade_smooth_step :
  fade 0 = 0 /\ fade 0.5 = 0.5 /\ fade 1 = 1 /\
  (forall t, fade (1 - t) = 1 - fade t) /\
  (forall a c, 0 <= a -> a <= c -> c <= 1 -> fade a <= fade c) /\
  (forall t, 0 <= t <= 1 -> 0 <= fade t <= 1).
Proof.
  split; [apply fade_0 |].
  split; [unfold fade; lra |].
  split; [apply fade_1 |].
  split; [apply fade_mirror |].
  split; [apply fade_increasing | apply fade_range].
Qed.

Lemma fade_smooth_step_witness :
  0 <= 0.25 /\ 0.25 <= 0.75 /\ 0.75 <= 1 /\ fade 0.25 <= fade 0.75 /\
  0 <= fade 0.25 <= 1.
Proof.
  destruct fade_smooth_step as (_ & _ & _ & _ & Hmono & Hrange).
  assert (H0 : 0 <= 0.25) by lra.
  assert (H1 : 0.25 <= 0.75) by lra.
  assert (H2 : 0.75 <= 1) by lra.
  split; [exact H0 |]. split; [exact H1 |]. split; [exact H2 |].
  split; [exact (Hmono 0.25 0.75 H0 H1 H2) |].
  apply Hrange. lra.
Defined.

(** X3.  The contribution of a corner is 0 at the corner itself and is
    never larger in size than the distance to the corner. *)
Theorem dotGridGradient_bounded (ix iy x y s : R) :
  dotGridGradient ix iy ix iy s = 0 /\
  dotGridGradient ix iy x y s * dotGridGradient ix iy x y s
  <= (x - ix) * (x - ix) + (y - iy) * (y - iy) /\
  Rabs (dotGridGradient ix iy x y s)
  <= sqrt ((x - ix) * (x - ix) + (y - iy) * (y - iy)).
Proof.
  split; [apply dotGridGradient_origin |].
  pose proof (dotGridGradient_sqr ix iy x y s) as H.
  split; [exact H |].
  rewrite <- sqrt_Rsqr_abs. apply sqrt_le_1_alt. exact H.
Qed.

Lemma fade_spread_tight (s : R) :
  0 <= s <= 1 ->
  (1 - fade s) * (s * s) + fade s * ((s - 1) * (s - 1)) <= s * (1 - s).
Proof.
  intros [H0 H1].
  assert (Hid : s * (1 - s)
                - ((1 - fade s) * (s * s) + fade s * ((s - 1) * (s - 1)))
                = (s * (1 - s)) * ((1 - 2 * s) * (1 - 2 * s)) * (1 + 3 * (s * (1 - s))))
    by (unfold fade; ring).
  assert (Hp : 0 <= s * (1 - s)) by (apply Rmult_le_pos; lra).
  square_nonneg (1 - 2 * s).
  assert (Hprod : 0 <= (s * (1 - s)) * ((1 - 2 * s) * (1 - 2 * s)) * (1 + 3 * (s * (1 - s)))).
  { apply Rmult_le_pos; [apply Rmult_le_pos; assumption | lra]. }
  lra.
Qed.

Lemma rawPerlin_sqr_offsets (x y s : R) :
  rawPerlin x y s * rawPerlin x y s
  <= (x - Math_floor x) * (1 - (x - Math_floor x))
     + (y - Math_floor y) * (1 - (y - Math_floor y)).
Proof.
  unfold rawPerlin.
  pose proof (Math_floor_offset x) as Hx.
  pose proof (Math_floor_offset y) as Hy.
  set (x0 := Math_floor x) in *. set (y0 := Math_floor y) in *.
  set (sx := x - x0) in *. set (sy := y - y0) in *.
  assert (Hu : 0 <= fade sx <= 1) by (apply fade_range; lra).
  assert (Hv : 0 <= fade sy <= 1) by (apply fade_range; lra).
  pose proof (fade_spread_tight sx ltac:(lra)) as Fx.
  pose proof (fade_spread_tight sy ltac:(lra)) as Fy.
  set (u := fade sx) in *. set (v := fade sy) in *.
  pose proof (dotGridGradient_sqr x0 y0 x y s) as D00.
  pose proof (dotGridGradient_sqr (x0 + 1) y0 x y s) as D10.
  pose proof (dotGridGradient_sqr x0 (y0 + 1) x y s) as D01.
  pose proof (dotGridGradient_sqr (x0 + 1) (y0 + 1) x y s) as D11.
  set (n00 := dotGridGradient x0 y0 x y s) in *.
  set (n10 := dotGridGradient (x0 + 1) y0 x y s) in *.
  set (n01 := dotGridGradient x0 (y0 + 1) x y s) in *.
  set (n11 := dotGridGradient (x0 + 1) (y0 + 1) x y s) in *.
  replace (x - x0) with sx in * by reflexivity.
  replace (y - y0) with sy in * by reflexivity.
  replace (x - (x0 + 1)) with (sx - 1) in * by (unfold sx; ring).
  replace (y - (y0 + 1)) with (sy - 1) in * by (unfold sy; ring).
  pose proof (lerp_sqr (lerp n00 n10 u) (lerp n01 n11 u) v Hv) as L.
  pose proof (lerp_sqr n00 n10 u Hu) as La.
  pose proof (lerp_sqr n01 n11 u Hu) as Lb.
  set (A := lerp n00 n10 u) in *. set (B := lerp n01 n11 u) in *.
  assert (HA : A * A <= (1 - u) * (sx * sx) + u * ((sx - 1) * (sx - 1)) + sy * sy).
  { assert (0 <= (1 - u) * (sx * sx + sy * sy - n00 * n00)) by (apply Rmult_le_pos; lra).
    assert (0 <= u * ((sx - 1) * (sx - 1) + sy * sy - n10 * n10)) by (apply Rmult_le_pos; lra).
    lra. }
  assert (HB : B * B <= (1 - u) * (sx * sx) + u * ((sx - 1) * (sx - 1))
                        + (sy - 1) * (sy - 1)).
  { assert (0 <= (1 - u) * (sx * sx + (sy - 1) * (sy - 1) - n01 * n01))
      by (apply Rmult_le_pos; lra).
    assert (0 <= u * ((sx - 1) * (sx - 1) + (sy - 1) * (sy - 1) - n11 * n11))
      by (apply Rmult_le_pos; lra).
    lra. }
  set (W := (1 - u) * (sx * sx) + u * ((sx - 1) * (sx - 1))) in *.
  assert (H1 : 0 <= (1 - v) * (W + sy * sy - A * A)) by (apply Rmult_le_pos; lra).
  assert (H2 : 0 <= v * (W + (sy - 1) * (sy - 1) - B * B)) by (apply Rmult_le_pos; lra).
  lra.
Qed.

(** A number whose square is at most 1/2 is at most 0.7072 in size. *)
Lemma half_square_bound (v : R) : v * v <= 1 / 2 -> -0.7072 <= v <= 0.7072.
Proof.
  intros Hv. split.
  - destruct (Rle_dec (-0.7072) v) as [|Hn]; [assumption | exfalso].
    assert (0 < (- v - 0.7072) * (- v + 0.7072)) by (apply Rmult_lt_0_compat; lra).
    lra.
  - destruct (Rle_dec v 0.7072) as [|Hn]; [assumption | exfalso].
    assert (0 < (v - 0.7072) * (v + 0.7072)) by (apply Rmult_lt_0_compat; lra).
    lra.
Qed.

(** X4.  A single octave is small near the lattice: its square is at
    most [sx (1 - sx) + sy (1 - sy)] for the offsets [sx], [sy] of the point
    in its cell, hence at most 1/2 everywhere, and the octave stays within
    0.7072 of zero. *)
Theorem rawPerlin_lattice_bound (x y s : R) :
  rawPerlin x y s * rawPerlin x y s
  <= (x - Math_floor x) * (1 - (x - Math_floor x))
     + (y - Math_floor y) * (1 - (y - Math_floor y)) /\
  rawPerlin x y s * rawPerlin x y s <= 1 / 2 /\
  -0.7072 <= rawPerlin x y s <= 0.7072.
Proof.
  split; [apply rawPerlin_sqr_offsets |].
  split; [apply rawPerlin_sqr |].
  apply half_square_bound, rawPerlin_sqr.
Qed.

Lemma octaveStep_tight (x y s : R) (st : Octave) :
  0 < amplitude st ->
  - (0.7072 * maxValue st) <= total st <= 0.7072 * maxValue st ->
  0 < amplitude (octaveStep x y s st) /\
  - (0.7072 * maxValue (octaveStep x y s st))
  <= total (octaveStep x y s st)
  <= 0.7072 * maxValue (octaveStep x y s st).
Proof.
  intros Ha Ht. unfold octaveStep; cbn [total amplitude maxValue].
  pose proof (half_square_bound _ (rawPerlin_sqr (x * frequency st) (y * frequency st) s)) as Hr.
  set (n := rawPerlin (x * frequency st) (y * frequency st) s) in *.
  assert (H1 : 0 <= (0.7072 - n) * amplitude st) by (apply Rmult_le_pos; lra).
  assert (H2 : 0 <= (n + 0.7072) * amplitude st) by (apply Rmult_le_pos; lra).
  repeat split; lra.
Qed.

Lemma octaveLoop_tight (n : nat) (x y s : R) :
  forall st,
    0 < amplitude st ->
    - (0.7072 * maxValue st) <= total st <= 0.7072 * maxValue st ->
    - (0.7072 * maxValue (octaveLoop n x y s st))
    <= total (octaveLoop n x y s st)
    <= 0.7072 * maxValue (octaveLoop n x y s st).
Proof.
  induction n as [|n IH]; intros st Ha Ht; cbn [octaveLoop].
  - exact Ht.
  - destruct (octaveStep_tight x y s st Ha Ht) as [Ha' Ht'].
    now apply IH.
Qed.

(** X5.  The fractal sum inherits the bound of its octaves: with at least
    one octave it stays within 0.7072 of zero, so the remapped value that
    [draw] and [exportMap] start from lies between 0.1464 and 0.8536. *)
Theorem perlin_tight_range (cfg : Config) (n : nat) (x y s : R) :
  (1 <= n)%nat ->
  (-0.7072 <= fractalNoise n x y s <= 0.7072) /\
  (-0.7072 <= perlin cfg x y s <= 0.7072) /\
  (0.1464 <= (perlin cfg x y s + 1) / 2 <= 0.8536).
Proof.
  intros Hn.
  assert (Hgen : forall m, (1 <= m)%nat -> -0.7072 <= fractalNoise m x y s <= 0.7072).
  { intros m Hm. unfold fractalNoise.
    pose proof (octaveLoop_maxValue_pos m x y s Hm) as Hpos.
    assert (Ht : - (0.7072 * maxValue (octaveLoop m x y s octaveStart))
                 <= total (octaveLoop m x y s octaveStart)
                 <= 0.7072 * maxValue (octaveLoop m x y s octaveStart)).
    { apply octaveLoop_tight; cbn [amplitude total maxValue octaveStart]; lra. }
    set (st := octaveLoop m x y s octaveStart) in *.
    split.
    - apply Rmult_le_reg_r with (maxValue st); [assumption |].
      unfold Rdiv. rewrite Rmult_assoc, Rinv_l by lra. lra.
    - apply Rmult_le_reg_r with (maxValue st); [assumption |].
      unfold Rdiv. rewrite Rmult_assoc, Rinv_l by lra. lra. }
  pose proof (Hgen n Hn) as H1.
  pose proof (Hgen _ (octaveCount_pos cfg)) as H2.
  unfold perlin.
  repeat split; lra.
Qed.

Lemma perlin_tight_range_witness :
  (1 <= 4)%nat /\
  0.1464 <= (perlin defaultConfig 0.3 0.7 0 + 1) / 2 <= 0.8536.
Proof.
  assert (H : (1 <= 4)%nat) by lia.
  split; [exact H |].
  destruct (perlin_tight_range defaultConfig 4 0.3 0.7 0 H) as (_ & _ & Hr).
  exact Hr.
Defined.

(** *** No seam at the cell boundaries *)

Lemma gradient_components (ix iy s : R) :
  -1 <= vx (randomGradient ix iy s) <= 1 /\ -1 <= vy (randomGradient ix iy s) <= 1.
Proof.
  pose proof (randomGradient_unit ix iy s) as Hu.
  set (gx := vx (randomGradient ix iy s)) in *.
  set (gy := vy (randomGradient ix iy s)) in *.
  square_nonneg gx. square_nonneg gy.
  square_nonneg (gx - 1). square_nonneg (gx + 1).
  square_nonneg (gy - 1). square_nonneg (gy + 1).
  repeat split; lra.
Qed.

(** Within one cell of its corner a contribution is at most 1.5 in size. *)
Lemma dotGridGradient_cell (ix iy x y s : R) :
  -1 <= x - ix <= 1 -> -1 <= y - iy <= 1 ->
  -1.5 <= dotGridGradient ix iy x y s <= 1.5.
Proof.
  intros Hx Hy.
  pose proof (dotGridGradient_sqr ix iy x y s) as Hn.
  set (n := dotGridGradient ix iy x y s) in *.
  assert (Hdx : (x - ix) * (x - ix) <= 1).
  { assert (0 <= (1 - (x - ix)) * (1 + (x - ix))) by (apply Rmult_le_pos; lra). lra. }
  assert (Hdy : (y - iy) * (y - iy) <= 1).
  { assert (0 <= (1 - (y - iy)) * (1 + (y - iy))) by (apply Rmult_le_pos; lra). lra. }
  split.
  - destruct (Rle_dec (-1.5) n) as [|Hc]; [assumption | exfalso].
    assert (0 < (- n - 1.5) * (- n + 1.5)) by (apply Rmult_lt_0_compat; lra). lra.
  - destruct (Rle_dec n 1.5) as [|Hc]; [assumption | exfalso].
    assert (0 < (n - 1.5) * (n + 1.5)) by (apply Rmult_lt_0_compat; lra). lra.
Qed.

Lemma Math_floor_below (z : Z) (d : R) :
  0 < d <= 1 -> Math_floor (IZR z - d) = IZR z - 1.
Proof.
  intros Hd. unfold Math_floor.
  rewrite (Zfloor_eq (z - 1)); rewrite minus_IZR; [reflexivity | lra].
Qed.

(** A weighted mean of two numbers of [-e, e] is in [-e, e]. *)
Lemma lerp_error (p q t e : R) :
  0 <= t <= 1 -> - e <= p <= e -> - e <= q <= e -> - e <= lerp p q t <= e.
Proof.
  intros Ht Hp Hq. unfold lerp.
  assert (0 <= t * (e - q)) by (apply Rmult_le_pos; lra).
  assert (0 <= t * (e + q)) by (apply Rmult_le_pos; lra).
  assert (0 <= (1 - t) * (e - p)) by (apply Rmult_le_pos; lra).
  assert (0 <= (1 - t) * (e + p)) by (apply Rmult_le_pos; lra).
  lra.
Qed.

Lemma seam_step (d k n m : R) :
  0 <= d -> -1 <= k <= 1 -> 0 <= fade d -> -1.5 <= n <= 1.5 -> -1.5 <= m <= 1.5 ->
  - (d + 3 * fade d) <= - d * k + fade d * (n - m) <= d + 3 * fade d.
Proof.
  intros Hd Hk Hf Hn Hm.
  assert (0 <= d * (1 - k)) by (apply Rmult_le_pos; lra).
  assert (0 <= d * (1 + k)) by (apply Rmult_le_pos; lra).
  assert (0 <= fade d * (3 - (n - m))) by (apply Rmult_le_pos; lra).
  assert (0 <= fade d * (3 + (n - m))) by (apply Rmult_le_pos; lra).
  lra.
Qed.

Lemma rawPerlin_seam_x (ix : Z) (y d s : R) :
  0 < d <= 1 ->
  Rabs (rawPerlin (IZR ix - d) y s - rawPerlin (IZR ix) y s) <= d + 3 * fade d.
Proof.
  intros Hd.
  assert (Hfd : 0 <= fade d) by (apply fade_nonneg; lra).
  pose proof (Math_floor_offset y) as Hy.
  unfold rawPerlin.
  rewrite (Math_floor_below ix d Hd), Math_floor_IZR.
  set (y0 := Math_floor y) in *.
  replace (IZR ix - 1 + 1) with (IZR ix) by ring.
  replace (IZR ix - d - (IZR ix - 1)) with (1 - d) by ring.
  replace (IZR ix - IZR ix) with 0 by ring.
  rewrite fade_mirror, fade_0.
  assert (Hv : 0 <= fade (y - y0) <= 1) by (apply fade_range; lra).
  set (v := fade (y - y0)) in *.
  pose proof (dotGridGradient_cell (IZR ix - 1) y0 (IZR ix - d) y s
                ltac:(lra) ltac:(lra)) as N00.
  pose proof (dotGridGradient_cell (IZR ix - 1) (y0 + 1) (IZR ix - d) y s
                ltac:(lra) ltac:(lra)) as N01.
  pose proof (dotGridGradient_cell (IZR ix) y0 (IZR ix - d) y s
                ltac:(lra) ltac:(lra)) as N10.
  pose proof (dotGridGradient_cell (IZR ix) (y0 + 1) (IZR ix - d) y s
                ltac:(lra) ltac:(lra)) as N11.
  set (n00 := dotGridGradient (IZR ix - 1) y0 (IZR ix - d) y s) in *.
  set (n01 := dotGridGradient (IZR ix - 1) (y0 + 1) (IZR ix - d) y s) in *.
  set (n10 := dotGridGradient (IZR ix) y0 (IZR ix - d) y s) in *.
  set (n11 := dotGridGradient (IZR ix) (y0 + 1) (IZR ix - d) y s) in *.
  set (m00 := dotGridGradient (IZR ix) y0 (IZR ix) y s).
  set (m01 := dotGridGradient (IZR ix) (y0 + 1) (IZR ix) y s).
  destruct (gradient_components (IZR ix) y0 s) as [G0 _].
  destruct (gradient_components (IZR ix) (y0 + 1) s) as [G1 _].
  assert (E0 : n10 - m00 = - d * vx (randomGradient (IZR ix) y0 s)).
  { unfold n10, m00, dotGridGradient. ring. }
  assert (E1 : n11 - m01 = - d * vx (randomGradient (IZR ix) (y0 + 1) s)).
  { unfold n11, m01, dotGridGradient. ring. }
  pose proof (seam_step d _ n00 n10 ltac:(lra) G0 Hfd N00 N10) as S0.
  pose proof (seam_step d _ n01 n11 ltac:(lra) G1 Hfd N01 N11) as S1.
  rewrite <- E0 in S0. rewrite <- E1 in S1.
  set (e := d + 3 * fade d) in *.
  pose proof (lerp_error (n10 - m00 + fade d * (n00 - n10))
                         (n11 - m01 + fade d * (n01 - n11)) v e Hv S0 S1) as Hl.
  apply Rabs_le.
  replace (lerp (lerp n00 n10 (1 - fade d)) (lerp n01 n11 (1 - fade d)) v
           - lerp (lerp m00 (dotGridGradient (IZR ix + 1) y0 (IZR ix) y s) 0)
                  (lerp m01 (dotGridGradient (IZR ix + 1) (y0 + 1) (IZR ix) y s) 0) v)
    with (lerp (n10 - m00 + fade d * (n00 - n10))
               (n11 - m01 + fade d * (n01 - n11)) v)
    by (unfold lerp; ring).
  exact Hl.
Qed.

Lemma rawPerlin_seam_y (x : R) (iy : Z) (d s : R) :
  0 < d <= 1 ->
  Rabs (rawPerlin x (IZR iy - d) s - rawPerlin x (IZR iy) s) <= d + 3 * fade d.
Proof.
  intros Hd.
  assert (Hfd : 0 <= fade d) by (apply fade_nonneg; lra).
  pose proof (Math_floor_offset x) as Hx.
  unfold rawPerlin.
  rewrite (Math_floor_below iy d Hd), Math_floor_IZR.
  set (x0 := Math_floor x) in *.
  replace (IZR iy - 1 + 1) with (IZR iy) by ring.
  replace (IZR iy - d - (IZR iy - 1)) with (1 - d) by ring.
  replace (IZR iy - IZR iy) with 0 by ring.
  rewrite fade_mirror, fade_0.
  assert (Hu : 0 <= fade (x - x0) <= 1) by (apply fade_range; lra).
  set (u := fade (x - x0)) in *.
  pose proof (dotGridGradient_cell x0 (IZR iy - 1) x (IZR iy - d) s
                ltac:(lra) ltac:(lra)) as N00.
  pose proof (dotGridGradient_cell (x0 + 1) (IZR iy - 1) x (IZR iy - d) s
                ltac:(lra) ltac:(lra)) as N10.
  pose proof (dotGridGradient_cell x0 (IZR iy) x (IZR iy - d) s
                ltac:(lra) ltac:(lra)) as N01.
  pose proof (dotGridGradient_cell (x0 + 1) (IZR iy) x (IZR iy - d) s
                ltac:(lra) ltac:(lra)) as N11.
  set (n00 := dotGridGradient x0 (IZR iy - 1) x (IZR iy - d) s) in *.
  set (n10 := dotGridGradient (x0 + 1) (IZR iy - 1) x (IZR iy - d) s) in *.
  set (n01 := dotGridGradient x0 (IZR iy) x (IZR iy - d) s) in *.
  set (n11 := dotGridGradient (x0 + 1) (IZR iy) x (IZR iy - d) s) in *.
  set (m00 := dotGridGradient x0 (IZR iy) x (IZR iy) s).
  set (m10 := dotGridGradient (x0 + 1) (IZR iy) x (IZR iy) s).
  destruct (gradient_components x0 (IZR iy) s) as [_ G0].
  destruct (gradient_components (x0 + 1) (IZR iy) s) as [_ G1].
  assert (E0 : n01 - m00 = - d * vy (randomGradient x0 (IZR iy) s)).
  { unfold n01, m00, dotGridGradient. ring. }
  assert (E1 : n11 - m10 = - d * vy (randomGradient (x0 + 1) (IZR iy) s)).
  { unfold n11, m10, dotGridGradient. ring. }
  pose proof (seam_step d _ n00 n01 ltac:(lra) G0 Hfd N00 N01) as S0.
  pose proof (seam_step d _ n10 n11 ltac:(lra) G1 Hfd N10 N11) as S1.
  rewrite <- E0 in S0. rewrite <- E1 in S1.
  set (e := d + 3 * fade d) in *.
  pose proof (lerp_error (n01 - m00 + fade d * (n00 - n01))
                         (n11 - m10 + fade d * (n10 - n11)) u e Hu S0 S1) as Hl.
  apply Rabs_le.
  replace (lerp (lerp n00 n10 u) (lerp n01 n11 u) (1 - fade d)
           - lerp (lerp m00 m10 u)
                  (lerp (dotGridGradient x0 (IZR iy + 1) x (IZR iy) s)
                        (dotGridGradient (x0 + 1) (IZR iy + 1) x (IZR iy) s) u) 0)
    with (lerp (n01 - m00 + fade d * (n00 - n01))
               (n11 - m10 + fade d * (n10 - n11)) u)
    by (unfold lerp; ring).
  exact Hl.
Qed.

Lemma Math_floor_above (z : Z) (d : R) :
  0 <= d < 1 -> Math_floor (IZR z + d) = IZR z.
Proof.
  intros Hd. unfold Math_floor. rewrite (Zfloor_eq z); [reflexivity | lra].
Qed.

Lemma rawPerlin_inside_x (ix : Z) (y d s : R) :
  0 <= d < 1 ->
  Rabs (rawPerlin (IZR ix + d) y s - rawPerlin (IZR ix) y s) <= d + 3 * fade d.
Proof.
  intros Hd.
  assert (Hfd : 0 <= fade d) by (apply fade_nonneg; lra).
  pose proof (Math_floor_offset y) as Hy.
  unfold rawPerlin.
  rewrite (Math_floor_above ix d Hd), Math_floor_IZR.
  set (y0 := Math_floor y) in *.
  replace (IZR ix + d - IZR ix) with d by ring.
  replace (IZR ix - IZR ix) with 0 by ring.
  rewrite fade_0.
  assert (Hv : 0 <= fade (y - y0) <= 1) by (apply fade_range; lra).
  set (v := fade (y - y0)) in *.
  pose proof (dotGridGradient_cell (IZR ix) y0 (IZR ix + d) y s
                ltac:(lra) ltac:(lra)) as N00.
  pose proof (dotGridGradient_cell (IZR ix) (y0 + 1) (IZR ix + d) y s
                ltac:(lra) ltac:(lra)) as N01.
  pose proof (dotGridGradient_cell (IZR ix + 1) y0 (IZR ix + d) y s
                ltac:(lra) ltac:(lra)) as N10.
  pose proof (dotGridGradient_cell (IZR ix + 1) (y0 + 1) (IZR ix + d) y s
                ltac:(lra) ltac:(lra)) as N11.
  set (n00 := dotGridGradient (IZR ix) y0 (IZR ix + d) y s) in *.
  set (n01 := dotGridGradient (IZR ix) (y0 + 1) (IZR ix + d) y s) in *.
  set (n10 := dotGridGradient (IZR ix + 1) y0 (IZR ix + d) y s) in *.
  set (n11 := dotGridGradient (IZR ix + 1) (y0 + 1) (IZR ix + d) y s) in *.
  set (m00 := dotGridGradient (IZR ix) y0 (IZR ix) y s).
  set (m01 := dotGridGradient (IZR ix) (y0 + 1) (IZR ix) y s).
  destruct (gradient_components (IZR ix) y0 s) as [G0 _].
  destruct (gradient_components (IZR ix) (y0 + 1) s) as [G1 _].
  assert (E0 : n00 - m00 = - d * - vx (randomGradient (IZR ix) y0 s)).
  { unfold n00, m00, dotGridGradient. ring. }
  assert (E1 : n01 - m01 = - d * - vx (randomGradient (IZR ix) (y0 + 1) s)).
  { unfold n01, m01, dotGridGradient. ring. }
  pose proof (seam_step d (- vx (randomGradient (IZR ix) y0 s)) n10 n00
                ltac:(lra) ltac:(lra) Hfd N10 N00) as S0.
  pose proof (seam_step d (- vx (randomGradient (IZR ix) (y0 + 1) s)) n11 n01
                ltac:(lra) ltac:(lra) Hfd N11 N01) as S1.
  rewrite <- E0 in S0. rewrite <- E1 in S1.
  set (e := d + 3 * fade d) in *.
  pose proof (lerp_error (n00 - m00 + fade d * (n10 - n00))
                         (n01 - m01 + fade d * (n11 - n01)) v e Hv S0 S1) as Hl.
  apply Rabs_le.
  replace (lerp (lerp n00 n10 (fade d)) (lerp n01 n11 (fade d)) v
           - lerp (lerp m00 (dotGridGradient (IZR ix + 1) y0 (IZR ix) y s) 0)
                  (lerp m01 (dotGridGradient (IZR ix + 1) (y0 + 1) (IZR ix) y s) 0) v)
    with (lerp (n00 - m00 + fade d * (n10 - n00))
               (n01 - m01 + fade d * (n11 - n01)) v)
    by (unfold lerp; ring).
  exact Hl.
Qed.

Lemma rawPerlin_inside_y (x : R) (iy : Z) (d s : R) :
  0 <= d < 1 ->
  Rabs (rawPerlin x (IZR iy + d) s - rawPerlin x (IZR iy) s) <= d + 3 * fade d.
Proof.
  intros Hd.
  assert (Hfd : 0 <= fade d) by (apply fade_nonneg; lra).
  pose proof (Math_floor_offset x) as Hx.
  unfold rawPerlin.
  rewrite (Math_floor_above iy d Hd), Math_floor_IZR.
  set (x0 := Math_floor x) in *.
  replace (IZR iy + d - IZR iy) with d by ring.
  replace (IZR iy - IZR iy) with 0 by ring.
  rewrite fade_0.
  assert (Hu : 0 <= fade (x - x0) <= 1) by (apply fade_range; lra).
  set (u := fade (x - x0)) in *.
  pose proof (dotGridGradient_cell x0 (IZR iy) x (IZR iy + d) s
                ltac:(lra) ltac:(lra)) as N00.
  pose proof (dotGridGradient_cell (x0 + 1) (IZR iy) x (IZR iy + d) s
                ltac:(lra) ltac:(lra)) as N10.
  pose proof (dotGridGradient_cell x0 (IZR iy + 1) x (IZR iy + d) s
                ltac:(lra) ltac:(lra)) as N01.
  pose proof (dotGridGradient_cell (x0 + 1) (IZR iy + 1) x (IZR iy + d) s
                ltac:(lra) ltac:(lra)) as N11.
  set (n00 := dotGridGradient x0 (IZR iy) x (IZR iy + d) s) in *.
  set (n10 := dotGridGradient (x0 + 1) (IZR iy) x (IZR iy + d) s) in *.
  set (n01 := dotGridGradient x0 (IZR iy + 1) x (IZR iy + d) s) in *.
  set (n11 := dotGridGradient (x0 + 1) (IZR iy + 1) x (IZR iy + d) s) in *.
  set (m00 := dotGridGradient x0 (IZR iy) x (IZR iy) s).
  set (m10 := dotGridGradient (x0 + 1) (IZR iy) x (IZR iy) s).
  destruct (gradient_components x0 (IZR iy) s) as [_ G0].
  destruct (gradient_components (x0 + 1) (IZR iy) s) as [_ G1].
  assert (E0 : n00 - m00 = - d * - vy (randomGradient x0 (IZR iy) s)).
  { unfold n00, m00, dotGridGradient. ring. }
  assert (E1 : n10 - m10 = - d * - vy (randomGradient (x0 + 1) (IZR iy) s)).
  { unfold n10, m10, dotGridGradient. ring. }
  pose proof (seam_step d (- vy (randomGradient x0 (IZR iy) s)) n01 n00
                ltac:(lra) ltac:(lra) Hfd N01 N00) as S0.
  pose proof (seam_step d (- vy (randomGradient (x0 + 1) (IZR iy) s)) n11 n10
                ltac:(lra) ltac:(lra) Hfd N11 N10) as S1.
  rewrite <- E0 in S0. rewrite <- E1 in S1.
  set (e := d + 3 * fade d) in *.
  pose proof (lerp_error (n00 - m00 + fade d * (n01 - n00))
                         (n10 - m10 + fade d * (n11 - n10)) u e Hu S0 S1) as Hl.
  apply Rabs_le.
  replace (lerp (lerp n00 n10 u) (lerp n01 n11 u) (fade d)
           - lerp (lerp m00 m10 u)
                  (lerp (dotGridGradient x0 (IZR iy + 1) x (IZR iy) s)
                        (dotGridGradient (x0 + 1) (IZR iy + 1) x (IZR iy) s) u) 0)
    with (lerp (n00 - m00 + fade d * (n01 - n00))
               (n10 - m10 + fade d * (n11 - n10)) u)
    by (unfold lerp; ring).
  exact Hl.
Qed.

(** X6.  The octave has no seam at a cell boundary: at distance [d] from
    a lattice line, on either side of it (so in either of the two cells
    that meet there), the value differs from the one on the line by at most
    [d + 3 fade d], which vanishes with [d]. *)
Theorem rawPerlin_no_seam (ix iy : Z) (x y d s : R) :
  0 < d < 1 ->
  Rabs (rawPerlin (IZR ix - d) y s - rawPerlin (IZR ix) y s) <= d + 3 * fade d /\
  Rabs (rawPerlin (IZR ix + d) y s - rawPerlin (IZR ix) y s) <= d + 3 * fade d /\
  Rabs (rawPerlin x (IZR iy - d) s - rawPerlin x (IZR iy) s) <= d + 3 * fade d /\
  Rabs (rawPerlin x (IZR iy + d) s - rawPerlin x (IZR iy) s) <= d + 3 * fade d.
Proof.
  intros Hd.
  split; [apply rawPerlin_seam_x; lra |].
  split; [apply rawPerlin_inside_x; lra |].
  split; [apply rawPerlin_seam_y; lra | apply rawPerlin_inside_y; lra].
Qed.

Lemma rawPerlin_no_seam_witness :
  0 < 0.01 < 1 /\
  Rabs (rawPerlin (IZR 3 - 0.01) 0.4 0 - rawPerlin (IZR 3) 0.4 0) <= 0.01 + 3 * fade 0.01 /\
  Rabs (rawPerlin (IZR 3 + 0.01) 0.4 0 - rawPerlin (IZR 3) 0.4 0) <= 0.01 + 3 * fade 0.01.
Proof.
  assert (Hd : 0 < 0.01 < 1) by lra.
  split; [exact Hd |].
  destruct (rawPerlin_no_seam 3 0 0 0.4 0.01 0 Hd) as (H1 & H2 & _).
  split; [exact H1 | exact H2].
Defined.

(** * Further properties of the colours *)

(** ** Parsing and printing hexadecimal colours *)

(** Linear integer arithmetic with quotients and remainders by constants. *)
Ltac zdiv := Z.to_euclidean_division_equations; lia.

(** A check that holds on [0 .. n - 1] by computation holds for each of
    these numbers. *)
Lemma range_check (P : Z -> bool) (n : nat) :
  forallb P (map Z.of_nat (seq 0 n)) = true ->
  forall d, (0 <= d < Z.of_nat n)%Z -> P d = true.
Proof.
  intros Hall d Hd. rewrite forallb_forall in Hall. apply Hall.
  apply in_map_iff. exists (Z.to_nat d). split; [lia |].
  apply in_seq. lia.
Qed.

Lemma hexDigit_digitChar (d : Z) : (0 <= d < 16)%Z -> hexDigit (digitChar d) = Some d.
Proof.
  intros Hd.
  assert (Hall : forallb (fun e => match hexDigit (digitChar e) with
                                   | Some v => Z.eqb v e
                                   | None => false
                                   end)
                         (map Z.of_nat (seq 0 16)) = true)
    by (vm_compute; reflexivity).
  pose proof (range_check _ 16 Hall d ltac:(lia)) as H. cbn beta in H.
  destruct (hexDigit (digitChar d)) as [v|]; [|discriminate].
  apply Z.eqb_eq in H. now subst v.
Qed.

Lemma parseHexPair_digitChar (v : Z) :
  (0 <= v <= 255)%Z ->
  parseHexPair (digitChar (v / 16)) (digitChar (v mod 16)) = Some v.
Proof.
  intros Hv. unfold parseHexPair.
  rewrite !hexDigit_digitChar by zdiv.
  f_equal. zdiv.
Qed.

Lemma hexDigitsOf_more (fuel : nat) (q d : Z) (acc : string) :
  (0 < q)%Z -> (0 <= d < 16)%Z ->
  hexDigitsOf (S fuel) (q * 16 + d) acc
  = hexDigitsOf fuel q (String (digitChar d) acc).
Proof.
  intros Hq Hd. cbn [hexDigitsOf].
  replace ((q * 16 + d) / 16)%Z with q by zdiv.
  replace ((q * 16 + d) mod 16)%Z with d by zdiv.
  destruct (Z.eqb_spec q 0); [lia | reflexivity].
Qed.

Lemma hexDigitsOf_last (fuel : nat) (d : Z) (acc : string) :
  (0 <= d < 16)%Z -> hexDigitsOf (S fuel) d acc = String (digitChar d) acc.
Proof.
  intros Hd. cbn [hexDigitsOf].
  rewrite Z.mod_small, Z.div_small by lia. reflexivity.
Qed.

Lemma shl32_byte (v n : Z) :
  (0 <= v <= 255)%Z -> (0 <= n <= 16)%Z -> shl32 v n = (v * 2 ^ n)%Z.
Proof.
  intros Hv Hn. unfold shl32, wrap32.
  rewrite (Z.mod_small n 32) by lia.
  replace ((v + 2 ^ 31) mod 2 ^ 32 - 2 ^ 31)%Z with v by (rewrite Z.mod_small; lia).
  rewrite Z.shiftl_mul_pow2 by lia.
  assert (Hp : (0 < 2 ^ n <= 2 ^ 16)%Z).
  { split; [apply Z.pow_pos_nonneg; lia | apply Z.pow_le_mono_r; lia]. }
  assert (Hb : (0 <= v * 2 ^ n <= 255 * 2 ^ 16)%Z) by nia.
  rewrite Z.mod_small; lia.
Qed.

(** The number [hslToHex] prints, for three bytes. *)
Lemma packed_colour (vr vg vb : Z) :
  (0 <= vr <= 255)%Z -> (0 <= vg <= 255)%Z -> (0 <= vb <= 255)%Z ->
  (shl32 1 24 + shl32 vr 16 + shl32 vg 8 + vb
   = 16777216 + vr * 65536 + vg * 256 + vb)%Z.
Proof.
  intros Hr Hg Hb.
  rewrite (shl32_byte vr 16), (shl32_byte vg 8) by lia.
  reflexivity.
Qed.

Lemma toString16_packed (vr vg vb : Z) :
  (0 <= vr <= 255)%Z -> (0 <= vg <= 255)%Z -> (0 <= vb <= 255)%Z ->
  toString16 (16777216 + vr * 65536 + vg * 256 + vb)
  = String "1"
      (String (digitChar (vr / 16)) (String (digitChar (vr mod 16))
      (String (digitChar (vg / 16)) (String (digitChar (vg mod 16))
      (String (digitChar (vb / 16)) (String (digitChar (vb mod 16))
       EmptyString)))))).
Proof.
  intros Hr Hg Hb.
  set (N := (16777216 + vr * 65536 + vg * 256 + vb)%Z).
  assert (HN : (2 ^ 24 <= N < 2 ^ 25)%Z) by (unfold N; lia).
  unfold toString16.
  destruct (Z.ltb_spec N 0); [lia |].
  rewrite (Z.log2_unique N 24) by lia.
  change (S (Z.to_nat 24)) with 25%nat.
  replace N with
    ((((((1 * 16 + vr / 16) * 16 + vr mod 16) * 16 + vg / 16) * 16 + vg mod 16)
        * 16 + vb / 16) * 16 + vb mod 16)%Z by (unfold N; zdiv).
  rewrite !hexDigitsOf_more by zdiv.
  now rewrite hexDigitsOf_last by lia.
Qed.

Lemma hexToRgb_printed (vr vg vb : Z) :
  (0 <= vr <= 255)%Z -> (0 <= vg <= 255)%Z -> (0 <= vb <= 255)%Z ->
  hexToRgb
    (String "#"
       (slice1 (toString16 (shl32 1 24 + shl32 vr 16 + shl32 vg 8 + vb)%Z)))
  = mkRGB (IZR vr) (IZR vg) (IZR vb).
Proof.
  intros Hr Hg Hb.
  rewrite packed_colour, toString16_packed by assumption.
  cbn [slice1]. unfold hexToRgb. cbn [stripHash].
  rewrite !parseHexPair_digitChar by assumption.
  reflexivity.
Qed.

Lemma inSector_true (lo h hi : R) : inSector lo h hi = true -> lo <= h < hi.
Proof.
  unfold inSector.
  destruct (Rle_dec lo h); [|discriminate].
  destruct (Rlt_dec h hi); [|discriminate].
  intros _. lra.
Qed.

Lemma jsRem_2_range (a : R) : 0 <= a -> 0 <= jsRem a 2 < 2.
Proof.
  intros Ha. unfold jsRem, truncZ.
  destruct (Rle_dec 0 (a / 2)) as [_|Hn]; [|lra].
  pose proof (Zfloor_bound (a / 2)). lra.
Qed.

(** The byte a channel of [0, 1] is rounded to. *)
Lemma channel_byte (v : R) : 0 <= v <= 1 -> (0 <= Zfloor (v * 255 + 0.5) <= 255)%Z.
Proof.
  intros Hv.
  pose proof (Zfloor_bound (v * 255 + 0.5)) as Hb.
  split.
  - apply Zfloor_lub. lra.
  - assert (Zfloor (v * 255 + 0.5) < 256)%Z by (apply lt_IZR; lra). lia.
Qed.

(** Chroma [c], second component [x] and offset [m] of [hslToHex]: every
    channel [c + m], [x + m], [m] lies in [0, 1]. *)
Lemma hsl_components (h s l : R) :
  0 <= s <= 100 -> 0 <= l <= 100 ->
  let c := (1 - Rabs (2 * (l / 100) - 1)) * (s / 100) in
  let m := l / 100 - c / 2 in
  0 <= m /\ 0 <= c /\ c + m <= 1 /\
  (0 <= h -> 0 <= c * (1 - Rabs (jsRem (h / 60) 2 - 1)) <= c).
Proof.
  intros Hs Hl c m.
  assert (Hl' : 0 <= l / 100 <= 1) by lra.
  assert (Hs' : 0 <= s / 100 <= 1) by lra.
  set (k := 1 - Rabs (2 * (l / 100) - 1)) in *.
  assert (Hk : 0 <= k /\ k <= 2 * (l / 100) /\ k <= 2 - 2 * (l / 100)).
  { unfold k, Rabs. destruct (Rcase_abs (2 * (l / 100) - 1)); lra. }
  assert (Hc0 : 0 <= c) by (apply Rmult_le_pos; lra).
  assert (Hck : c <= k).
  { unfold c. assert (0 <= k * (1 - s / 100)) by (apply Rmult_le_pos; lra). lra. }
  split; [unfold m; lra |].
  split; [exact Hc0 |].
  split; [unfold m; lra |].
  intros Hh.
  pose proof (jsRem_2_range (h / 60) ltac:(lra)) as Hr.
  split.
  - assert (0 <= 1 - Rabs (jsRem (h / 60) 2 - 1)).
    { unfold Rabs. destruct (Rcase_abs _); lra. }
    now apply Rmult_le_pos.
  - assert (0 <= Rabs (jsRem (h / 60) 2 - 1)) by apply Rabs_pos.
    assert (0 <= c * Rabs (jsRem (h / 60) 2 - 1)) by (now apply Rmult_le_pos).
    lra.
Qed.

Lemma hslRgb_bytes (h s l : R) :
  0 <= s <= 100 -> 0 <= l <= 100 ->
  (0 <= fst (fst (hslRgb h s l)) <= 255)%Z /\
  (0 <= snd (fst (hslRgb h s l)) <= 255)%Z /\
  (0 <= snd (hslRgb h s l) <= 255)%Z.
Proof.
  intros Hs Hl.
  destruct (hsl_components h s l Hs Hl) as (Hm & Hc & Hcm & Hx).
  unfold hslRgb.
  set (c := (1 - Rabs (2 * (l / 100) - 1)) * (s / 100)) in *.
  set (m := l / 100 - c / 2) in *.
  set (x := c * (1 - Rabs (jsRem (h / 60) 2 - 1))) in *.
  assert (Hsec : forall lo hi, 0 <= lo -> inSector lo h hi = true -> 0 <= x <= c).
  { intros lo hi Hlo E. apply inSector_true in E. apply Hx. lra. }
  destruct (inSector 0 h 60) eqn:E1;
    [pose proof (Hsec 0 60 ltac:(lra) E1)
    |destruct (inSector 60 h 120) eqn:E2;
      [pose proof (Hsec 60 120 ltac:(lra) E2)
      |destruct (inSector 120 h 180) eqn:E3;
        [pose proof (Hsec 120 180 ltac:(lra) E3)
        |destruct (inSector 180 h 240) eqn:E4;
          [pose proof (Hsec 180 240 ltac:(lra) E4)
          |destruct (inSector 240 h 300) eqn:E5;
            [pose proof (Hsec 240 300 ltac:(lra) E5)
            |destruct (inSector 300 h 360) eqn:E6;
              [pose proof (Hsec 300 360 ltac:(lra) E6)|]]]]]];
    cbn [fst snd]; repeat split; apply channel_byte; lra.
Qed.

(** X7.  A colour printed by [hslToHex] is read back by [hexToRgb]: for a
    saturation and a lightness of 0..100 and any hue, the three rounded
    channels are bytes, the string is [#] followed by six digits, and
    parsing it returns those channels. *)
Theorem hslToHex_round_trip (h s l : R) :
  0 <= s <= 100 -> 0 <= l <= 100 ->
  (0 <= fst (fst (hslRgb h s l)) <= 255)%Z /\
  (0 <= snd (fst (hslRgb h s l)) <= 255)%Z /\
  (0 <= snd (hslRgb h s l) <= 255)%Z /\
  String.length (hslToHex h s l) = 7%nat /\
  hexToRgb (hslToHex h s l)
  = mkRGB (IZR (fst (fst (hslRgb h s l))))
          (IZR (snd (fst (hslRgb h s l))))
          (IZR (snd (hslRgb h s l))).
Proof.
  intros Hs Hl.
  destruct (hslRgb_bytes h s l Hs Hl) as (Hr & Hg & Hb).
  unfold hslToHex.
  destruct (hslRgb h s l) as [[vr vg] vb]. cbn [fst snd] in *.
  repeat split; try lia.
  - rewrite packed_colour, toString16_packed by assumption. reflexivity.
  - now apply hexToRgb_printed.
Qed.

Lemma hslToHex_round_trip_witness :
  0 <= 80 <= 100 /\ 0 <= 40 <= 100 /\
  String.length (hslToHex 200 80 40) = 7%nat /\
  hexToRgb (hslToHex 200 80 40)
  = mkRGB (IZR (fst (fst (hslRgb 200 80 40))))
          (IZR (snd (fst (hslRgb 200 80 40))))
          (IZR (snd (hslRgb 200 80 40))).
Proof.
  assert (Hs : 0 <= 80 <= 100) by lra.
  assert (Hl : 0 <= 40 <= 100) by lra.
  destruct (hslToHex_round_trip 200 80 40 Hs Hl) as (_ & _ & _ & Hlen & Hrt).
  split; [exact Hs |]. split; [exact Hl |]. split; [exact Hlen | exact Hrt].
Defined.

Lemma hslRgb_achromatic (h s l : R) :
  (1 - Rabs (2 * (l / 100) - 1)) * (s / 100) = 0 ->
  hslRgb h s l
  = (Zfloor (l / 100 * 255 + 0.5), Zfloor (l / 100 * 255 + 0.5),
     Zfloor (l / 100 * 255 + 0.5)).
Proof.
  intros Hc. unfold hslRgb. cbv zeta. rewrite Hc.
  repeat match goal with
         | |- context [inSector ?lo ?v ?hi] => destruct (inSector lo v hi)
         end;
    (f_equal; [f_equal |]); f_equal; lra.
Qed.

(** X8.  Without lightness the colour is black and with full lightness it
    is white, whatever the hue and the saturation; without saturation the
    three channels are equal. *)
Theorem hslToHex_achromatic (h s l : R) :
  hslToHex h s 0 = "#000000"%string /\
  hslToHex h s 100 = "#ffffff"%string /\
  fst (fst (hslRgb h 0 l)) = snd (fst (hslRgb h 0 l)) /\
  snd (fst (hslRgb h 0 l)) = snd (hslRgb h 0 l).
Proof.
  split; [| split].
  - unfold hslToHex. rewrite hslRgb_achromatic.
    + replace (Zfloor (0 / 100 * 255 + 0.5)) with 0%Z
        by (symmetry; apply Zfloor_eq; lra).
      reflexivity.
    + replace (2 * (0 / 100) - 1) with (- (1)) by lra.
      rewrite Rabs_Ropp, Rabs_R1. lra.
  - unfold hslToHex. rewrite hslRgb_achromatic.
    + replace (Zfloor (100 / 100 * 255 + 0.5)) with 255%Z
        by (symmetry; apply Zfloor_eq; lra).
      reflexivity.
    + replace (2 * (100 / 100) - 1) with 1 by lra.
      rewrite Rabs_R1. lra.
  - rewrite hslRgb_achromatic by lra. split; reflexivity.
Qed.

(** ** [hexToRgb] on arbitrary strings *)

(** X9.  [hexToRgb] accepts any string: its three channels are always
    integers of 0..255; a text that is not six characters long after the
    optional [#] gives black; and the [#] makes no difference. *)
Theorem hexToRgb_total (hex : string) :
  (exists vr vg vb : Z,
     hexToRgb hex = mkRGB (IZR vr) (IZR vg) (IZR vb) /\
     (0 <= vr <= 255)%Z /\ (0 <= vg <= 255)%Z /\ (0 <= vb <= 255)%Z) /\
  (String.length (stripHash hex) <> 6%nat -> hexToRgb hex = mkRGB 0 0 0) /\
  (stripHash hex = hex -> hexToRgb (String "#" hex) = hexToRgb hex).
Proof.
  split; [| split].
  - unfold hexToRgb.
    assert (Hblack : exists vr vg vb : Z,
               mkRGB 0 0 0 = mkRGB (IZR vr) (IZR vg) (IZR vb) /\
               (0 <= vr <= 255)%Z /\ (0 <= vg <= 255)%Z /\ (0 <= vb <= 255)%Z)
      by (exists 0%Z, 0%Z, 0%Z; repeat split; lia).
    destruct (stripHash hex) as [|r1 [|r2 [|g1 [|g2 [|b1 [|b2 [|? ?]]]]]]];
      try exact Hblack.
    destruct (parseHexPair r1 r2) as [vr|] eqn:Hr; [|exact Hblack].
    destruct (parseHexPair g1 g2) as [vg|] eqn:Hg; [|exact Hblack].
    destruct (parseHexPair b1 b2) as [vb|] eqn:Hb; [|exact Hblack].
    exists vr, vg, vb.
    apply parseHexPair_range in Hr, Hg, Hb.
    repeat split; try reflexivity;
      try (apply le_IZR; lra); try (apply (le_IZR _ 255); lra).
  - intros Hlen. unfold hexToRgb.
    destruct (stripHash hex) as [|r1 [|r2 [|g1 [|g2 [|b1 [|b2 [|? ?]]]]]]];
      try reflexivity.
    cbn in Hlen. contradiction.
  - intros Hs. unfold hexToRgb at 1. cbn [stripHash].
    unfold hexToRgb. now rewrite Hs.
Qed.

Lemma hexToRgb_total_witness :
  String.length (stripHash "#12345") <> 6%nat /\
  hexToRgb "#12345" = mkRGB 0 0 0 /\
  stripHash "ff8000" = "ff8000"%string /\
  hexToRgb "#ff8000" = hexToRgb "ff8000".
Proof.
  assert (Hlen : String.length (stripHash "#12345") <> 6%nat) by (cbn; lia).
  destruct (hexToRgb_total "#12345") as (_ & Hshort & _).
  destruct (hexToRgb_total "ff8000") as (_ & _ & Hhash).
  split; [exact Hlen |].
  split; [exact (Hshort Hlen) |].
  split; [reflexivity | exact (Hhash eq_refl)].
Defined.

(** ** Interpolation and the scan of the stops *)

Lemma Math_round_integer (z : Z) : Math_round (IZR z) = IZR z.
Proof. unfold Math_round. f_equal. apply Zfloor_eq. lra. Qed.

Lemma hexToRgb_integers (hex : string) :
  exists vr vg vb : Z, hexToRgb hex = mkRGB (IZR vr) (IZR vg) (IZR vb).
Proof.
  unfold hexToRgb.
  assert (Hblack : exists vr vg vb : Z, mkRGB 0 0 0 = mkRGB (IZR vr) (IZR vg) (IZR vb))
    by (exists 0%Z, 0%Z, 0%Z; reflexivity).
  destruct (stripHash hex) as [|r1 [|r2 [|g1 [|g2 [|b1 [|b2 [|? ?]]]]]]];
    try exact Hblack.
  destruct (parseHexPair r1 r2) as [vr|]; [|exact Hblack].
  destruct (parseHexPair g1 g2) as [vg|]; [|exact Hblack].
  destruct (parseHexPair b1 b2) as [vb|]; [|exact Hblack].
  now exists vr, vg, vb.
Qed.

Lemma interpolateColors_at_0 (c1 c2 : string) : interpolateColors c1 c2 0 = hexToRgb c1.
Proof.
  unfold interpolateColors.
  destruct (hexToRgb_integers c1) as (vr & vg & vb & ->). cbn [r g b].
  unfold lerp. rewrite !Rmult_0_l, !Rplus_0_r.
  now rewrite !Math_round_integer.
Qed.

Lemma interpolateColors_at_1 (c1 c2 : string) : interpolateColors c1 c2 1 = hexToRgb c2.
Proof.
  unfold interpolateColors.
  destruct (hexToRgb_integers c2) as (vr & vg & vb & ->). cbn [r g b].
  unfold lerp.
  replace (r (hexToRgb c1) + 1 * (IZR vr - r (hexToRgb c1))) with (IZR vr) by ring.
  replace (g (hexToRgb c1) + 1 * (IZR vg - g (hexToRgb c1))) with (IZR vg) by ring.
  replace (b (hexToRgb c1) + 1 * (IZR vb - b (hexToRgb c1))) with (IZR vb) by ring.
  now rewrite !Math_round_integer.
Qed.

Lemma interpolateColors_same (c : string) (t : R) : interpolateColors c c t = hexToRgb c.
Proof.
  unfold interpolateColors.
  destruct (hexToRgb_integers c) as (vr & vg & vb & ->). cbn [r g b].
  unfold lerp.
  replace (IZR vr + t * (IZR vr - IZR vr)) with (IZR vr) by ring.
  replace (IZR vg + t * (IZR vg - IZR vg)) with (IZR vg) by ring.
  replace (IZR vb + t * (IZR vb - IZR vb)) with (IZR vb) by ring.
  now rewrite !Math_round_integer.
Qed.

(** X10.  Interpolation starts at the first colour and ends at the second,
    is constant between equal colours, and keeps every channel in 0..255
    for a ratio of [0, 1]; so with smoothing on, a value that sits exactly
    on the threshold of the stop it matches gets that stop's own colour,
    as it does with smoothing off. *)
Theorem interpolateColors_endpoints (cfg : Config) (c1 c2 : string) :
  interpolateColors c1 c2 0 = hexToRgb c1 /\
  interpolateColors c1 c2 1 = hexToRgb c2 /\
  (forall t, interpolateColors c1 c1 t = hexToRgb c1) /\
  (forall t, 0 <= t <= 1 -> inGamut (interpolateColors c1 c2 t)) /\
  (forall k t, firstMatch cfg (threshold t) k t ->
     getColorForValue cfg (threshold t) = hexToRgb (color t)).
Proof.
  split; [apply interpolateColors_at_0 |].
  split; [apply interpolateColors_at_1 |].
  split; [intros t; apply interpolateColors_same |].
  split; [intros t; apply interpolateColors_inGamut |].
  intros k t Hm.
  rewrite (getColorForValue_firstMatch cfg _ k t Hm).
  unfold colorAt.
  destruct (smoothing cfg && (0 <? k)%nat) eqn:E; [|reflexivity].
  apply andb_prop in E as [_ Hpos]. apply Nat.ltb_lt in Hpos.
  destruct (nth_error (thresholds cfg) (k - 1)) as [prev|] eqn:Hp; [|reflexivity].
  destruct Hm as (_ & _ & Hbelow).
  pose proof (Hbelow (k - 1)%nat prev ltac:(lia) Hp) as Hlt.
  replace ((threshold t - threshold prev) / (threshold t - threshold prev)) with 1
    by (field; lra).
  apply interpolateColors_at_1.
Qed.

Lemma interpolateColors_endpoints_witness :
  0 <= 0.25 <= 1 /\
  inGamut (interpolateColors "#4169E1" "#EED6AF" 0.25) /\
  firstMatch rampConfig (threshold (mkStop 1.0 "#ffffff")) 1 (mkStop 1.0 "#ffffff") /\
  getColorForValue rampConfig 1.0 = hexToRgb "#ffffff".
Proof.
  assert (Ht : 0 <= 0.25 <= 1) by lra.
  assert (Hm : firstMatch rampConfig (threshold (mkStop 1.0 "#ffffff")) 1
                 (mkStop 1.0 "#ffffff")).
  { unfold firstMatch. repeat split.
    - cbn. lra.
    - intros [|j] tj Hj Htj; [|lia]. cbn in Htj. injection Htj as <-. cbn. lra. }
  destruct (interpolateColors_endpoints rampConfig "#4169E1" "#EED6AF")
    as (_ & _ & _ & Hg & Hthr).
  split; [exact Ht |]. split; [exact (Hg 0.25 Ht) |].
  split; [exact Hm |]. exact (Hthr 1%nat (mkStop 1.0 "#ffffff") Hm).
Defined.

(** Either some stop admits the value, and then there is a first one, or
    every threshold is below the value. *)
Lemma scan_dichotomy_upto (cfg : Config) (value : R) (n : nat) :
  (exists k t, (k < n)%nat /\ firstMatch cfg value k t) \/
  (forall j tj, (j < n)%nat -> nth_error (thresholds cfg) j = Some tj ->
                threshold tj < value).
Proof.
  induction n as [|n IH].
  - right. intros j tj Hj. lia.
  - destruct IH as [(k & t & Hk & Hm) | Hbelow].
    + left. exists k, t. split; [lia | assumption].
    + destruct (nth_error (thresholds cfg) n) as [tn|] eqn:Hn.
      * destruct (Rle_dec value (threshold tn)) as [Hle|Hgt].
        -- left. exists n, tn. split; [lia |]. repeat split; assumption.
        -- right. intros j tj Hj Htj.
           destruct (Nat.eq_dec j n) as [->|Hne].
           ++ rewrite Hn in Htj. injection Htj as <-. lra.
           ++ apply (Hbelow j); [lia | assumption].
      * right. intros j tj Hj Htj.
        destruct (Nat.eq_dec j n) as [->|Hne].
        -- rewrite Hn in Htj. discriminate.
        -- apply (Hbelow j); [lia | assumption].
Qed.

Lemma scan_dichotomy (cfg : Config) (value : R) :
  (exists k t, firstMatch cfg value k t) \/
  (forall j tj, nth_error (thresholds cfg) j = Some tj -> threshold tj < value).
Proof.
  destruct (scan_dichotomy_upto cfg value (List.length (thresholds cfg)))
    as [(k & t & _ & Hm) | Hbelow].
  - left. now exists k, t.
  - right. intros j tj Htj. apply (Hbelow j); [|assumption].
    apply nth_error_Some. rewrite Htj. discriminate.
Qed.

(** X11.  A value that some stop admits is always coloured by a stop and
    never by the fallback: the scan stops at the first admitting stop, at
    or before any admitting one.  On a list with strictly growing
    thresholds the stop [k] colours exactly the band above the threshold
    of stop [k - 1] up to its own. *)
Theorem getColorForValue_bands (cfg : Config) (value : R) :
  (forall j tj, nth_error (thresholds cfg) j = Some tj -> value <= threshold tj ->
     exists k t, (k <= j)%nat /\ firstMatch cfg value k t /\
                 getColorForValue cfg value = colorAt cfg value k t) /\
  (ascending (thresholds cfg) ->
   forall k t, nth_error (thresholds cfg) k = Some t ->
     (firstMatch cfg value k t <->
      value <= threshold t /\
      (forall prev, nth_error (thresholds cfg) (k - 1) = Some prev ->
                    (0 < k)%nat -> threshold prev < value))).
Proof.
  split.
  - intros j tj Hj Hle.
    destruct (scan_dichotomy cfg value) as [(k & t & Hm) | Hbelow].
    + exists k, t. split; [| split; [assumption |]].
      * destruct (Nat.le_gt_cases k j) as [|Hgt]; [assumption | exfalso].
        destruct Hm as (_ & _ & Hb). pose proof (Hb j tj Hgt Hj). lra.
      * now apply getColorForValue_firstMatch.
    + pose proof (Hbelow j tj Hj). lra.
  - intros Hasc k t Hk. split.
    + intros (_ & Hle & Hbelow). split; [assumption |].
      intros prev Hp Hpos. apply (Hbelow (k - 1)%nat); [lia | assumption].
    + intros (Hle & Hprev). repeat split; try assumption.
      intros j tj Hj Htj.
      destruct (nth_error (thresholds cfg) (k - 1)) as [prev|] eqn:Hp.
      * pose proof (Hprev prev eq_refl ltac:(lia)) as Hlt.
        destruct (Nat.eq_dec j (k - 1)) as [->|Hne].
        -- rewrite Hp in Htj. injection Htj as <-. assumption.
        -- pose proof (Hasc j (k - 1)%nat tj prev ltac:(lia) Htj Hp). lra.
      * exfalso. apply nth_error_None in Hp.
        assert (k < List.length (thresholds cfg))%nat
          by (apply nth_error_Some; rewrite Hk; discriminate).
        lia.
Qed.

(** X12.  A stop whose threshold does not exceed that of an earlier stop
    is dead: no value makes the scan stop at it, so every colour returned
    is the one of the scan stopping at another stop, or the fallback. *)
Theorem getColorForValue_dead_stop (cfg : Config) (j k : nat) (tj tk : ColorStop) :
  (j < k)%nat ->
  nth_error (thresholds cfg) j = Some tj ->
  nth_error (thresholds cfg) k = Some tk ->
  threshold tk <= threshold tj ->
  forall value,
    ~ firstMatch cfg value k tk /\
    ((exists k' t', k' <> k /\ firstMatch cfg value k' t' /\
                    getColorForValue cfg value = colorAt cfg value k' t') \/
     ((forall i ti, nth_error (thresholds cfg) i = Some ti -> threshold ti < value) /\
      getColorForValue cfg value = mkRGB 255 255 255)).
Proof.
  intros Hjk Hj Hk Hle value.
  assert (Hdead : forall u, ~ firstMatch cfg value k u).
  { intros u (Hu & Hv & Hbelow).
    assert (u = tk) by congruence. subst u.
    pose proof (Hbelow j tj Hjk Hj). lra. }
  split; [apply Hdead |].
  destruct (scan_dichotomy cfg value) as [(k' & t' & Hm) | Hbelow].
  - left. exists k', t'. split; [| split; [assumption |]].
    + intros ->. exact (Hdead t' Hm).
    + now apply getColorForValue_firstMatch.
  - right. split; [assumption | now apply getColorForValue_no_match].
Qed.

Lemma getColorForValue_dead_stop_witness :
  (0 < 1)%nat /\
  threshold (mkStop 0.5 "#00ff00") <= threshold (mkStop 0.5 "#ff0000") /\
  ~ firstMatch twinConfig 0.3 1 (mkStop 0.5 "#00ff00").
Proof.
  assert (Hjk : (0 < 1)%nat) by lia.
  assert (Hle : threshold (mkStop 0.5 "#00ff00") <= threshold (mkStop 0.5 "#ff0000"))
    by (cbn; lra).
  split; [exact Hjk |]. split; [exact Hle |].
  exact (proj1 (getColorForValue_dead_stop twinConfig 0 1 (mkStop 0.5 "#ff0000")
                  (mkStop 0.5 "#00ff00") Hjk eq_refl eq_refl Hle 0.3)).
Defined.

Lemma chained_above (stops : list ColorStop) :
  forall lo, chained lo stops ->
  forall j tj, nth_error stops j = Some tj -> lo < threshold tj.
Proof.
  induction stops as [|t rest IH]; intros lo Hc j tj Hj.
  - destruct j; discriminate.
  - destruct Hc as [Hlo Hrest]. destruct j as [|j].
    + injection Hj as <-. assumption.
    + pose proof (IH _ Hrest j tj Hj). lra.
Qed.

Lemma chained_ascending (stops : list ColorStop) (lo : R) :
  chained lo stops -> ascending stops.
Proof.
  revert lo. induction stops as [|t rest IH]; intros lo Hc i j ti tj Hij Hi Hj.
  - destruct i; discriminate.
  - destruct Hc as [_ Hrest]. destruct j as [|j]; [lia |].
    destruct i as [|i].
    + injection Hi as <-. apply (chained_above rest _ Hrest j tj Hj).
    + apply (IH _ Hrest i j ti tj); [lia | assumption | assumption].
Qed.

Lemma island_ascending : ascending islandThresholds.
Proof.
  apply (chained_ascending _ (-1)). cbn. repeat split; lra.
Qed.

Lemma getColorForValue_bands_witness :
  nth_error (thresholds defaultConfig) 3 = Some (mkStop 0.15 "#228B22") /\
  0.1 <= threshold (mkStop 0.15 "#228B22") /\
  ascending (thresholds defaultConfig) /\
  (exists k t, (k <= 3)%nat /\ firstMatch defaultConfig 0.1 k t) /\
  firstMatch defaultConfig 0.1 3 (mkStop 0.15 "#228B22").
Proof.
  assert (Hle : 0.1 <= threshold (mkStop 0.15 "#228B22")) by (cbn; lra).
  destruct (getColorForValue_bands defaultConfig 0.1) as (Hcover & Hband).
  destruct (Hcover 3%nat (mkStop 0.15 "#228B22") eq_refl Hle) as (k & t & Hk & Hm & _).
  split; [reflexivity |]. split; [exact Hle |].
  split; [exact island_ascending |].
  split; [exists k, t; split; assumption |].
  apply (Hband island_ascending 3%nat (mkStop 0.15 "#228B22") eq_refl).
  split; [exact Hle |].
  intros prev Hp _. cbn in Hp. injection Hp as <-. cbn. lra.
Defined.

(** * Further properties of the masks *)

Lemma shaped_range (value grad k : R) : 0 <= shaped value grad k <= 1.
Proof.
  unfold shaped. destruct (Rlt_dec 0 grad); [apply clamp01_range | lra].
Qed.

Lemma applyMask_cases (cfg : Config) (x y value : R) :
  applyMask cfg x y value = value \/
  exists grad k, applyMask cfg x y value = shaped value grad k.
Proof.
  unfold applyMask.
  destruct (mask cfg); cbn [negb]; [|now left].
  destruct (String.eqb (maskShape cfg) "circle").
  { right. now exists (circleGrad cfg x y), (maskContrast cfg). }
  destruct (String.eqb (maskShape cfg) "square").
  { right. now exists (squareGrad cfg x y), (maskContrast cfg * 0.75). }
  destruct (String.eqb (maskShape cfg) "hexagon").
  { right. now exists (hexGrad cfg x y), (maskContrast cfg * 0.75). }
  now left.
Qed.

(** X13.  A masked value is always in [0, 1] when the mask is on with one
    of its three shapes, whatever went in; and whatever the settings are,
    a value of [0, 1] stays in [0, 1]. *)
Theorem applyMask_range (cfg : Config) (x y value : R) :
  (mask cfg = true ->
   maskShape cfg = "circle"%string \/ maskShape cfg = "square"%string \/
   maskShape cfg = "hexagon"%string ->
   0 <= applyMask cfg x y value <= 1) /\
  (0 <= value <= 1 -> 0 <= applyMask cfg x y value <= 1).
Proof.
  split.
  - intros Hm [Hs | [Hs | Hs]].
    + rewrite (applyMask_circle cfg x y value Hm Hs). apply shaped_range.
    + rewrite (applyMask_square cfg x y value Hm Hs). apply shaped_range.
    + rewrite (applyMask_hexagon cfg x y value Hm Hs). apply shaped_range.
  - intros Hv.
    destruct (applyMask_cases cfg x y value) as [-> | (grad & k & ->)];
      [assumption | apply shaped_range].
Qed.

Lemma applyMask_range_witness :
  mask squareConfig = true /\ maskShape squareConfig = "square"%string /\
  0 <= applyMask squareConfig 30 40 7 <= 1 /\
  0 <= 0.3 <= 1 /\ 0 <= applyMask noStopsConfig 30 40 0.3 <= 1.
Proof.
  assert (Hv : 0 <= 0.3 <= 1) by lra.
  destruct (applyMask_range squareConfig 30 40 7) as (Hon & _).
  destruct (applyMask_range noStopsConfig 30 40 0.3) as (_ & Hany).
  split; [reflexivity |]. split; [reflexivity |].
  split; [exact (Hon eq_refl (or_intror (or_introl eq_refl))) |].
  split; [exact Hv | exact (Hany Hv)].
Defined.

Lemma circleGrad_formula (cfg : Config) (x y : R) :
  0 < maxGrad cfg ->
  circleGrad cfg x y * maxGrad cfg = maxGrad cfg - 2 * circleDist cfg x y.
Proof.
  intros Hm. unfold circleGrad. cbv zeta.
  set (d := circleDist cfg x y). set (M := maxGrad cfg) in *.
  assert (Hq : d / M * M = d) by (field; lra).
  replace (- ((d / M - 0.5) * 2.0) * M) with (M - 2 * (d / M * M)) by lra.
  lra.
Qed.

Lemma clamp01_pos (v : R) : 0 < v -> 0 < clamp01 v.
Proof.
  intros Hv. unfold clamp01, Rmax, Rmin.
  destruct (Rle_dec 1 v); destruct (Rle_dec 0 _); lra.
Qed.

(** X14.  The circle mask is an island of radius half the largest
    distance: on an image of positive size the result is 0 from that
    radius on, and inside it a positive value with a positive contrast
    stays positive. *)
Theorem circle_mask_radius (cfg : Config) (x y value : R) :
  mask cfg = true -> maskShape cfg = "circle"%string ->
  (0 < width cfg)%Z -> (0 < height cfg)%Z ->
  (maxGrad cfg / 2 <= circleDist cfg x y -> applyMask cfg x y value = 0) /\
  (circleDist cfg x y < maxGrad cfg / 2 -> 0 < value -> 0 < maskContrast cfg ->
   0 < applyMask cfg x y value).
Proof.
  intros Hm Hs Hw Hh.
  pose proof (maxGrad_pos cfg Hw Hh) as Hpos.
  pose proof (circleGrad_formula cfg x y Hpos) as Hf.
  rewrite (applyMask_circle cfg x y value Hm Hs).
  split.
  - intros Hd. apply shaped_outside.
    destruct (Rle_dec (circleGrad cfg x y) 0) as [|Hn]; [assumption | exfalso].
    assert (0 < circleGrad cfg x y * maxGrad cfg) by (apply Rmult_lt_0_compat; lra).
    lra.
  - intros Hd Hv Hk.
    assert (Hg : 0 < circleGrad cfg x y).
    { destruct (Rlt_dec 0 (circleGrad cfg x y)) as [|Hn]; [assumption | exfalso].
      assert (0 <= (- circleGrad cfg x y) * maxGrad cfg) by (apply Rmult_le_pos; lra).
      lra. }
    assert (Hp : 0 < value * circleGrad cfg x y) by (now apply Rmult_lt_0_compat).
    rewrite shaped_boosted by assumption.
    apply clamp01_pos. now apply Rmult_lt_0_compat.
Qed.

Lemma circle_mask_radius_witness :
  mask defaultConfig = true /\ maskShape defaultConfig = "circle"%string /\
  (0 < width defaultConfig)%Z /\ (0 < height defaultConfig)%Z /\
  circleDist defaultConfig 200 200 < maxGrad defaultConfig / 2 /\
  0 < applyMask defaultConfig 200 200 0.5 /\
  maxGrad defaultConfig / 2 <= circleDist defaultConfig 0 0 /\
  applyMask defaultConfig 0 0 0.5 = 0.
Proof.
  assert (Hw : (0 < width defaultConfig)%Z) by reflexivity.
  pose proof (maxGrad_pos defaultConfig Hw Hw) as Hpos.
  assert (Hin : circleDist defaultConfig 200 200 < maxGrad defaultConfig / 2)
    by (rewrite circleDist_centre; lra).
  assert (Hout : maxGrad defaultConfig / 2 <= circleDist defaultConfig 0 0)
    by (rewrite circleDist_corner; lra).
  assert (Hk : 0 < maskContrast defaultConfig) by (cbn; lra).
  destruct (circle_mask_radius defaultConfig 200 200 0.5 eq_refl eq_refl Hw Hw)
    as (_ & Hinside).
  destruct (circle_mask_radius defaultConfig 0 0 0.5 eq_refl eq_refl Hw Hw)
    as (Houtside & _).
  split; [reflexivity |]. split; [reflexivity |].
  split; [exact Hw |]. split; [exact Hw |].
  split; [exact Hin |].
  split; [exact (Hinside Hin ltac:(lra) Hk) |].
  split; [exact Hout | exact (Houtside Hout)].
Defined.

Lemma edge_offset (p c : R) : 0 < c -> p <= 0 \/ 2 * c <= p -> 1 <= Rabs (p - c) / c.
Proof.
  intros Hc Hp.
  assert (Ha : c <= Rabs (p - c)).
  { unfold Rabs. destruct (Rcase_abs (p - c)); lra. }
  replace 1 with (c / c) by (field; lra).
  unfold Rdiv. apply Rmult_le_compat_r; [|assumption].
  left. now apply Rinv_0_lt_compat.
Qed.

(** X15.  The square mask is 0 on the first column and the first row of
    the image and everywhere outside it; the hexagon mask is 0 on the
    first column and left or right of the image. *)
Theorem square_hexagon_border (cfg : Config) (x y value : R) :
  mask cfg = true -> (0 < width cfg)%Z -> (0 < height cfg)%Z ->
  (maskShape cfg = "square"%string ->
   x <= 0 \/ IZR (width cfg) <= x \/ y <= 0 \/ IZR (height cfg) <= y ->
   applyMask cfg x y value = 0) /\
  (maskShape cfg = "hexagon"%string ->
   x <= 0 \/ IZR (width cfg) <= x ->
   applyMask cfg x y value = 0).
Proof.
  intros Hm Hw Hh.
  apply IZR_lt in Hw, Hh.
  assert (Hcx : 0 < IZR (width cfg) / 2) by lra.
  assert (Hcy : 0 < IZR (height cfg) / 2) by lra.
  split; intros Hs Hedge.
  - rewrite (applyMask_square cfg x y value Hm Hs).
    apply shaped_outside. unfold squareGrad.
    set (dx := Rabs (x - IZR (width cfg) / 2) / (IZR (width cfg) / 2)).
    set (dy := Rabs (y - IZR (height cfg) / 2) / (IZR (height cfg) / 2)).
    assert (Hd : 1 <= Rmax dx dy).
    { destruct Hedge as [Hx | [Hx | [Hy | Hy]]].
      - apply Rle_trans with dx; [|apply Rmax_l]. apply edge_offset; lra.
      - apply Rle_trans with dx; [|apply Rmax_l]. apply edge_offset; lra.
      - apply Rle_trans with dy; [|apply Rmax_r]. apply edge_offset; lra.
      - apply Rle_trans with dy; [|apply Rmax_r]. apply edge_offset; lra. }
    rewrite Rmax_left; lra.
  - rewrite (applyMask_hexagon cfg x y value Hm Hs).
    apply shaped_outside. unfold hexGrad.
    set (dx := Rabs (x - IZR (width cfg) / 2) / (IZR (width cfg) / 2)).
    set (dy := Rabs (y - IZR (height cfg) / 2) / (IZR (height cfg) / 2)).
    assert (Hdx : 1 <= dx) by (apply edge_offset; lra).
    assert (Hq : 1 <= Rabs dx).
    { rewrite Rabs_pos_eq; lra. }
    assert (Hd : 1 <= Rmax (Rabs dx) (Rabs dy * 0.866 + Rabs dx * 0.5)).
    { apply Rle_trans with (Rabs dx); [assumption | apply Rmax_l]. }
    rewrite Rmax_left; lra.
Qed.

Lemma square_hexagon_border_witness :
  mask squareConfig = true /\ (0 < width squareConfig)%Z /\
  maskShape squareConfig = "square"%string /\
  applyMask squareConfig 0 150 0.9 = 0 /\
  maskShape hexagonConfig = "hexagon"%string /\
  applyMask hexagonConfig 400 150 0.9 = 0.
Proof.
  assert (Hw : (0 < 400)%Z) by reflexivity.
  destruct (square_hexagon_border squareConfig 0 150 0.9 eq_refl Hw Hw) as (Hsq & _).
  destruct (square_hexagon_border hexagonConfig 400 150 0.9 eq_refl Hw Hw) as (_ & Hhex).
  split; [reflexivity |]. split; [exact Hw |]. split; [reflexivity |].
  split; [apply (Hsq eq_refl); left; lra |].
  split; [reflexivity |].
  apply (Hhex eq_refl). right. cbn. lra.
Defined.

Lemma mirror_offset (w p : R) : Rabs (w - p - w / 2) = Rabs (p - w / 2).
Proof.
  replace (w - p - w / 2) with (- (p - w / 2)) by field.
  apply Rabs_Ropp.
Qed.

(** X16.  Every mask is symmetric about the centre of the image: the
    pixels [(x, y)], [(width - x, y)] and [(x, height - y)] get the same
    result for the same value. *)
Theorem applyMask_symmetric (cfg : Config) (x y value : R) :
  applyMask cfg (IZR (width cfg) - x) y value = applyMask cfg x y value /\
  applyMask cfg x (IZR (height cfg) - y) value = applyMask cfg x y value.
Proof.
  unfold applyMask, circleGrad, circleDist, squareGrad, hexGrad.
  rewrite !mirror_offset. split; reflexivity.
Qed.

(** * Further properties of the pixel loop *)

Lemma drawValue_range (cfg : Config) (x y : Z) : 0 <= drawValue cfg x y <= 1.
Proof.
  unfold drawValue. cbv zeta.
  set (v := (perlin cfg (IZR x / scale cfg) (IZR y / scale cfg + time cfg) (seed cfg) + 1) / 2).
  assert (Hv : 0 <= v <= 1).
  { unfold v, perlin.
    pose proof (fractalNoise_range (octaveCount cfg) (IZR x / scale cfg)
                  (IZR y / scale cfg + time cfg) (seed cfg) (octaveCount_pos cfg)).
    lra. }
  destruct (applyMask_cases cfg (IZR x) (IZR y) v) as [-> | (grad & k & ->)];
    [assumption | apply shaped_range].
Qed.

Lemma loopRange_nth (n : Z) (i : nat) :
  (i < Z.to_nat n)%nat -> nth_error (loopRange n) i = Some (Z.of_nat i).
Proof.
  intros Hi. unfold loopRange.
  rewrite nth_error_map, nth_error_seq.
  destruct (Nat.ltb_spec i (Z.to_nat n)); [reflexivity | lia].
Qed.



Lemma getColorForValue_inGamut (cfg : Config) (value : R) :
  inGamut (getColorForValue cfg value).
Proof.
  unfold getColorForValue. apply scanThresholds_inGamut.
  intros j tj Hj. lia.
Qed.

Lemma clampChannel_range (c : R) : 0 <= Rmin 255 (Rmax 0 c) <= 255.
Proof.
  unfold Rmin, Rmax.
  destruct (Rle_dec 0 c); destruct (Rle_dec 255 _); lra.
Qed.

Lemma drawColor_inGamut (cfg : Config) (x y : Z) :
  inGamut (drawColor cfg x y (drawValue cfg x y)).
Proof.
  pose proof (drawValue_range cfg x y) as Hv.
  set (v := drawValue cfg x y) in *.
  assert (Hbase : inGamut (baseColor cfg v)).
  { unfold baseColor. destruct (grayscale cfg); [|apply getColorForValue_inGamut].
    unfold inGamut; cbn [r g b]. lra. }
  unfold drawColor, applyShading.
  destruct (shading cfg); [|assumption].
  unfold inGamut; cbn [r g b]. repeat split; apply clampChannel_range.
Qed.

(** A channel of the byte range is stored as the nearest byte. *)
Lemma toUint8Clamp_near (v : R) :
  0 <= v <= 255 ->
  (0 <= toUint8Clamp v <= 255)%Z /\ Rabs (IZR (toUint8Clamp v) - v) <= 0.5.
Proof.
  intros Hv. unfold toUint8Clamp.
  destruct (Rle_dec v 0) as [H0|H0].
  { split; [lia |]. replace v with 0 by lra. rewrite Rminus_0_r, Rabs_R0. lra. }
  destruct (Rle_dec 255 v) as [H1|H1].
  { split; [lia |]. replace v with 255 by lra.
    replace (255 - 255) with 0 by ring. rewrite Rabs_R0. lra. }
  pose proof (Zfloor_bound v) as Hb.
  assert (Hf0 : (0 <= Zfloor v)%Z) by (apply Zfloor_lub; lra).
  assert (Hf1 : (Zfloor v < 255)%Z) by (apply lt_IZR; lra).
  destruct (Rlt_dec (v - IZR (Zfloor v)) 0.5) as [Hlo|Hlo].
  { split; [lia |]. apply Rabs_le. lra. }
  destruct (Rlt_dec 0.5 (v - IZR (Zfloor v))) as [Hhi|Hhi].
  { split; [lia |]. rewrite plus_IZR. apply Rabs_le. lra. }
  destruct (Z.even (Zfloor v)).
  - split; [lia |]. apply Rabs_le. lra.
  - split; [lia |]. rewrite plus_IZR. apply Rabs_le. lra.
Qed.


(** X19.  In grayscale mode the three colour bytes of every pixel are
    equal, with or without shading and masking. *)
Theorem grayscale_equal_channels (cfg : Config) (x y : Z) :
  grayscale cfg = true ->
  exists v : Z, (0 <= v <= 255)%Z /\ drawPixel cfg x y = [v; v; v; 255%Z].
Proof.
  intros Hgray.
  destruct (drawColor_inGamut cfg x y) as (Hr & _ & _).
  assert (Heq : g (drawColor cfg x y (drawValue cfg x y))
                = r (drawColor cfg x y (drawValue cfg x y)) /\
                b (drawColor cfg x y (drawValue cfg x y))
                = r (drawColor cfg x y (drawValue cfg x y))).
  { unfold drawColor, applyShading, baseColor. rewrite Hgray.
    destruct (shading cfg); cbn [r g b]; split; reflexivity. }
  destruct Heq as [Eg Eb].
  unfold drawPixel, storePixel. rewrite Eg, Eb.
  exists (toUint8Clamp (r (drawColor cfg x y (drawValue cfg x y)))).
  split; [apply toUint8Clamp_near; assumption | reflexivity].
Qed.

Lemma grayscale_equal_channels_witness :
  grayscale (mkConfig 1 0 0 true false false true false "circle" 4.0 [] 4 4) = true /\
  exists v : Z,
    (0 <= v <= 255)%Z /\
    drawPixel (mkConfig 1 0 0 true false false true false "circle" 4.0 [] 4 4) 2 3
    = [v; v; v; 255%Z].
Proof.
  split; [reflexivity |].
  exact (grayscale_equal_channels
           (mkConfig 1 0 0 true false false true false "circle" 4.0 [] 4 4) 2 3 eq_refl).
Defined.

Lemma flat_map_block {A C : Type} (f : A -> list C) (n : nat) :
  (forall a, List.length (f a) = n) ->
  forall l i a, nth_error l i = Some a ->
    firstn n (skipn (i * n) (flat_map f l)) = f a.
Proof.
  intros Hf. induction l as [|a0 l IH]; intros i a Hi.
  - destruct i; discriminate.
  - cbn [flat_map]. destruct i as [|i].
    + injection Hi as ->. cbn [Nat.mul skipn].
      rewrite firstn_app, Hf, Nat.sub_diag, <- (Hf a) at 1.
      rewrite firstn_all. cbn [firstn]. apply app_nil_r.
    + cbn [nth_error] in Hi.
      rewrite skipn_app, Hf.
      rewrite (skipn_all2 (f a0)) by (rewrite Hf; cbn; lia).
      replace (S i * n - n)%nat with (i * n)%nat by (cbn; lia).
      cbn [app]. now apply IH.
Qed.

(** X20.  The image is laid out row by row, four bytes per pixel: on an
    image of positive size the bytes of the pixel in column [i] of row [j]
    are the four entries from index [(j * width + i) * 4] on. *)
Theorem draw_pixel_layout (cfg : Config) (i j : nat) :
  (i < Z.to_nat (width cfg))%nat -> (j < Z.to_nat (height cfg))%nat ->
  exists data,
    draw cfg = Rendered data /\
    firstn 4 (skipn ((j * Z.to_nat (width cfg) + i) * 4) data)
    = drawPixel cfg (Z.of_nat i) (Z.of_nat j).
Proof.
  intros Hi Hj. eexists. split; [reflexivity |].
  set (W := Z.to_nat (width cfg)) in *.
  set (row := fun y => flat_map (fun x => drawPixel cfg x y) (loopRange (width cfg))).
  set (data := flat_map row (loopRange (height cfg))).
  assert (Hrowlen : forall y, List.length (row y) = (W * 4)%nat).
  { intros y. unfold row.
    rewrite (flat_map_constant_length _ 4%nat) by (intros; apply drawPixel_length).
    now rewrite loopRange_length. }
  pose proof (flat_map_block row (W * 4) Hrowlen (loopRange (height cfg)) j _
                (loopRange_nth _ j Hj)) as Hrow.
  pose proof (flat_map_block (fun x => drawPixel cfg x (Z.of_nat j)) 4
                (fun x => drawPixel_length cfg x (Z.of_nat j))
                (loopRange (width cfg)) i _ (loopRange_nth _ i Hi)) as Hpix.
  fold (row (Z.of_nat j)) in Hpix. fold data in Hrow.
  rewrite <- Hpix, <- Hrow.
  rewrite skipn_firstn_comm, firstn_firstn, skipn_skipn.
  replace (Nat.min 4 (W * 4 - i * 4)) with 4%nat by lia.
  f_equal. f_equal. lia.
Qed.

Lemma draw_pixel_layout_witness :
  (3 < Z.to_nat (width defaultConfig))%nat /\
  (5 < Z.to_nat (height defaultConfig))%nat /\
  exists data,
    draw defaultConfig = Rendered data /\
    firstn 4 (skipn ((5 * Z.to_nat (width defaultConfig) + 3) * 4) data)
    = drawPixel defaultConfig (Z.of_nat 3) (Z.of_nat 5).
Proof.
  assert (Hi : (3 < Z.to_nat (width defaultConfig))%nat) by (cbn; lia).
  assert (Hj : (5 < Z.to_nat (height defaultConfig))%nat) by (cbn; lia).
  split; [exact Hi |]. split; [exact Hj |].
  exact (draw_pixel_layout defaultConfig 3 5 Hi Hj).
Defined.

(** * Presets and the editing of the stops *)

Lemma lookupPreset_In (name : string) (p : Preset) :
  lookupPreset name = Some p -> In (name, p) presets.
Proof.
  unfold lookupPreset. intros H.
  destruct (find (fun entry => String.eqb (fst entry) name) presets) as [[n q]|] eqn:Hf;
    [|discriminate].
  cbn in H. injection H as <-.
  apply find_some in Hf as [Hin Heq]. cbn in Heq.
  apply String.eqb_eq in Heq. now subst n.
Qed.

Lemma lookupPreset_Custom : lookupPreset "Custom" = None.
Proof. reflexivity. Qed.

(** The last stop of a list, when it has one. *)
Lemma last_stop_nth (init : list ColorStop) (t : ColorStop) :
  nth_error (init ++ [t]) (List.length init) = Some t.
Proof.
  rewrite nth_error_app2 by lia. now rewrite Nat.sub_diag.
Qed.

(** A value that the last stop admits is coloured by a stop. *)
Lemma covered_by_last (cfg : Config) (init : list ColorStop) (t : ColorStop) (value : R) :
  thresholds cfg = init ++ [t] -> value <= threshold t ->
  exists k u, firstMatch cfg value k u /\
              getColorForValue cfg value = colorAt cfg value k u.
Proof.
  intros Hst Hle.
  destruct (scan_dichotomy cfg value) as [(k & u & Hm) | Hbelow].
  - exists k, u. split; [assumption | now apply getColorForValue_firstMatch].
  - pose proof (Hbelow (List.length init) t) as H.
    rewrite Hst, last_stop_nth in H. specialize (H eq_refl). lra.
Qed.

(** What every preset of the table has in common. *)
Lemma presets_wellformed (name : string) (p : Preset) :
  lookupPreset name = Some p ->
  0 < presetScale p /\
  ascending (presetThresholds p) /\
  (exists init t, presetThresholds p = init ++ [t] /\ threshold t = 1) /\
  presetMaskContrast p = None /\
  orDefault (presetMaskShape p) "circle"%string = "circle"%string.
Proof.
  intros H. apply lookupPreset_In in H. unfold presets in H. cbn [In] in H.
  destruct H as [H | [H | [H | [H | [H | []]]]]]; injection H as _ <-;
    cbn [presetScale presetThresholds presetMaskContrast presetMaskShape orDefault].
  - split; [lra |]. split; [apply (chained_ascending _ (-1)); cbn; repeat split; lra |].
    split; [|split; reflexivity].
    exists [ mkStop 0.0 "#4169E1"; mkStop 0.02 "#EED6AF"; mkStop 0.04 "#D2B48C";
             mkStop 0.15 "#228B22"; mkStop 0.30 "#006400"; mkStop 0.45 "#8B8989" ],
           (mkStop 1.0 "#FFFAFA").
    split; [reflexivity | cbn; lra].
  - split; [lra |]. split; [apply (chained_ascending _ (-1)); cbn; repeat split; lra |].
    split; [|split; reflexivity].
    exists [ mkStop 0.0 "#4169E1"; mkStop 0.01 "#EED6AF"; mkStop 0.03 "#D2B48C";
             mkStop 0.12 "#228B22"; mkStop 0.25 "#006400"; mkStop 0.35 "#8B8989" ],
           (mkStop 1.0 "#FFFAFA").
    split; [reflexivity | cbn; lra].
  - split; [lra |]. split; [apply (chained_ascending _ (-1)); cbn; repeat split; lra |].
    split; [|split; reflexivity].
    exists [ mkStop 0.3 "#000000"; mkStop 0.5 "#e0c080"; mkStop 0.7 "#d9b26f";
             mkStop 0.85 "#aa9966" ], (mkStop 1.0 "#888888").
    split; [reflexivity | cbn; lra].
  - split; [lra |]. split; [apply (chained_ascending _ (-1)); cbn; repeat split; lra |].
    split; [|split; reflexivity].
    exists [ mkStop 0.25 "#000000"; mkStop 0.35 "#ffe39f"; mkStop 0.45 "#65b84f";
             mkStop 0.6 "#3e9f3e"; mkStop 0.75 "#2c662c" ], (mkStop 1.0 "#1f4d1f").
    split; [reflexivity | cbn; lra].
  - split; [lra |]. split; [apply (chained_ascending _ (-1)); cbn; repeat split; lra |].
    split; [|split; reflexivity].
    exists [ mkStop 0.4 "#333333"; mkStop 0.5 "#777777"; mkStop 0.7 "#aaaaaa";
             mkStop 0.85 "#dddddd" ], (mkStop 1.0 "#ffffff").
    split; [reflexivity | cbn; lra].
Qed.

Lemma applyPreset_known (name : string) (p : Preset) (st : Settings) :
  lookupPreset name = Some p ->
  applyPreset name st
  = (mkSettings
       (mkConfig (presetScale p) (presetSeed p) (time (pipeline st))
                 (grayscale (pipeline st)) (octaves (pipeline st))
                 (smoothing (pipeline st)) (shading (pipeline st))
                 (orDefault (presetMask p) true)
                 (orDefault (presetMaskShape p) "circle"%string)
                 (orDefault (presetMaskContrast p) 4.0)
                 (presetThresholds p) (width (pipeline st)) (height (pipeline st)))
       (speed st) name,
     Some (draw
       (mkConfig (presetScale p) (presetSeed p) (time (pipeline st))
                 (grayscale (pipeline st)) (octaves (pipeline st))
                 (smoothing (pipeline st)) (shading (pipeline st))
                 (orDefault (presetMask p) true)
                 (orDefault (presetMaskShape p) "circle"%string)
                 (orDefault (presetMaskContrast p) 4.0)
                 (presetThresholds p) (width (pipeline st)) (height (pipeline st))))).
Proof. intros H. unfold applyPreset. now rewrite H. Qed.



(** X22.  Every preset gives a usable configuration: a positive scale and
    a list of stops whose thresholds grow strictly and end at 1; so after
    [applyPreset] every value up to 1 is coloured by a stop and never by
    the fallback, and a configuration of positive size is not one of the
    invalid ones. *)
Theorem applyPreset_valid (name : string) (p : Preset) (st : Settings) (value : R) :
  lookupPreset name = Some p ->
  let cfg := pipeline (fst (applyPreset name st)) in
  0 < scale cfg /\
  ascending (thresholds cfg) /\
  (exists init t, thresholds cfg = init ++ [t] /\ threshold t = 1) /\
  (value <= 1 ->
   exists k t, firstMatch cfg value k t /\
               getColorForValue cfg value = colorAt cfg value k t) /\
  ((0 < width (pipeline st))%Z -> (0 < height (pipeline st))%Z -> ~ invalidConfig cfg).
Proof.
  intros Hp cfg.
  destruct (presets_wellformed name p Hp) as (Hscale & Hasc & (init & t & Hst & Ht) & _).
  assert (Hcfg : scale cfg = presetScale p /\ thresholds cfg = presetThresholds p /\
                 width cfg = width (pipeline st) /\ height cfg = height (pipeline st)).
  { unfold cfg. rewrite (applyPreset_known name p st Hp). repeat split. }
  destruct Hcfg as (Es & Et & Ew & Eh).
  rewrite Es, Et.
  split; [assumption |]. split; [assumption |].
  split; [now exists init, t |].
  split.
  - intros Hv. apply (covered_by_last cfg init t value); [congruence | lra].
  - intros Hw Hh [Hbad | [Hbad | [Hbad | Hbad]]].
    + rewrite Es in Hbad. lra.
    + rewrite Et, Hst in Hbad. destruct init; discriminate.
    + rewrite Ew in Hbad. lia.
    + rewrite Eh in Hbad. lia.
Qed.

Lemma applyPreset_valid_witness :
  (exists p, lookupPreset "Mountains" = Some p) /\
  0.62 <= 1 /\
  (exists k t,
     firstMatch (pipeline (fst (applyPreset "Mountains" (mkSettings defaultConfig 0.01 "Island"))))
                0.62 k t) /\
  (0 < width (pipeline (mkSettings defaultConfig 0.01 "Island")))%Z /\
  (0 < height (pipeline (mkSettings defaultConfig 0.01 "Island")))%Z /\
  ~ invalidConfig
      (pipeline (fst (applyPreset "Mountains" (mkSettings defaultConfig 0.01 "Island")))).
Proof.
  destruct (lookupPreset "Mountains") as [p|] eqn:Hp; [|discriminate].
  assert (Hv : 0.62 <= 1) by lra.
  assert (Hw : (0 < width (pipeline (mkSettings defaultConfig 0.01 "Island")))%Z)
    by reflexivity.
  destruct (applyPreset_valid "Mountains" p (mkSettings defaultConfig 0.01 "Island") 0.62 Hp)
    as (_ & _ & _ & Hcover & Hvalid).
  destruct (Hcover Hv) as (k & t & Hm & _).
  split; [now exists p |]. split; [exact Hv |]. split; [now exists k, t |].
  split; [exact Hw |]. split; [exact Hw | exact (Hvalid Hw Hw)].
Defined.

Lemma markAsCustom_spec (st : Settings) :
  pipeline (markAsCustom st) = pipeline st /\
  speed (markAsCustom st) = speed st /\
  currentPreset (markAsCustom st) = "Custom"%string.
Proof.
  unfold markAsCustom.
  destruct (String.eqb_spec (currentPreset st) "Custom") as [E|E]; cbn [negb];
    repeat split; try reflexivity. exact E.
Qed.

Lemma addLayer_pipeline (st : Settings) :
  pipeline (addLayer st)
  = setThresholds (pipeline st) (thresholds (pipeline st) ++ [mkStop 1.0 "#ffffff"]).
Proof. unfold addLayer. now rewrite (proj1 (markAsCustom_spec _)). Qed.




(** The scan of a list with one more stop at its end. *)
Lemma firstMatch_extended (cfg : Config) (extra : ColorStop) (value : R)
                          (k : nat) (t : ColorStop) :
  firstMatch cfg value k t ->
  firstMatch (setThresholds cfg (thresholds cfg ++ [extra])) value k t /\
  colorAt (setThresholds cfg (thresholds cfg ++ [extra])) value k t
  = colorAt cfg value k t.
Proof.
  intros (Hk & Hle & Hbelow).
  assert (Hlt : (k < List.length (thresholds cfg))%nat)
    by (apply nth_error_Some; rewrite Hk; discriminate).
  split.
  - unfold firstMatch. cbn [thresholds setThresholds].
    split; [rewrite nth_error_app1 by lia; assumption |].
    split; [assumption |].
    intros j tj Hj Htj. rewrite nth_error_app1 in Htj by lia.
    now apply (Hbelow j).
  - unfold colorAt. cbn [thresholds setThresholds smoothing].
    now rewrite (nth_error_app1 _ _ (n := k - 1)) by lia.
Qed.

Lemma getColorForValue_extended (cfg : Config) (value : R) :
  (smoothing cfg = false \/
   (exists j tj, nth_error (thresholds cfg) j = Some tj /\ value <= threshold tj) \/
   1 < value) ->
  getColorForValue (setThresholds cfg (thresholds cfg ++ [mkStop 1.0 "#ffffff"])) value
  = getColorForValue cfg value.
Proof.
  intros Hcase.
  set (cfg' := setThresholds cfg (thresholds cfg ++ [mkStop 1.0 "#ffffff"])).
  destruct (scan_dichotomy cfg value) as [(k & t & Hm) | Hbelow].
  - destruct (firstMatch_extended cfg (mkStop 1.0 "#ffffff") value k t Hm) as [Hm' Hc].
    fold cfg' in Hm', Hc.
    rewrite (getColorForValue_firstMatch cfg' value k t Hm'), Hc.
    symmetry. now apply getColorForValue_firstMatch.
  - rewrite (getColorForValue_no_match cfg value Hbelow).
    destruct (Rle_dec value 1) as [Hle|Hgt].
    + destruct Hcase as [Hs | [(j & tj & Hj & Hv) | Hbig]];
        [| pose proof (Hbelow j tj Hj); lra | lra].
      assert (Hm' : firstMatch cfg' value (List.length (thresholds cfg))
                      (mkStop 1.0 "#ffffff")).
      { unfold firstMatch, cfg'. cbn [thresholds setThresholds].
        split; [apply last_stop_nth |]. split; [cbn; lra |].
        intros j tj Hj Htj. rewrite nth_error_app1 in Htj by lia.
        now apply (Hbelow j). }
      rewrite (getColorForValue_firstMatch cfg' value _ _ Hm').
      unfold colorAt, cfg'. cbn [smoothing setThresholds color]. rewrite Hs.
      reflexivity.
    + apply getColorForValue_no_match.
      intros j tj Htj. unfold cfg' in Htj. cbn [thresholds setThresholds] in Htj.
      destruct (Nat.lt_ge_cases j (List.length (thresholds cfg))) as [Hj|Hj].
      * rewrite nth_error_app1 in Htj by lia. now apply (Hbelow j).
      * rewrite nth_error_app2 in Htj by lia.
        destruct (j - List.length (thresholds cfg))%nat as [|[|?]]; cbn in Htj;
          try discriminate.
        injection Htj as <-. cbn. lra.
Qed.

(** X24.  The stop [addLayer] appends changes no colour when smoothing is
    off, since it is white like the fallback; with smoothing on it changes
    none for a value that an earlier stop admits, nor for a value above
    1. *)
Theorem addLayer_invisible (st : Settings) (value : R) :
  (smoothing (pipeline st) = false ->
   getColorForValue (pipeline (addLayer st)) value
   = getColorForValue (pipeline st) value) /\
  (forall j tj, nth_error (thresholds (pipeline st)) j = Some tj ->
     value <= threshold tj ->
     getColorForValue (pipeline (addLayer st)) value
     = getColorForValue (pipeline st) value) /\
  (1 < value ->
   getColorForValue (pipeline (addLayer st)) value
   = getColorForValue (pipeline st) value).
Proof.
  rewrite addLayer_pipeline.
  split; [| split].
  - intros Hs. apply getColorForValue_extended. now left.
  - intros j tj Hj Hv. apply getColorForValue_extended. right. left. now exists j, tj.
  - intros Hv. apply getColorForValue_extended. now right; right.
Qed.

Lemma addLayer_invisible_witness :
  nth_error (thresholds (pipeline (mkSettings defaultConfig 0.01 "Island"))) 6
  = Some (mkStop 1.0 "#FFFAFA") /\
  0.7 <= threshold (mkStop 1.0 "#FFFAFA") /\
  getColorForValue (pipeline (addLayer (mkSettings defaultConfig 0.01 "Island"))) 0.7
  = getColorForValue defaultConfig 0.7 /\
  1 < 1.5 /\
  getColorForValue (pipeline (addLayer (mkSettings defaultConfig 0.01 "Island"))) 1.5
  = getColorForValue defaultConfig 1.5 /\
  smoothing (pipeline (mkSettings
               (mkConfig 50 0 0 false true false true false "circle" 4.0
                         [mkStop 0.5 "#ff0000"] 400 400) 0.01 "Custom")) = false /\
  getColorForValue
    (pipeline (addLayer (mkSettings
                 (mkConfig 50 0 0 false true false true false "circle" 4.0
                           [mkStop 0.5 "#ff0000"] 400 400) 0.01 "Custom"))) 0.8
  = getColorForValue
      (mkConfig 50 0 0 false true false true false "circle" 4.0
                [mkStop 0.5 "#ff0000"] 400 400) 0.8.
Proof.
  assert (Hv : 0.7 <= threshold (mkStop 1.0 "#FFFAFA")) by (cbn; lra).
  assert (Hbig : 1 < 1.5) by lra.
  destruct (addLayer_invisible (mkSettings defaultConfig 0.01 "Island") 0.7)
    as (_ & Hadm & _).
  destruct (addLayer_invisible (mkSettings defaultConfig 0.01 "Island") 1.5)
    as (_ & _ & Habove).
  destruct (addLayer_invisible
              (mkSettings
                 (mkConfig 50 0 0 false true false true false "circle" 4.0
                           [mkStop 0.5 "#ff0000"] 400 400) 0.01 "Custom") 0.8)
    as (Hstepped & _ & _).
  split; [reflexivity |]. split; [exact Hv |].
  split; [exact (Hadm 6%nat (mkStop 1.0 "#FFFAFA") eq_refl Hv) |].
  split; [exact Hbig |]. split; [exact (Habove Hbig) |].
  split; [reflexivity | exact (Hstepped eq_refl)].
Defined.

(** * The animation loop *)

Lemma setTime_setTime (cfg : Config) (a c : R) :
  setTime (setTime cfg a) c = setTime cfg c.
Proof. reflexivity. Qed.

Lemma setTime_same (cfg : Config) (a : R) : a = time cfg -> setTime cfg a = cfg.
Proof. intros ->. now destruct cfg. Qed.

Lemma loopFrames_spec (n : nat) :
  forall st,
    fst (loopFrames n st)
    = mkSettings (setTime (pipeline st) (time (pipeline st) + INR n * speed st))
                 (speed st) (currentPreset st) /\
    List.length (snd (loopFrames n st)) = n /\
    (speed st <= 0 -> snd (loopFrames n st) = repeat None n) /\
    (0 < speed st ->
     forall k, (k < n)%nat ->
       nth_error (snd (loopFrames n st)) k
       = Some (Some (draw (setTime (pipeline st)
                                   (time (pipeline st) + INR (S k) * speed st))))).
Proof.
  induction n as [|n IH]; intros st.
  - cbn [loopFrames fst snd List.length repeat].
    split; [| split; [reflexivity | split; [reflexivity | intros _ k Hk; lia]]].
    destruct st as [cfg sp name]. cbn [pipeline speed currentPreset]. f_equal.
    symmetry. apply setTime_same. cbn [INR]. ring.
  - cbn [loopFrames]. unfold loopFrame.
    set (st1 := mkSettings (setTime (pipeline st) (time (pipeline st) + speed st))
                           (speed st) (currentPreset st)).
    destruct (IH st1) as (Hst & Hlen & Hstill & Hmove).
    destruct (loopFrames n st1) as [st2 rest]. cbn [fst snd] in *.
    assert (Ht1 : time (pipeline st1) = time (pipeline st) + speed st) by reflexivity.
    split.
    { rewrite Hst. unfold st1 at 1 3 4. cbn [pipeline speed currentPreset].
      rewrite setTime_setTime. f_equal. f_equal.
      rewrite Ht1. change (speed st1) with (speed st). rewrite S_INR. ring. }
    split; [cbn [List.length]; now rewrite Hlen |].
    split.
    { intros Hs. change (speed st1) with (speed st) in *.
      destruct (Rlt_dec 0 (speed st)) as [Hpos|_]; [lra |].
      cbn [repeat]. now rewrite (Hstill Hs). }
    intros Hs k Hk. change (speed st1) with (speed st) in *.
    destruct (Rlt_dec 0 (speed st)) as [_|Hn]; [|contradiction].
    destruct k as [|k].
    + cbn [nth_error]. do 3 f_equal. unfold st1. cbn [pipeline].
      f_equal. cbn [INR]. ring.
    + cbn [nth_error]. rewrite (Hmove Hs k ltac:(lia)).
      do 3 f_equal. rewrite Ht1. unfold st1. cbn [pipeline].
      rewrite setTime_setTime. f_equal. rewrite (S_INR (S k)). ring.
Qed.

(** X25.  After [n] runs of the loop the time offset has grown by [n]
    times the speed and nothing else has changed.  With a positive speed
    run number [k + 1] draws the image of the settings at time offset
    [time + (k + 1) * speed]; with speed 0 the settings stay as they are
    and nothing is drawn. *)
Theorem loopFrames_animation (n : nat) (st : Settings) :
  fst (loopFrames n st)
  = mkSettings (setTime (pipeline st) (time (pipeline st) + INR n * speed st))
               (speed st) (currentPreset st) /\
  List.length (snd (loopFrames n st)) = n /\
  (0 < speed st ->
   forall k, (k < n)%nat ->
     nth_error (snd (loopFrames n st)) k
     = Some (Some (draw (setTime (pipeline st)
                                 (time (pipeline st) + INR (S k) * speed st))))) /\
  (speed st = 0 ->
   fst (loopFrames n st) = st /\ snd (loopFrames n st) = repeat None n).
Proof.
  destruct (loopFrames_spec n st) as (Hst & Hlen & Hstill & Hmove).
  split; [exact Hst |]. split; [exact Hlen |]. split; [exact Hmove |].
  intros Hs. split; [| apply Hstill; lra].
  rewrite Hst, Hs. destruct st as [cfg sp name]. cbn [pipeline speed currentPreset] in *.
  subst sp. f_equal. apply setTime_same. ring.
Qed.

Lemma loopFrames_animation_witness :
  0 < speed (mkSettings defaultConfig 0.01 "Island") /\
  (2 < 5)%nat /\
  nth_error (snd (loopFrames 5 (mkSettings defaultConfig 0.01 "Island"))) 2
  = Some (Some (draw (setTime defaultConfig (0 + INR 3 * 0.01)))) /\
  speed (mkSettings defaultConfig 0 "Island") = 0 /\
  fst (loopFrames 5 (mkSettings defaultConfig 0 "Island"))
  = mkSettings defaultConfig 0 "Island".
Proof.
  assert (Hs : 0 < speed (mkSettings defaultConfig 0.01 "Island")) by (cbn; lra).
  assert (Hk : (2 < 5)%nat) by lia.
  destruct (loopFrames_animation 5 (mkSettings defaultConfig 0.01 "Island"))
    as (_ & _ & Hmove & _).
  destruct (loopFrames_animation 5 (mkSettings defaultConfig 0 "Island"))
    as (_ & _ & _ & Hstill).
  split; [exact Hs |]. split; [exact Hk |].
  split; [exact (Hmove Hs 2%nat Hk) |].
  split; [reflexivity | exact (proj1 (Hstill eq_refl))].
Defined.

(** * The random terrain *)

Lemma random_floor (v : R) (m : Z) :
  0 <= v < 1 -> (0 < m)%Z -> (0 <= Zfloor (v * IZR m) <= m - 1)%Z.
Proof.
  intros Hv Hm. apply IZR_lt in Hm.
  assert (H0 : 0 <= v * IZR m) by (apply Rmult_le_pos; lra).
  assert (H1 : v * IZR m < IZR m).
  { assert (0 < (1 - v) * IZR m) by (apply Rmult_lt_0_compat; lra). lra. }
  pose proof (Zfloor_bound (v * IZR m)) as Hb.
  split.
  - now apply Zfloor_lub.
  - assert (Zfloor (v * IZR m) < m)%Z by (apply lt_IZR; lra). lia.
Qed.

Lemma random_floor_R (v : R) (m : Z) :
  0 <= v < 1 -> (0 < m)%Z -> 0 <= Math_floor (v * IZR m) <= IZR m - 1.
Proof.
  intros Hv Hm. destruct (random_floor v m Hv Hm) as [H0 H1].
  unfold Math_floor. apply IZR_le in H0, H1. rewrite minus_IZR in H1. lra.
Qed.

Lemma layerLoop_layers (rnd : nat -> R) (n : nat) :
  forall fuel i stops,
    (i + fuel = n)%nat ->
    layerLoop rnd (INR n) fuel i (8 + 3 * i) stops
    = stops ++ map (randomLayer rnd n) (seq i fuel).
Proof.
  induction fuel as [|fuel IH]; intros i stops Hn.
  - cbn [layerLoop seq map]. now rewrite app_nil_r.
  - cbn [layerLoop].
    destruct (Rlt_dec (INR i) (INR n)) as [_|Hc];
      [|exfalso; apply Hc; apply lt_INR; lia].
    replace (8 + 3 * i + 3)%nat with (8 + 3 * S i)%nat by lia.
    rewrite IH by lia. cbn [seq map]. rewrite <- app_assoc. reflexivity.
Qed.

Lemma insertStop_last (t : ColorStop) (sorted : list ColorStop) :
  (forall u, In u sorted -> threshold u <= threshold t) ->
  insertStop t sorted = sorted ++ [t].
Proof.
  induction sorted as [|u rest IH]; intros Hle; [reflexivity |].
  cbn [insertStop app].
  destruct (Rlt_dec (threshold t - threshold u) 0) as [Hlt|_].
  - pose proof (Hle u (or_introl eq_refl)). lra.
  - f_equal. apply IH. intros v Hv. apply Hle. now right.
Qed.

(** Sorting leaves a list with growing thresholds as it is. *)
Lemma sortStops_ascending (stops : list ColorStop) :
  ascending stops -> sortStops stops = stops.
Proof.
  intros Hasc. unfold sortStops.
  assert (Hgen : forall l acc, ascending (acc ++ l) ->
                   fold_left (fun sorted t => insertStop t sorted) l acc = acc ++ l).
  { induction l as [|t l IH]; intros acc Ha.
    - cbn. now rewrite app_nil_r.
    - cbn [fold_left]. rewrite insertStop_last.
      + rewrite IH; rewrite <- app_assoc; [reflexivity | exact Ha].
      + intros u Hu. apply In_nth_error in Hu as [i Hi].
        assert (Hlt : (i < List.length acc)%nat)
          by (apply nth_error_Some; rewrite Hi; discriminate).
        left. apply (Ha i (List.length acc) u t Hlt).
        * rewrite nth_error_app1 by lia. exact Hi.
        * rewrite nth_error_app2 by lia. now rewrite Nat.sub_diag. }
  apply (Hgen stops []). exact Hasc.
Qed.

Lemma randomLayers_nth (rnd : nat -> R) (n j : nat) (t : ColorStop) :
  nth_error (map (randomLayer rnd n) (seq 0 n)) j = Some t ->
  (j < n)%nat /\ t = randomLayer rnd n j.
Proof.
  rewrite nth_error_map, nth_error_seq.
  destruct (Nat.ltb_spec j n) as [Hlt|Hge]; cbn; [|discriminate].
  intros Heq. injection Heq as <-. split; [assumption | reflexivity].
Qed.

Lemma randomLayers_ascending (rnd : nat -> R) (n : nat) :
  ascending (map (randomLayer rnd n) (seq 0 n)).
Proof.
  intros i j ti tj Hij Hi Hj.
  apply randomLayers_nth in Hi as [Hin ->]. apply randomLayers_nth in Hj as [Hjn ->].
  cbn [threshold randomLayer].
  assert (Hn : 0 < INR n) by (apply lt_0_INR; lia).
  pose proof (lt_INR i j Hij) as Hlt.
  unfold Rdiv. apply Rmult_lt_compat_r; [now apply Rinv_0_lt_compat | lra].
Qed.

Lemma randomLayer_colour (rnd : nat -> R) (n j : nat) :
  (forall k, 0 <= rnd k < 1) ->
  String.length (color (randomLayer rnd n j)) = 7%nat /\
  exists vr vg vb : Z,
    hexToRgb (color (randomLayer rnd n j)) = mkRGB (IZR vr) (IZR vg) (IZR vb) /\
    (0 <= vr <= 255)%Z /\ (0 <= vg <= 255)%Z /\ (0 <= vb <= 255)%Z.
Proof.
  intros Hrnd. cbn [color randomLayer].
  set (h := Math_floor (rnd (8 + 3 * j)%nat * 360)).
  set (s := Math_floor (rnd (8 + 3 * j + 1)%nat * 60) + 40).
  set (l := Math_floor (rnd (8 + 3 * j + 2)%nat * 50) + 25).
  assert (Hs : 0 <= s <= 100).
  { unfold s.
    pose proof (random_floor_R _ 60 (Hrnd (8 + 3 * j + 1)%nat) ltac:(lia)). lra. }
  assert (Hl : 0 <= l <= 100).
  { unfold l.
    pose proof (random_floor_R _ 50 (Hrnd (8 + 3 * j + 2)%nat) ltac:(lia)). lra. }
  destruct (hslRgb_bytes h s l Hs Hl) as (Hr & Hg & Hb).
  unfold hslToHex.
  destruct (hslRgb h s l) as [[vr vg] vb]. cbn [fst snd] in *.
  split.
  - rewrite packed_colour, toString16_packed by assumption. reflexivity.
  - exists vr, vg, vb. split; [now apply hexToRgb_printed | tauto].
Qed.

Lemma randomizeTerrain_layers (rnd : nat -> R) (st : Settings) :
  (forall k, 0 <= rnd k < 1) ->
  exists n, (4 <= n <= 6)%nat /\
    thresholds (pipeline (randomizeTerrain rnd st))
    = map (randomLayer rnd n) (seq 0 n).
Proof.
  intros Hrnd.
  pose proof (random_floor _ 3 (Hrnd 7%nat) ltac:(lia)) as Hz.
  set (z := Zfloor (rnd 7%nat * 3)) in *.
  exists (Z.to_nat (z + 4)). split; [lia |].
  unfold randomizeTerrain. cbv zeta.
  rewrite (proj1 (markAsCustom_spec _)). cbn [pipeline thresholds].
  assert (Hcount : Math_floor (rnd 7%nat * 3) + 4 = INR (Z.to_nat (z + 4))).
  { unfold Math_floor. fold z. rewrite INR_IZR_INZ, Z2Nat.id by lia.
    rewrite plus_IZR. reflexivity. }
  rewrite Hcount.
  assert (Hceil : Zceil (INR (Z.to_nat (z + 4))) = (z + 4)%Z).
  { rewrite INR_IZR_INZ, Z2Nat.id by lia. apply Zceil_eq. lra. }
  rewrite Hceil.
  pose proof (layerLoop_layers rnd (Z.to_nat (z + 4)) (Z.to_nat (z + 4)) 0 []
                ltac:(lia)) as Hloop.
  change (8 + 3 * 0)%nat with 8%nat in Hloop. rewrite Hloop.
  cbn [app]. apply sortStops_ascending, randomLayers_ascending.
Qed.

Lemma randomLayers_last (rnd : nat -> R) (n : nat) :
  (0 < n)%nat ->
  exists init t,
    map (randomLayer rnd n) (seq 0 n) = init ++ [t] /\ threshold t = 1.
Proof.
  intros Hn. destruct n as [|m]; [lia |].
  exists (map (randomLayer rnd (S m)) (seq 0 m)), (randomLayer rnd (S m) m).
  split.
  - rewrite seq_S, map_app. reflexivity.
  - cbn [threshold randomLayer]. rewrite S_INR.
    pose proof (pos_INR m). field. lra.
Qed.

Lemma randomizeTerrain_fields (rnd : nat -> R) (st : Settings) :
  pipeline (randomizeTerrain rnd st)
  = mkConfig (Math_floor (rnd 0%nat * 150) + 20) (Math_floor (rnd 1%nat * 100))
             (time (pipeline st)) false true
             (if Rlt_dec (rnd 3%nat) 0.6 then true else false) true
             (if Rlt_dec (rnd 4%nat) 0.7 then true else false)
             (arrayAt ["circle"; "square"; "hexagon"]%string (Zfloor (rnd 5%nat * 3)))
             (rnd 6%nat * 2 + 1.5)
             (thresholds (pipeline (randomizeTerrain rnd st)))
             (width (pipeline st)) (height (pipeline st)) /\
  speed (randomizeTerrain rnd st) = rnd 2%nat * 0.02 /\
  currentPreset (randomizeTerrain rnd st) = "Custom"%string.
Proof.
  unfold randomizeTerrain. cbv zeta.
  destruct (markAsCustom_spec
              (mkSettings
                 (mkConfig (Math_floor (rnd 0%nat * 150) + 20)
                    (Math_floor (rnd 1%nat * 100)) (time (pipeline st)) false true
                    (if Rlt_dec (rnd 3%nat) 0.6 then true else false) true
                    (if Rlt_dec (rnd 4%nat) 0.7 then true else false)
                    (arrayAt ["circle"; "square"; "hexagon"]%string
                       (Zfloor (rnd 5%nat * 3)))
                    (rnd 6%nat * 2 + 1.5)
                    (sortStops
                       (layerLoop rnd (Math_floor (rnd 7%nat * 3) + 4)
                          (Z.to_nat (Zceil (Math_floor (rnd 7%nat * 3) + 4))) 0 8 []))
                    (width (pipeline st)) (height (pipeline st)))
                 (rnd 2%nat * 0.02) (currentPreset st))) as (Hp & Hs & Hc).
  rewrite Hp, Hs, Hc. cbn [pipeline speed thresholds]. repeat split.
Qed.

(** X26.  The random terrain is always a usable configuration, whatever
    [Math.random] returns: the scale is in 20..169, the seed in 0..99, the
    speed below 0.02, the mask contrast in [1.5, 3.5), the shape one of the
    three; there are 4, 5 or 6 layers, layer [j] of [n] having the
    threshold [(j + 1) / n], so the thresholds grow strictly up to 1, and
    each colour is a [#] with six digits that [hexToRgb] reads as three
    bytes; every value up to 1 is coloured by a layer; the time and the
    size are kept and the preset name becomes [Custom]. *)
Theorem randomizeTerrain_valid (rnd : nat -> R) (st : Settings) (value : R) :
  (forall k, 0 <= rnd k < 1) ->
  let st' := randomizeTerrain rnd st in
  let cfg := pipeline st' in
  (20 <= scale cfg <= 169 /\ 0 <= seed cfg <= 99 /\ 0 <= speed st' < 0.02 /\
   1.5 <= maskContrast cfg < 3.5) /\
  (maskShape cfg = "circle"%string \/ maskShape cfg = "square"%string \/
   maskShape cfg = "hexagon"%string) /\
  (grayscale cfg = false /\ octaves cfg = true /\ shading cfg = true /\
   currentPreset st' = "Custom"%string /\ time cfg = time (pipeline st) /\
   width cfg = width (pipeline st) /\ height cfg = height (pipeline st)) /\
  (exists n, (4 <= n <= 6)%nat /\
     thresholds cfg = map (randomLayer rnd n) (seq 0 n)) /\
  ascending (thresholds cfg) /\
  (exists init t, thresholds cfg = init ++ [t] /\ threshold t = 1) /\
  (forall t, In t (thresholds cfg) ->
     String.length (color t) = 7%nat /\
     exists vr vg vb : Z,
       hexToRgb (color t) = mkRGB (IZR vr) (IZR vg) (IZR vb) /\
       (0 <= vr <= 255)%Z /\ (0 <= vg <= 255)%Z /\ (0 <= vb <= 255)%Z) /\
  (value <= 1 ->
   exists k t, firstMatch cfg value k t /\
               getColorForValue cfg value = colorAt cfg value k t) /\
  ((0 < width (pipeline st))%Z -> (0 < height (pipeline st))%Z -> ~ invalidConfig cfg).
Proof.
  intros Hrnd st' cfg.
  destruct (randomizeTerrain_fields rnd st) as (Hcfg & Hspeed & Hname).
  destruct (randomizeTerrain_layers rnd st Hrnd) as (n & Hn & Hlayers).
  fold st' in Hcfg, Hspeed, Hname, Hlayers. fold cfg in Hcfg, Hlayers.
  destruct (randomLayers_last rnd n ltac:(lia)) as (init & t & Hinit & Hone).
  pose proof (random_floor_R _ 150 (Hrnd 0%nat) ltac:(lia)) as Hscale.
  pose proof (random_floor_R _ 100 (Hrnd 1%nat) ltac:(lia)) as Hseed.
  pose proof (random_floor _ 3 (Hrnd 5%nat) ltac:(lia)) as Hshape.
  pose proof (Hrnd 2%nat) as H2. pose proof (Hrnd 6%nat) as H6.
  assert (Es : scale cfg = Math_floor (rnd 0%nat * 150) + 20) by (now rewrite Hcfg).
  assert (Ew : width cfg = width (pipeline st)) by (now rewrite Hcfg).
  assert (Eh : height cfg = height (pipeline st)) by (now rewrite Hcfg).
  split.
  { rewrite Hspeed, Hcfg. cbn [scale seed maskContrast]. repeat split; lra. }
  split.
  { rewrite Hcfg. cbn [maskShape].
    set (z := Zfloor (rnd 5%nat * 3)) in *.
    assert (Hz : z = 0%Z \/ z = 1%Z \/ z = 2%Z) by lia.
    destruct Hz as [-> | [-> | ->]]; cbn; tauto. }
  split.
  { rewrite Hname, Hcfg. cbn [grayscale octaves shading time width height].
    repeat split. }
  split; [now exists n |].
  split; [rewrite Hlayers; apply randomLayers_ascending |].
  split; [exists init, t; split; [congruence | assumption] |].
  split.
  { intros u Hu. rewrite Hlayers in Hu.
    apply in_map_iff in Hu as (j & <- & _). now apply randomLayer_colour. }
  split.
  { intros Hv. apply (covered_by_last cfg init t value); [congruence | lra]. }
  intros Hw Hh [Hbad | [Hbad | [Hbad | Hbad]]].
  - rewrite Es in Hbad. lra.
  - rewrite Hlayers, Hinit in Hbad. destruct init; discriminate.
  - rewrite Ew in Hbad. lia.
  - rewrite Eh in Hbad. lia.
Qed.

Lemma randomizeTerrain_valid_witness :
  (forall k : nat, 0 <= (fun _ : nat => 0.5) k < 1) /\
  20 <= scale (pipeline (randomizeTerrain (fun _ => 0.5) (mkSettings defaultConfig 0.01 "Island")))
     <= 169 /\
  ascending (thresholds (pipeline (randomizeTerrain (fun _ => 0.5)
                                     (mkSettings defaultConfig 0.01 "Island")))) /\
  0.5 <= 1 /\
  (exists k t,
     firstMatch (pipeline (randomizeTerrain (fun _ => 0.5)
                             (mkSettings defaultConfig 0.01 "Island"))) 0.5 k t) /\
  (0 < width (pipeline (mkSettings defaultConfig 0.01 "Island")))%Z /\
  ~ invalidConfig (pipeline (randomizeTerrain (fun _ => 0.5)
                               (mkSettings defaultConfig 0.01 "Island"))).
Proof.
  assert (Hrnd : forall k : nat, 0 <= (fun _ : nat => 0.5) k < 1) by (intros k; lra).
  assert (Hv : 0.5 <= 1) by lra.
  assert (Hw : (0 < width (pipeline (mkSettings defaultConfig 0.01 "Island")))%Z)
    by reflexivity.
  destruct (randomizeTerrain_valid (fun _ => 0.5) (mkSettings defaultConfig 0.01 "Island")
              0.5 Hrnd) as ((Hscale & _) & _ & _ & _ & Hasc & _ & _ & Hcover & Hvalid).
  destruct (Hcover Hv) as (k & t & Hm & _).
  split; [exact Hrnd |]. split; [exact Hscale |]. split; [exact Hasc |].
  split; [exact Hv |]. split; [now exists k, t |].
  split; [exact Hw | exact (Hvalid Hw Hw)].
Defined.

(** * The text of the map file *)










(** * The fractal sum on the lattice and the range of unmasked images *)

Lemma rawPerlin_at_lattice (ix iy : Z) (s : R) : rawPerlin (IZR ix) (IZR iy) s = 0.
Proof.
  unfold rawPerlin. rewrite !Math_floor_IZR.
  replace (IZR ix - IZR ix) with 0 by ring.
  replace (IZR iy - IZR iy) with 0 by ring.
  rewrite fade_0, dotGridGradient_origin. unfold lerp. ring.
Qed.

Lemma octaveLoop_lattice (ix iy : Z) (s : R) (n : nat) :
  forall st f, frequency st = IZR f -> total st = 0 ->
    total (octaveLoop n (IZR ix) (IZR iy) s st) = 0.
Proof.
  induction n as [|n IH]; intros st f Hf Ht; cbn [octaveLoop]; [assumption |].
  apply (IH _ (f * 2)%Z).
  - unfold octaveStep; cbn [frequency]. rewrite Hf, mult_IZR. reflexivity.
  - unfold octaveStep; cbn [total]. rewrite Ht, Hf, <- !mult_IZR.
    rewrite rawPerlin_at_lattice. ring.
Qed.

Lemma fractalNoise_at_lattice (n : nat) (ix iy : Z) (s : R) :
  fractalNoise n (IZR ix) (IZR iy) s = 0.
Proof.
  unfold fractalNoise.
  rewrite (octaveLoop_lattice ix iy s n octaveStart 1%Z) by reflexivity.
  unfold Rdiv. apply Rmult_0_l.
Qed.

(** X28.  At a point with integer coordinates every octave is at a
    lattice point, so the fractal sum is 0 for any number of octaves and
    the remapped value is exactly 1/2. *)
Theorem perlin_lattice_zero (cfg : Config) (n : nat) (ix iy : Z) (s : R) :
  fractalNoise n (IZR ix) (IZR iy) s = 0 /\
  perlin cfg (IZR ix) (IZR iy) s = 0 /\
  (perlin cfg (IZR ix) (IZR iy) s + 1) / 2 = 0.5.
Proof.
  split; [apply fractalNoise_at_lattice |].
  unfold perlin. rewrite fractalNoise_at_lattice. split; lra.
Qed.





Lemma toUint8Clamp_half_gray : toUint8Clamp (0.5 * 255) = 128%Z.
Proof.
  unfold toUint8Clamp.
  destruct (Rle_dec (0.5 * 255) 0); [lra |].
  destruct (Rle_dec 255 (0.5 * 255)); [lra |].
  replace (Zfloor (0.5 * 255)) with 127%Z by (symmetry; apply Zfloor_eq; lra).
  destruct (Rlt_dec (0.5 * 255 - 127) 0.5); [lra |].
  destruct (Rlt_dec 0.5 (0.5 * 255 - 127)); [lra |].
  reflexivity.
Qed.

(** X30.  With scale 1 and a whole time offset every pixel samples the
    noise at a lattice point, so every pixel starts from the value 1/2,
    whatever the seed and the octaves: unmasked, in grayscale and without
    shading the whole image is the flat gray 128. *)
Theorem unit_scale_flat (cfg : Config) (t : Z) (x y : Z) :
  scale cfg = 1 -> time cfg = IZR t ->
  drawValue cfg x y = applyMask cfg (IZR x) (IZR y) 0.5 /\
  (mask cfg = false -> grayscale cfg = true -> shading cfg = false ->
   drawPixel cfg x y = [128; 128; 128; 255]%Z).
Proof.
  intros Hs Ht.
  assert (Hv : drawValue cfg x y = applyMask cfg (IZR x) (IZR y) 0.5).
  { unfold drawValue. cbv zeta. rewrite Hs, Ht. unfold perlin.
    replace (IZR x / 1) with (IZR x) by field.
    replace (IZR y / 1 + IZR t) with (IZR (y + t)) by (rewrite plus_IZR; field).
    rewrite fractalNoise_at_lattice. f_equal. lra. }
  split; [exact Hv |].
  intros Hm Hg Hsh.
  unfold drawPixel, storePixel, drawColor, applyShading, baseColor.
  rewrite Hsh, Hg, Hv, applyMask_disabled by assumption. cbn [r g b].
  now rewrite toUint8Clamp_half_gray.
Qed.

Lemma unit_scale_flat_witness :
  scale (mkConfig 1 0 0 true false false false false "circle" 4.0 [] 4 4) = 1 /\
  time (mkConfig 1 0 0 true false false false false "circle" 4.0 [] 4 4) = IZR 0 /\
  drawPixel (mkConfig 1 0 0 true false false false false "circle" 4.0 [] 4 4) 3 2
  = [128; 128; 128; 255]%Z.
Proof.
  destruct (unit_scale_flat
              (mkConfig 1 0 0 true false false false false "circle" 4.0 [] 4 4)
              0 3 2 eq_refl eq_refl) as (_ & Hflat).
  split; [reflexivity |]. split; [reflexivity |].
  exact (Hflat eq_refl eq_refl eq_refl).
Defined.
